(** * A block based bounded queue (BBQ), single producer / single consumer

    Shallow embedding of [bbq.h] (namespace PEX::BBQ::SPSC, class
    [Queue<T, N, B>]) and the properties of its cursor protocol.

    The embedding is sequential: one call of [enqueue] or [dequeue] runs to
    completion before the next one starts.  Every atomic load and store of
    the source is one read or write of the queue state, in program order.
    An access outside the block array or outside a block's slot array, and a
    remainder by zero, are undefined in the source: the embedding stops the
    call with [Undefined].  The two [while(true)] loops take a bound on
    their number of iterations and stop with [OutOfFuel] beyond it. *)

From Stdlib Require Import ZArith Lia Bool.
From Stdlib Require String.
From stdpp Require Import base tactics option list.
Import String.StringSyntax.

Open Scope Z_scope.
Delimit Scope string_scope with string.

(** ** Fields: a 44 bit version and a 20 bit index *)

Definition VERSION_BITS : Z := 44.
Definition INDEX_BITS : Z := 20.

Record Field : Type := MkField { version : Z; index : Z }.

(** [Field(vsn, idx)]: each argument is truncated to its bit-field. *)
Definition Field_ctor (vsn idx : Z) : Field :=
  MkField (vsn mod 2 ^ VERSION_BITS) (idx mod 2 ^ INDEX_BITS).

(** [operator+]: adds to the index only, inside its 20 bits. *)
Definition Field_add (f : Field) (n : Z) : Field :=
  MkField (version f) ((index f + n) mod 2 ^ INDEX_BITS).

Definition Field_wf (f : Field) : Prop :=
  0 <= version f < 2 ^ VERSION_BITS /\ 0 <= index f < 2 ^ INDEX_BITS.

Inductive RetStatus : Type := NO_ENTRY | NOT_AVAILABLE | SUCCESS | BLOCK_DONE.

Inductive cursor : Type := Alloc | Comm | Resv | Cons.

(** ** Outcomes of a call *)

Inductive outcome (A : Type) : Type :=
| Done (a : A)
| Undefined
| OutOfFuel.
Arguments Done {A} a.
Arguments Undefined {A}.
Arguments OutOfFuel {A}.

Section Queue.

(** The payload type, the value the literal [0] converts to, and the
    unspecified content of a slot that was never written. *)
Variable T : Type.
Variable T_zero : T.
Variable T_junk : T.

(** Template parameters: capacity and number of blocks. *)
Variable N B : Z.

Definition NE : Z := N / B.

(** The two [static_assert]s, a block array that can be declared, and at
    least one slot. *)
Definition valid_params : Prop :=
  NE < 2 ^ INDEX_BITS /\ N mod B = 0 /\ 0 < B /\ 0 < N.

Record Block : Type := MkBlock {
  alloc : Field;
  comm : Field;
  resv : Field;
  cons : Field;
  data : list T
}.

Record Queue : Type := MkQueue {
  blocks : list Block;
  phead : Field;
  chead : Field
}.

Definition get_cursor (c : cursor) (b : Block) : Field :=
  match c with
  | Alloc => alloc b
  | Comm => comm b
  | Resv => resv b
  | Cons => cons b
  end.

Definition set_cursor (c : cursor) (f : Field) (b : Block) : Block :=
  match c with
  | Alloc => MkBlock f (comm b) (resv b) (cons b) (data b)
  | Comm => MkBlock (alloc b) f (resv b) (cons b) (data b)
  | Resv => MkBlock (alloc b) (comm b) f (cons b) (data b)
  | Cons => MkBlock (alloc b) (comm b) (resv b) f (data b)
  end.

Definition set_data (d : list T) (b : Block) : Block :=
  MkBlock (alloc b) (comm b) (resv b) (cons b) d.

Definition set_blocks (bs : list Block) (q : Queue) : Queue :=
  MkQueue bs (phead q) (chead q).

(** ** The state and error monad of a call *)

Definition M (A : Type) : Type := Queue -> outcome (A * Queue).

Definition ret {A} (a : A) : M A := fun q => Done (a, q).

Definition bind {A C} (m : M A) (k : A -> M C) : M C :=
  fun q =>
    match m q with
    | Done (a, q') => k a q'
    | Undefined => Undefined
    | OutOfFuel => OutOfFuel
    end.

Notation "x <- m ;; k" := (bind m (fun x => k))
  (at level 100, m at next level, right associativity).
Notation "m ;;; k" := (bind m (fun _ => k))
  (at level 100, right associativity).

Definition no_fuel {A} : M A := fun _ => OutOfFuel.

(** [bbq_load_*(blocks[b].c)] *)
Definition load (b : Z) (c : cursor) : M Field :=
  fun q =>
    match blocks q !! Z.to_nat b with
    | Some blk => if 0 <=? b then Done (get_cursor c blk, q) else Undefined
    | None => Undefined
    end.

(** [bbq_store_*(blocks[b].c, f)] *)
Definition store (b : Z) (c : cursor) (f : Field) : M unit :=
  fun q =>
    match blocks q !! Z.to_nat b with
    | Some blk =>
        if 0 <=? b
        then Done (tt, set_blocks (<[Z.to_nat b := set_cursor c f blk]> (blocks q)) q)
        else Undefined
    | None => Undefined
    end.

(** [blocks[b].data[i]] read *)
Definition load_data (b i : Z) : M T :=
  fun q =>
    match blocks q !! Z.to_nat b with
    | Some blk =>
        match data blk !! Z.to_nat i with
        | Some x => if (0 <=? b) && (0 <=? i) then Done (x, q) else Undefined
        | None => Undefined
        end
    | None => Undefined
    end.

(** [blocks[b].data[i] = t] *)
Definition store_data (b i : Z) (t : T) : M unit :=
  fun q =>
    match blocks q !! Z.to_nat b with
    | Some blk =>
        if (0 <=? b) && (0 <=? i) && (i <? Z.of_nat (length (data blk)))
        then Done (tt, set_blocks
                     (<[Z.to_nat b := set_data (<[Z.to_nat i := t]> (data blk)) blk]>
                        (blocks q)) q)
        else Undefined
    | None => Undefined
    end.

Definition load_phead : M Field := fun q => Done (phead q, q).
Definition load_chead : M Field := fun q => Done (chead q, q).
Definition store_phead (f : Field) : M unit :=
  fun q => Done (tt, MkQueue (blocks q) f (chead q)).
Definition store_chead (f : Field) : M unit :=
  fun q => Done (tt, MkQueue (blocks q) (phead q) f).

(** The tail shared by [advance_phead] and [advance_chead], on the local
    copy [h] of the head:
    [h + 1; if (h.index >= NE) { h.index = h.index % NE; h.version += 1; }].
    The remainder is undefined when [NE] is zero. *)
Definition head_next (h : Field) : M Field :=
  let h1 := Field_add h 1 in
  if NE <=? index h1
  then if NE =? 0
       then fun _ => Undefined
       else ret (MkField ((version h1 + 1) mod 2 ^ VERSION_BITS)
                         ((index h1 mod NE) mod 2 ^ INDEX_BITS))
  else ret h1.

(** ** The constructor *)

Definition Block_init (idx : Z) : Block :=
  let f := Field_ctor 0 idx in
  MkBlock f f f f (replicate (Z.to_nat NE) T_junk).

Definition Queue_new : Queue :=
  MkQueue (match Z.to_nat B with
           | O => []
           | S k => Block_init 0 :: replicate k (Block_init NE)
           end)
          (Field_ctor 0 0) (Field_ctor 0 0).

(** ** Producer path *)

Definition allocate_entry (b : Z) : M (RetStatus * Z) :=
  a <- load b Alloc ;;
  if NE <=? index a then ret (BLOCK_DONE, -1)
  else
    old_alloc <- load b Alloc ;;
    let old := index old_alloc in
    store b Alloc (Field_add old_alloc 1) ;;;
    if NE <=? old then ret (BLOCK_DONE, -1)
    else ret (SUCCESS, old).

Definition commit_entry (b : Z) (idx : Z) (t : T) : M unit :=
  store_data b idx t ;;;
  c <- load b Comm ;;
  store b Comm (Field_add c 1).

Definition advance_phead (ph : Field) : M RetStatus :=
  let nb := (index ph + 1) mod B in
  c <- load nb Cons ;;
  if (version c <? version ph)
     || ((version c =? version ph) && negb (index c =? NE)) then
    r <- load nb Resv ;;
    if index r =? index c then ret NO_ENTRY else ret NOT_AVAILABLE
  else
    let f := Field_ctor (version ph + 1) 0 in
    a <- load nb Alloc ;;
    (if version f >? version a then store nb Alloc f else ret tt) ;;;
    co <- load nb Comm ;;
    (if version f >? version co then store nb Comm f else ret tt) ;;;
    ph' <- head_next ph ;;
    store_phead ph' ;;;
    ret SUCCESS.

Fixpoint enqueue (fuel : nat) (t : T) : M bool :=
  match fuel with
  | O => no_fuel
  | S fuel' =>
      ph <- load_phead ;;
      let b := index ph in
      retval <- allocate_entry b ;;
      match fst retval with
      | SUCCESS => commit_entry b (snd retval) t ;;; ret true
      | _ =>
          r <- advance_phead ph ;;
          match r with
          | SUCCESS => enqueue fuel' t
          | _ => ret false
          end
      end
  end.

(** ** Consumer path *)

Fixpoint reserve_entry (fuel : nat) (b : Z) : M (RetStatus * Field) :=
  match fuel with
  | O => no_fuel
  | S fuel' =>
      r <- load b Resv ;;
      if index r <? NE then
        c <- load b Comm ;;
        if index r =? index c then ret (NO_ENTRY, r)
        else
          in_flight <- (if negb (index c =? NE)
                        then a <- load b Alloc ;;
                             ret (negb (index a =? index c))
                        else ret false) ;;
          if (in_flight : bool) then ret (NOT_AVAILABLE, r)
          else
            res <- load b Resv ;;
            let max := Z.max (index res) (index r + 1) in
            let newresv := Field_ctor (version r) max in
            oldres <- load b Resv ;;
            store b Resv newresv ;;;
            if index oldres =? index r then ret (SUCCESS, r)
            else reserve_entry fuel' b
      else ret (BLOCK_DONE, r)
  end.

Definition consume_entry (b : Z) (f : Field) : M T :=
  x <- load_data b (index f) ;;
  store_data b (index f) T_zero ;;;
  c <- load b Cons ;;
  store b Cons (Field_add c 1) ;;;
  ret x.

Definition advance_chead (ch : Field) (vsn : Z) : M bool :=
  let nb := (index ch + 1) mod B in
  c <- load nb Comm ;;
  if negb (version c =? version ch + 1) then ret false
  else
    let f := Field_ctor (version ch + 1) 0 in
    cs <- load nb Cons ;;
    (if version f >? version cs then store nb Cons f else ret tt) ;;;
    rs <- load nb Resv ;;
    (if version f >? version rs then store nb Resv f else ret tt) ;;;
    ch' <- head_next ch ;;
    store_chead ch' ;;;
    ret true.

(** [dequeue(T& t)]: [Some x] stands for [true] with [t = x], [None] for
    [false] with [t] left alone. *)
Fixpoint dequeue (fuel : nat) : M (option T) :=
  match fuel with
  | O => no_fuel
  | S fuel' =>
      ch <- load_chead ;;
      let b := index ch in
      retval <- reserve_entry fuel b ;;
      match fst retval with
      | SUCCESS => t <- consume_entry b (snd retval) ;; ret (Some t)
      | NO_ENTRY => ret None
      | NOT_AVAILABLE => ret None
      | BLOCK_DONE =>
          ok <- advance_chead ch (version (snd retval)) ;;
          if (ok : bool) then dequeue fuel' else ret None
      end
  end.

(** ** Executions: sequences of complete calls *)

Inductive op : Type := Enq (t : T) | Deq.

Inductive event : Type :=
| EnqRet (t : T) (ok : bool)
| DeqRet (r : option T).

Definition call (fuel : nat) (o : op) : M event :=
  match o with
  | Enq t => ok <- enqueue fuel t ;; ret (EnqRet t ok)
  | Deq => r <- dequeue fuel ;; ret (DeqRet r)
  end.

Fixpoint run (fuel : nat) (ops : list op) : M (list event) :=
  match ops with
  | [] => ret []
  | o :: ops' =>
      e <- call fuel o ;;
      es <- run fuel ops' ;;
      ret (e :: es)
  end.

(** Values accepted by [enqueue], and values handed out by [dequeue]. *)
Fixpoint accepted (es : list event) : list T :=
  match es with
  | [] => []
  | EnqRet t true :: es' => t :: accepted es'
  | _ :: es' => accepted es'
  end.

Fixpoint delivered (es : list event) : list T :=
  match es with
  | [] => []
  | DeqRet (Some t) :: es' => t :: delivered es'
  | _ :: es' => delivered es'
  end.

(** ** The debugging printer

    [printData] writes to [std::cout]; the embedding returns what is
    written, piece by piece. *)

Inductive token : Type :=
| Str (s : String.string)
| Num (n : Z)
| Val (t : T)
| Endl.

(** [for (j = ...; j < NE; j++) std::cout << blocks[i].data[j] << " ";]
    with [n] iterations left. *)
Fixpoint print_slots (i j : Z) (n : nat) : M (list token) :=
  match n with
  | O => ret []
  | S n' =>
      x <- load_data i j ;;
      out <- print_slots i (j + 1) n' ;;
      ret (Val x :: Str " "%string :: out)
  end.

(** The body of the outer loop, for block [i]. *)
Definition print_block (i : Z) : M (list token) :=
  a <- load i Alloc ;;
  c <- load i Comm ;;
  slots <- print_slots i 0 (Z.to_nat NE) ;;
  ret ([Str "a.index: "%string; Num (index a); Endl;
        Str "c.index: "%string; Num (index c); Endl;
        Str "block "%string; Num (i + 1); Str ": "%string] ++ slots ++ [Endl]).

(** [for (i = ...; i < B; i++) ...] with [n] iterations left. *)
Fixpoint print_blocks (i : Z) (n : nat) : M (list token) :=
  match n with
  | O => ret []
  | S n' =>
      out <- print_block i ;;
      rest <- print_blocks (i + 1) n' ;;
      ret (out ++ rest)
  end.

Definition printData : M (list token) := print_blocks 0 (Z.to_nat B).

(** What [printData] shows of block number [i] of the ring. *)
Definition shown (i : nat) (blk : Block) : list token :=
  [Str "a.index: "%string; Num (index (alloc blk)); Endl;
   Str "c.index: "%string; Num (index (comm blk)); Endl;
   Str "block "%string; Num (Z.of_nat i + 1); Str ": "%string]
  ++ flat_map (fun x => [Val x; Str " "%string]) (data blk) ++ [Endl].

(** ** The driver ([main.cpp])

    The two thread bodies, each run on its own. *)

(** [while(!q.enqueue(x));] *)
Fixpoint spin_enqueue (fuel : nat) (x : T) : M unit :=
  match fuel with
  | O => no_fuel
  | S fuel' =>
      ok <- enqueue fuel x ;;
      if (ok : bool) then ret tt else spin_enqueue fuel' x
  end.

(** [writer]: [n] times [while(!q.enqueue(x));]. *)
Fixpoint writer (fuel : nat) (n : nat) (x : T) : M unit :=
  match n with
  | O => ret tt
  | S n' => spin_enqueue fuel x ;;; writer fuel n' x
  end.

(** [while(!q.dequeue(buf));] *)
Fixpoint spin_dequeue (fuel : nat) : M T :=
  match fuel with
  | O => no_fuel
  | S fuel' =>
      r <- dequeue fuel ;;
      match r with
      | Some buf => ret buf
      | None => spin_dequeue fuel'
      end
  end.

Section Reader.

(** The payload of the driver is [uint64_t]; [T_differs buf i] stands for
    its test [buf != i]. *)
Variable T_differs : T -> Z -> bool.

(** [reader], from iteration [i] with [n] iterations left:
    [while(!q.dequeue(buf)); if (buf != i) abort();].  The result is
    [true] when the loop runs to its end and [false] on [abort()]. *)
Fixpoint reader (fuel : nat) (n : nat) (i : Z) : M bool :=
  match n with
  | O => ret true
  | S n' =>
      buf <- spin_dequeue fuel ;;
      if T_differs buf i then ret false else reader fuel n' (i + 1)
  end.

(** The values [reader] accepts from iteration [i] on: [i], [i + 1], ... *)
Fixpoint expects (i : Z) (xs : list T) : bool :=
  match xs with
  | [] => true
  | x :: xs' => negb (T_differs x i) && expects (i + 1) xs'
  end.

End Reader.

(** ** Auxiliary notions used in the statements *)

(** Replacing one block of the ring. *)
Definition put_block (i : nat) (blk : Block) (q : Queue) : Queue :=
  set_blocks (<[i := blk]> (blocks q)) q.

(** The "atomic max" of the source: [a] is replaced by [f] only when the
    version of [f] is strictly larger. *)
Definition raise (f a : Field) : Field :=
  if version f >? version a then f else a.

(** What [head_next] computes when [NE] is not zero. *)
Definition head_step (h : Field) : Field :=
  let h1 := Field_add h 1 in
  if NE <=? index h1
  then MkField ((version h1 + 1) mod 2 ^ VERSION_BITS)
               ((index h1 mod NE) mod 2 ^ INDEX_BITS)
  else h1.

Definition set_phead (f : Field) (q : Queue) : Queue :=
  MkQueue (blocks q) f (chead q).

Definition set_chead (f : Field) (q : Queue) : Queue :=
  MkQueue (blocks q) (phead q) f.

(** The block [advance_phead] leaves behind when it succeeds. *)
Definition stamp_producer (ph : Field) (nb : Block) : Block :=
  let f := Field_ctor (version ph + 1) 0 in
  MkBlock (raise f (alloc nb)) (raise f (comm nb)) (resv nb) (cons nb) (data nb).

(** The block [advance_chead] leaves behind when it succeeds. *)
Definition stamp_consumer (ch : Field) (nb : Block) : Block :=
  let f := Field_ctor (version ch + 1) 0 in
  MkBlock (alloc nb) (comm nb) (raise f (resv nb)) (raise f (cons nb)) (data nb).

(** The test of [advance_phead]: the next block is not yet reusable. *)
Definition not_reusable (c ph : Field) : Prop :=
  version c < version ph \/ (version c = version ph /\ index c <> NE).

(** The order on fields: generation first, then position. *)
Definition Field_le (f g : Field) : Prop :=
  version f < version g \/ (version f = version g /\ index f <= index g).

(** The position of a cursor for generation [g]: a cursor that still
    carries an older generation has not started on [g]. *)
Definition pos_in (g : Z) (f : Field) : Z :=
  if version f =? g then index f else 0.

(** What holds of every block between two calls. *)
Definition block_inv (blk : Block) : Prop :=
  Field_wf (alloc blk) /\ Field_wf (cons blk)
  /\ comm blk = alloc blk /\ resv blk = cons blk
  /\ index (alloc blk) <= NE /\ index (cons blk) <= NE
  /\ Field_le (cons blk) (alloc blk)
  /\ length (data blk) = Z.to_nat NE.

Definition queue_inv (q : Queue) : Prop :=
  forall i blk, blocks q !! i = Some blk -> block_inv blk.

(** The ring keeps its size and no cursor of any block moves backwards
    from [q] to [q']. *)
Definition queue_le (q q' : Queue) : Prop :=
  length (blocks q') = length (blocks q)
  /\ forall i blk, blocks q !! i = Some blk ->
       exists blk', blocks q' !! i = Some blk'
         /\ forall c, Field_le (get_cursor c blk) (get_cursor c blk').

(** *** The abstract view of a square queue

    For a queue with as many blocks as slots per block, the state between
    two calls is described by where the producer and the consumer stand:
    lap, block and position in the block, and by the list of all values
    accepted so far. *)

Record Ghost : Type := MkGhost {
  pv : Z; pi : Z; pk : Z;
  cv : Z; ci : Z; ck : Z;
  hist : list T
}.

(** The generation block [j] carries in lap [v]. *)
Definition gen (v j : Z) : Z := if j =? 0 then v else v + 1.

(** The producer cursors and the consumer cursors of block [j]. *)
Definition PF (g : Ghost) (j : Z) : Field :=
  if j <? pi g then MkField (gen (pv g) j) NE
  else if j =? pi g then MkField (gen (pv g) j) (pk g)
  else MkField (pv g) NE.

Definition CF (g : Ghost) (j : Z) : Field :=
  if j <? ci g then MkField (gen (cv g) j) NE
  else if j =? ci g then MkField (gen (cv g) j) (ck g)
  else MkField (cv g) NE.

Definition lex_lt (a b c a' b' c' : Z) : Prop :=
  a < a' \/ (a = a' /\ (b < b' \/ (b = b' /\ c < c'))).

Definition lex_le (a b c a' b' c' : Z) : Prop :=
  a < a' \/ (a = a' /\ (b < b' \/ (b = b' /\ c <= c'))).

(** Slot [s] of block [j] holds a value of lap [v] that was accepted and
    not yet delivered. *)
Definition live (g : Ghost) (v j s : Z) : Prop :=
  lex_le (cv g) (ci g) (ck g) v j s /\ lex_lt v j s (pv g) (pi g) (pk g).

(** The number of values accepted before slot [s] of block [j] is written
    in lap [v]. *)
Definition lin (v j s : Z) : Z := (v * B + j) * NE + s.

Definition block_rep (g : Ghost) (j : Z) (blk : Block) : Prop :=
  alloc blk = PF g j /\ comm blk = PF g j
  /\ resv blk = CF g j /\ cons blk = CF g j
  /\ length (data blk) = Z.to_nat NE
  /\ forall v s, 0 <= s < NE -> live g v j s ->
       exists x, data blk !! Z.to_nat s = Some x
                 /\ hist g !! Z.to_nat (lin v j s) = Some x.

(** The consumer is behind the producer, by less than one lap. *)
Definition coords_ok (g : Ghost) : Prop :=
  0 <= pi g < B /\ 0 <= ci g < B /\ 0 <= pk g <= NE /\ 0 <= ck g <= NE
  /\ 0 <= cv g
  /\ ((pv g = cv g /\ (ci g < pi g \/ (ci g = pi g /\ ck g <= pk g)))
      \/ (pv g = cv g + 1 /\ (pi g < ci g \/ (pi g = ci g /\ ck g = NE)))).

Definition Rep0 (g : Ghost) (q : Queue) : Prop :=
  phead q = MkField (pv g) (pi g) /\ chead q = MkField (cv g) (ci g)
  /\ coords_ok g
  /\ Z.of_nat (length (hist g)) = lin (pv g) (pi g) (pk g)
  /\ forall j, 0 <= j < B ->
       exists blk, blocks q !! Z.to_nat j = Some blk /\ block_rep g j blk.

(** Between two calls the producer stands on an empty block only at the
    very start. *)
Definition Rep (g : Ghost) (q : Queue) : Prop :=
  Rep0 g q /\ (pk g = 0 -> pv g = 0 /\ pi g = 0).

(** The head position that follows lap [v], block [p]. *)
Definition next_pos (v p v' p' : Z) : Prop :=
  (p + 1 < B /\ v' = v /\ p' = p + 1) \/ (p + 1 = B /\ v' = v + 1 /\ p' = 0).

(** The same, with what is needed to follow a queue that has fewer blocks
    than slots per block: it never leaves its first lap. *)
Definition RepT (g : Ghost) (q : Queue) : Prop :=
  Rep g q /\ queue_inv q /\ length (blocks q) = Z.to_nat B
  /\ (NE <> B -> pv g = 0).

(** *** The abstract view of a queue with more blocks than slots per block

    The head wraps after [NE] blocks, while the block it stamps is the next
    one in the ring.  After the first lap the head stands on block 0, which
    is full and is never stamped again; the blocks 1 to [NE - 1] are used a
    second time, and then the producer stops for good. *)

(** The cursors of block [j], for the side that stands at slot [k] of block
    [i] in lap [v]. *)
Definition FW (v i k j : Z) : Field :=
  if v =? 0 then
    if j <? i then MkField (gen 0 j) NE
    else if j =? i then MkField (gen 0 j) k
    else MkField 0 NE
  else if j =? 0 then MkField 0 NE
  else if j <? NE then
    if j <? i then MkField 2 NE
    else if j =? i then MkField 2 k
    else MkField 1 NE
  else if j =? NE then MkField 1 0
  else MkField 0 NE.

Definition live_w (g : Ghost) (v j s : Z) : Prop :=
  live g v j s /\ 0 <= j < NE /\ (v = 0 \/ (v = 1 /\ 1 <= j)).

Definition lin_w (v j s : Z) : Z := (v * (NE - 1) + j) * NE + s.

Definition block_rep_w (g : Ghost) (j : Z) (blk : Block) : Prop :=
  alloc blk = FW (pv g) (pi g) (pk g) j /\ comm blk = FW (pv g) (pi g) (pk g) j
  /\ resv blk = FW (cv g) (ci g) (ck g) j /\ cons blk = FW (cv g) (ci g) (ck g) j
  /\ length (data blk) = Z.to_nat NE
  /\ forall v s, 0 <= s < NE -> live_w g v j s ->
       exists x, data blk !! Z.to_nat s = Some x
                 /\ hist g !! Z.to_nat (lin_w v j s) = Some x.

Definition coords_w (g : Ghost) : Prop :=
  0 <= pi g < NE /\ 0 <= ci g < NE /\ 0 <= pk g <= NE /\ 0 <= ck g <= NE
  /\ 0 <= cv g /\ cv g <= pv g /\ pv g <= 1
  /\ (pv g = 1 -> pi g = 0 -> pk g = NE)
  /\ (cv g = 1 -> ci g = 0 -> ck g = NE)
  /\ ((pv g = cv g /\ (ci g < pi g \/ (ci g = pi g /\ ck g <= pk g)))
      \/ (pv g = cv g + 1
          /\ (pi g = 0 \/ pi g < ci g \/ (pi g = ci g /\ ck g = NE)))).

Definition RepW (g : Ghost) (q : Queue) : Prop :=
  phead q = MkField (pv g) (pi g) /\ chead q = MkField (cv g) (ci g)
  /\ coords_w g
  /\ Z.of_nat (length (hist g)) = lin_w (pv g) (pi g) (pk g)
  /\ forall j, 0 <= j < B ->
       exists blk, blocks q !! Z.to_nat j = Some blk /\ block_rep_w g j blk.

(** The head position that follows lap [v], block [p], and the slot the
    side stands at when it arrives there. *)
Definition next_w (v p v' p' k' : Z) : Prop :=
  (p + 1 < NE /\ v' = v /\ p' = p + 1 /\ k' = 0)
  \/ (p + 1 = NE /\ v' = v + 1 /\ p' = 0 /\ k' = NE).

Definition delivered_w (g : Ghost) : nat :=
  Z.to_nat (lin_w (cv g) (ci g) (ck g)).

(** What a call of [enqueue] with [n] turns does to a queue whose accepted
    values are [h], of which [d] are delivered. *)
Definition enq_result (h : list T) (d : nat) (t : T) (q : Queue) (n : nat) : Prop :=
  exists (r : bool) q' g',
    (forall fuel, enqueue (n + fuel) t q = Done (r, q'))
    /\ RepW g' q' /\ delivered_w g' = d
    /\ hist g' = h ++ (if r then [t] else []).

Definition deq_result (h : list T) (d : nat) (q : Queue) (n : nat) : Prop :=
  exists r q' g',
    (forall fuel, dequeue (n + fuel) q = Done (r, q'))
    /\ RepW g' q' /\ hist g' = h
    /\ match r with
       | Some x => h !! d = Some x /\ delivered_w g' = S d
       | None => d = length h /\ delivered_w g' = d
       end.

(** The number of values delivered so far. *)
Definition delivered_count (g : Ghost) : nat :=
  Z.to_nat (lin (cv g) (ci g) (ck g)).

Definition ghost_new : Ghost := MkGhost 0 0 0 0 0 0 [].

(** The state a fresh queue is in after the calls [ops], when they all
    complete. *)
Definition state_after (fuel : nat) (ops : list op) : Queue :=
  match run fuel ops Queue_new with
  | Done (_, q) => q
  | _ => Queue_new
  end.

(** The states a fresh queue reaches by complete calls. *)
Definition reachable (q : Queue) : Prop :=
  exists fuel ops es, run fuel ops Queue_new = Done (es, q).

(** ** Basic facts about fields and the monad *)

Lemma two_pow_index : 2 ^ INDEX_BITS = 1048576.
Proof. reflexivity. Qed.

Lemma two_pow_version : 2 ^ VERSION_BITS = 17592186044416.
Proof. reflexivity. Qed.

Lemma NE_pos : valid_params -> 0 < NE.
Proof.
  unfold valid_params, NE. intros (_ & Hm & HB & HN).
  apply Z.div_str_pos. split; [lia|].
  destruct (Z.le_gt_cases B N) as [|Hlt]; [done|].
  rewrite Z.mod_small in Hm by lia. lia.
Qed.

Lemma Field_ctor_small v i :
  0 <= v < 2 ^ VERSION_BITS -> 0 <= i < 2 ^ INDEX_BITS ->
  Field_ctor v i = MkField v i.
Proof. intros. unfold Field_ctor. by rewrite !Z.mod_small. Qed.

Lemma Field_add_small f n :
  0 <= index f + n < 2 ^ INDEX_BITS ->
  Field_add f n = MkField (version f) (index f + n).
Proof. intros. unfold Field_add. by rewrite Z.mod_small. Qed.

Lemma blocks_put_block i blk q :
  blocks (put_block i blk q) = <[i := blk]> (blocks q).
Proof. reflexivity. Qed.

Lemma lookup_put_block_eq q i (blk blk' : Block) :
  blocks q !! i = Some blk -> blocks (put_block i blk' q) !! i = Some blk'.
Proof.
  intros Hb. simpl. apply list_lookup_insert_eq. by eapply lookup_lt_Some.
Qed.

Lemma lookup_put_block_ne q i j (blk' : Block) :
  i <> j -> blocks (put_block i blk' q) !! j = blocks q !! j.
Proof. intros. simpl. by apply list_lookup_insert_ne. Qed.

Lemma put_block_twice q i (b1 b2 : Block) :
  put_block i b2 (put_block i b1 q) = put_block i b2 q.
Proof. unfold put_block, set_blocks. simpl. by rewrite list_insert_insert_eq. Qed.

Lemma put_block_same q i (blk : Block) :
  blocks q !! i = Some blk -> put_block i blk q = q.
Proof.
  intros Hb. destruct q as [bs p c]. unfold put_block, set_blocks. simpl in *.
  by rewrite list_insert_id.
Qed.

Lemma store_eq q b c f blk :
  blocks q !! Z.to_nat b = Some blk -> 0 <= b ->
  store b c f q = Done (tt, put_block (Z.to_nat b) (set_cursor c f blk) q).
Proof.
  intros Hb Hge. unfold store. rewrite Hb.
  by destruct (Z.leb_spec 0 b); [|lia].
Qed.

Lemma bind_ret {A C} (a : A) (k : A -> M C) q : bind (ret a) k q = k a q.
Proof. reflexivity. Qed.

Lemma bind_load q b c blk {C} (k : Field -> M C) :
  blocks q !! Z.to_nat b = Some blk -> 0 <= b ->
  bind (load b c) k q = k (get_cursor c blk) q.
Proof.
  intros Hb Hge. unfold bind, load. rewrite Hb.
  by destruct (Z.leb_spec 0 b); [|lia].
Qed.

Lemma bind_store q b c f blk {C} (k : unit -> M C) :
  blocks q !! Z.to_nat b = Some blk -> 0 <= b ->
  bind (store b c f) k q = k tt (put_block (Z.to_nat b) (set_cursor c f blk) q).
Proof.
  intros Hb Hge. unfold bind, store. rewrite Hb.
  by destruct (Z.leb_spec 0 b); [|lia].
Qed.

Lemma bind_raise q b c f blk {C} (k : unit -> M C) :
  blocks q !! Z.to_nat b = Some blk -> 0 <= b ->
  bind (if version f >? version (get_cursor c blk) then store b c f else ret tt) k q
  = k tt (put_block (Z.to_nat b) (set_cursor c (raise f (get_cursor c blk)) blk) q).
Proof.
  intros Hb Hge. unfold raise. destruct (version f >? version (get_cursor c blk)).
  - by apply bind_store.
  - rewrite bind_ret. f_equal. symmetry. apply put_block_same.
    rewrite Hb. f_equal. by destruct blk, c.
Qed.

Lemma bind_load_data q b i blk x {C} (k : T -> M C) :
  blocks q !! Z.to_nat b = Some blk -> data blk !! Z.to_nat i = Some x ->
  0 <= b -> 0 <= i ->
  bind (load_data b i) k q = k x q.
Proof.
  intros Hb Hx Hge Hi. unfold bind, load_data. rewrite Hb, Hx.
  destruct (Z.leb_spec 0 b); [|lia]. by destruct (Z.leb_spec 0 i); [|lia].
Qed.

Lemma bind_store_data q b i t blk {C} (k : unit -> M C) :
  blocks q !! Z.to_nat b = Some blk -> 0 <= b ->
  0 <= i < Z.of_nat (length (data blk)) ->
  bind (store_data b i t) k q
  = k tt (put_block (Z.to_nat b) (set_data (<[Z.to_nat i := t]> (data blk)) blk) q).
Proof.
  intros Hb Hge Hi. unfold bind, store_data. rewrite Hb.
  destruct (Z.leb_spec 0 b); [|lia]. destruct (Z.leb_spec 0 i); [|lia].
  by destruct (Z.ltb_spec i (Z.of_nat (length (data blk)))); [|lia].
Qed.

Lemma bind_load_fail q b c {C} (k : Field -> M C) :
  blocks q !! Z.to_nat b = None \/ b < 0 ->
  bind (load b c) k q = Undefined.
Proof.
  intros H. unfold bind, load. destruct (blocks q !! Z.to_nat b); [|done].
  destruct H as [|H]; [done|]. by destruct (Z.leb_spec 0 b); [lia|].
Qed.

(** ** The operations as functions of the block they work on *)

Lemma allocate_entry_eq q b blk :
  blocks q !! Z.to_nat b = Some blk -> 0 <= b ->
  allocate_entry b q =
  if NE <=? index (alloc blk) then Done ((BLOCK_DONE, -1), q)
  else Done ((SUCCESS, index (alloc blk)),
             put_block (Z.to_nat b)
               (set_cursor Alloc (Field_add (alloc blk) 1) blk) q).
Proof.
  intros Hb Hge. unfold allocate_entry.
  rewrite (bind_load _ _ _ _ _ Hb Hge). simpl.
  destruct (NE <=? index (alloc blk)) eqn:E; [done|].
  rewrite (bind_load _ _ _ _ _ Hb Hge). simpl.
  rewrite (bind_store _ _ _ _ _ _ Hb Hge). by rewrite E.
Qed.

Lemma commit_entry_eq q b idx t blk :
  blocks q !! Z.to_nat b = Some blk -> 0 <= b ->
  0 <= idx < Z.of_nat (length (data blk)) ->
  commit_entry b idx t q =
  Done (tt, put_block (Z.to_nat b)
              (MkBlock (alloc blk) (Field_add (comm blk) 1) (resv blk) (cons blk)
                       (<[Z.to_nat idx := t]> (data blk))) q).
Proof.
  intros Hb Hge Hi. unfold commit_entry.
  rewrite (bind_store_data _ _ _ _ _ _ Hb Hge Hi).
  erewrite bind_load; [|by eapply lookup_put_block_eq|done].
  erewrite store_eq; [|by eapply lookup_put_block_eq|done].
  by rewrite put_block_twice.
Qed.

Lemma head_next_eq h q : NE <> 0 -> head_next h q = Done (head_step h, q).
Proof.
  intros HNE. unfold head_next, head_step. simpl.
  destruct (NE <=? _); [|done].
  by destruct (Z.eqb_spec NE 0).
Qed.

Lemma not_reusable_test c ph :
  ((version c <? version ph)
   || ((version c =? version ph) && negb (index c =? NE))) = true
  <-> not_reusable c ph.
Proof.
  unfold not_reusable.
  destruct (Z.ltb_spec (version c) (version ph)),
           (Z.eqb_spec (version c) (version ph)),
           (Z.eqb_spec (index c) NE); simpl; intuition (try lia; try done).
Qed.

Lemma advance_phead_eq q ph nb :
  NE <> 0 -> 0 < B ->
  blocks q !! Z.to_nat ((index ph + 1) mod B) = Some nb ->
  advance_phead ph q =
  if (version (cons nb) <? version ph)
     || ((version (cons nb) =? version ph) && negb (index (cons nb) =? NE))
  then Done (if index (resv nb) =? index (cons nb) then NO_ENTRY
             else NOT_AVAILABLE, q)
  else Done (SUCCESS,
             set_phead (head_step ph)
               (put_block (Z.to_nat ((index ph + 1) mod B))
                  (stamp_producer ph nb) q)).
Proof.
  intros HNE HB Hnb. unfold advance_phead. cbv zeta.
  assert (0 <= (index ph + 1) mod B) as Hge by (apply Z.mod_pos_bound; lia).
  set (nbi := (index ph + 1) mod B) in *.
  rewrite (bind_load _ _ _ _ _ Hnb Hge). cbv beta.
  change (get_cursor Cons nb) with (cons nb).
  destruct (_ || _).
  - rewrite (bind_load _ _ _ _ _ Hnb Hge). simpl. by destruct (_ =? _).
  - rewrite (bind_load _ _ _ _ _ Hnb Hge). cbv beta.
    rewrite (bind_raise _ _ Alloc _ _ _ Hnb Hge).
    erewrite bind_load; [|by eapply lookup_put_block_eq|done]. cbv beta.
    erewrite (bind_raise _ _ Comm); [|by eapply lookup_put_block_eq|done].
    rewrite put_block_twice. unfold bind at 1. rewrite head_next_eq by done.
    reflexivity.
Qed.

Lemma advance_chead_eq q ch vsn nb :
  NE <> 0 -> 0 < B ->
  blocks q !! Z.to_nat ((index ch + 1) mod B) = Some nb ->
  advance_chead ch vsn q =
  if version (comm nb) =? version ch + 1
  then Done (true,
             set_chead (head_step ch)
               (put_block (Z.to_nat ((index ch + 1) mod B))
                  (stamp_consumer ch nb) q))
  else Done (false, q).
Proof.
  intros HNE HB Hnb. unfold advance_chead. cbv zeta.
  assert (0 <= (index ch + 1) mod B) as Hge by (apply Z.mod_pos_bound; lia).
  set (nbi := (index ch + 1) mod B) in *.
  rewrite (bind_load _ _ _ _ _ Hnb Hge). cbv beta.
  change (get_cursor Comm nb) with (comm nb).
  destruct (_ =? _); cbv beta iota delta [negb]; [|done].
  rewrite (bind_load _ _ _ _ _ Hnb Hge). cbv beta.
  rewrite (bind_raise _ _ Cons _ _ _ Hnb Hge).
  erewrite bind_load; [|by eapply lookup_put_block_eq|done]. cbv beta.
  erewrite (bind_raise _ _ Resv); [|by eapply lookup_put_block_eq|done].
  rewrite put_block_twice. unfold bind at 1. rewrite head_next_eq by done.
  reflexivity.
Qed.

(** The reserve step never takes its retry branch: the cursor it reloads is
    the one it has just read. *)
Lemma reserve_entry_eq q fuel b blk :
  blocks q !! Z.to_nat b = Some blk -> 0 <= b ->
  reserve_entry (S fuel) b q =
  let r := resv blk in
  if index r <? NE then
    if index r =? index (comm blk) then Done ((NO_ENTRY, r), q)
    else if negb (index (comm blk) =? NE)
            && negb (index (alloc blk) =? index (comm blk))
    then Done ((NOT_AVAILABLE, r), q)
    else Done ((SUCCESS, r),
               put_block (Z.to_nat b)
                 (set_cursor Resv
                    (Field_ctor (version r) (Z.max (index r) (index r + 1)))
                    blk) q)
  else Done ((BLOCK_DONE, r), q).
Proof.
  intros Hb Hge. simpl.
  rewrite (bind_load _ _ _ _ _ Hb Hge). simpl.
  destruct (_ <? _); [|done].
  rewrite (bind_load _ _ _ _ _ Hb Hge). simpl.
  destruct (index (resv blk) =? index (comm blk)) eqn:E1; [done|].
  unfold bind at 1.
  destruct (negb (index (comm blk) =? NE)) eqn:E2; simpl.
  - rewrite (bind_load _ _ _ _ _ Hb Hge). simpl.
    destruct (negb (index (alloc blk) =? index (comm blk))); simpl; [done|].
    rewrite (bind_load _ _ _ _ _ Hb Hge). simpl.
    rewrite (bind_load _ _ _ _ _ Hb Hge). simpl.
    rewrite (bind_store _ _ _ _ _ _ Hb Hge). by rewrite Z.eqb_refl.
  - rewrite (bind_load _ _ _ _ _ Hb Hge). simpl.
    rewrite (bind_load _ _ _ _ _ Hb Hge). simpl.
    rewrite (bind_store _ _ _ _ _ _ Hb Hge). by rewrite Z.eqb_refl.
Qed.

(** One turn is all [reserve_entry] ever takes. *)
Lemma reserve_entry_one_turn q fuel b :
  reserve_entry (S fuel) b q = reserve_entry 1 b q
  /\ reserve_entry 1 b q <> OutOfFuel.
Proof.
  destruct (blocks q !! Z.to_nat b) as [blk|] eqn:Hb.
  - destruct (Z.le_gt_cases 0 b) as [Hge|Hlt].
    + rewrite !(reserve_entry_eq q _ b blk Hb Hge). split; [done|].
      cbv zeta. destruct (_ <? _); [|done]. destruct (_ =? _); [done|].
      by destruct (_ && _).
    + assert (forall k, reserve_entry (S k) b q = Undefined) as Hu.
      { intros k. cbn [reserve_entry]. apply bind_load_fail. by right. }
      by rewrite !Hu.
  - assert (forall k, reserve_entry (S k) b q = Undefined) as Hu.
    { intros k. cbn [reserve_entry]. apply bind_load_fail. by left. }
    by rewrite !Hu.
Qed.

Lemma consume_entry_eq q b f blk x :
  blocks q !! Z.to_nat b = Some blk -> 0 <= b -> 0 <= index f ->
  data blk !! Z.to_nat (index f) = Some x ->
  consume_entry b f q =
  Done (x, put_block (Z.to_nat b)
             (MkBlock (alloc blk) (comm blk) (resv blk) (Field_add (cons blk) 1)
                      (<[Z.to_nat (index f) := T_zero]> (data blk))) q).
Proof.
  intros Hb Hge Hi Hx. unfold consume_entry.
  rewrite (bind_load_data _ _ _ _ _ _ Hb Hx Hge Hi).
  assert (0 <= index f < Z.of_nat (length (data blk))) as Hlen.
  { apply lookup_lt_Some in Hx. lia. }
  rewrite (bind_store_data _ _ _ _ _ _ Hb Hge Hlen).
  erewrite bind_load; [|by eapply lookup_put_block_eq|done].
  erewrite bind_store; [|by eapply lookup_put_block_eq|done].
  by rewrite put_block_twice.
Qed.

(** One turn of the loop of [enqueue]. *)
Lemma enqueue_room q fuel t blk :
  blocks q !! Z.to_nat (index (phead q)) = Some blk -> 0 <= index (phead q) ->
  0 <= index (alloc blk) < NE -> NE <= Z.of_nat (length (data blk)) ->
  enqueue (S fuel) t q =
  Done (true, put_block (Z.to_nat (index (phead q)))
                (MkBlock (Field_add (alloc blk) 1) (Field_add (comm blk) 1)
                         (resv blk) (cons blk)
                         (<[Z.to_nat (index (alloc blk)) := t]> (data blk))) q).
Proof.
  intros Hb Hge Ha Hlen. simpl. unfold bind at 1. unfold load_phead.
  unfold bind at 1. rewrite (allocate_entry_eq _ _ _ Hb Hge).
  destruct (Z.leb_spec NE (index (alloc blk))); [lia|]. simpl.
  unfold bind. erewrite commit_entry_eq;
    [|by eapply lookup_put_block_eq|done|simpl; lia].
  by rewrite put_block_twice.
Qed.

Lemma enqueue_full q fuel t blk :
  blocks q !! Z.to_nat (index (phead q)) = Some blk -> 0 <= index (phead q) ->
  NE <= index (alloc blk) ->
  enqueue (S fuel) t q =
  match advance_phead (phead q) q with
  | Done (SUCCESS, q') => enqueue fuel t q'
  | Done (_, q') => Done (false, q')
  | Undefined => Undefined
  | OutOfFuel => OutOfFuel
  end.
Proof.
  intros Hb Hge Ha. simpl. unfold bind at 1. unfold load_phead.
  unfold bind at 1. rewrite (allocate_entry_eq _ _ _ Hb Hge).
  destruct (Z.leb_spec NE (index (alloc blk))); [|lia]. simpl.
  unfold bind. destruct (advance_phead (phead q) q) as [[[] q']| |]; done.
Qed.

(** One turn of the loop of [dequeue]. *)
Lemma dequeue_turn q fuel blk :
  blocks q !! Z.to_nat (index (chead q)) = Some blk -> 0 <= index (chead q) ->
  dequeue (S fuel) q =
  let b := index (chead q) in
  let r := resv blk in
  if index r <? NE then
    if index r =? index (comm blk) then Done (None, q)
    else if negb (index (comm blk) =? NE)
            && negb (index (alloc blk) =? index (comm blk))
    then Done (None, q)
    else
      match consume_entry b r
              (put_block (Z.to_nat b)
                 (set_cursor Resv
                    (Field_ctor (version r) (Z.max (index r) (index r + 1)))
                    blk) q)
      with
      | Done (x, q') => Done (Some x, q')
      | Undefined => Undefined
      | OutOfFuel => OutOfFuel
      end
  else
    match advance_chead (chead q) (version r) q with
    | Done (true, q') => dequeue fuel q'
    | Done (false, q') => Done (None, q')
    | Undefined => Undefined
    | OutOfFuel => OutOfFuel
    end.
Proof.
  intros Hb Hge. cbn [dequeue]. unfold bind at 1. unfold load_chead.
  unfold bind at 1. rewrite (reserve_entry_eq _ _ _ _ Hb Hge). cbv zeta.
  destruct (_ <? _).
  - destruct (_ =? _); [done|]. destruct (_ && _); [done|].
    cbn [fst snd]. unfold bind, ret.
    by destruct (consume_entry _ _ _) as [[x q']| |].
  - cbn [fst snd]. unfold bind, ret.
    by destruct (advance_chead _ _ _) as [[[] q']| |].
Qed.

(** ** Block hand-off on the producer side *)

Lemma raise_version_le f a : version a <= version (raise f a).
Proof. unfold raise. destruct (Z.gtb_spec (version f) (version a)); lia. Qed.

(** C4. [advance_phead(ph)] looks at [nb], the block at ring index
    [(ph.index + 1) mod B].  It reports [nb] as not reusable exactly when
    [nb.cons.version < ph.version], or [nb.cons.version == ph.version] and
    [nb.cons.index != NE]; it then returns [NO_ENTRY] when
    [nb.resv.index == nb.cons.index] and [NOT_AVAILABLE] otherwise, changes
    nothing, and [enqueue], which calls it on a full block, returns [false].
    Otherwise it raises [nb.alloc] and [nb.comm] to [(ph.version + 1, 0)],
    leaving alone a cursor whose version is already that large, stores the
    next head and returns [SUCCESS].  The generation is taken not to wrap. *)
Theorem advance_phead_spec (q : Queue) (ph : Field) (nb : Block) :
  valid_params ->
  0 <= version ph -> version ph + 1 < 2 ^ VERSION_BITS ->
  blocks q !! Z.to_nat ((index ph + 1) mod B) = Some nb ->
  let f := MkField (version ph + 1) 0 in
  (not_reusable (cons nb) ph ->
     (index (resv nb) = index (cons nb) ->
        advance_phead ph q = Done (NO_ENTRY, q))
     /\ (index (resv nb) <> index (cons nb) ->
        advance_phead ph q = Done (NOT_AVAILABLE, q))
     /\ (forall fuel t blk,
           ph = phead q -> 0 <= index ph ->
           blocks q !! Z.to_nat (index ph) = Some blk ->
           NE <= index (alloc blk) ->
           enqueue (S fuel) t q = Done (false, q)))
  /\ (~ not_reusable (cons nb) ph ->
     exists q' nb',
       advance_phead ph q = Done (SUCCESS, q')
       /\ blocks q' !! Z.to_nat ((index ph + 1) mod B) = Some nb'
       /\ alloc nb' = raise f (alloc nb) /\ comm nb' = raise f (comm nb)
       /\ version (alloc nb) <= version (alloc nb')
       /\ version (comm nb) <= version (comm nb')
       /\ resv nb' = resv nb /\ cons nb' = cons nb /\ data nb' = data nb
       /\ (forall j, j <> Z.to_nat ((index ph + 1) mod B) ->
             blocks q' !! j = blocks q !! j)
       /\ phead q' = head_step ph /\ chead q' = chead q).
Proof.
  intros Hv Hv0 Hv1 Hnb f.
  pose proof (NE_pos Hv) as HNE. destruct Hv as (_ & _ & HB & _).
  assert (NE <> 0) as HNE0 by lia.
  pose proof (advance_phead_eq q ph nb HNE0 HB Hnb) as Heq.
  pose proof (not_reusable_test (cons nb) ph) as Htest.
  assert (Field_ctor (version ph + 1) 0 = f) as Hf.
  { apply Field_ctor_small; [lia|]. rewrite two_pow_index. lia. }
  destruct (_ || _) eqn:E.
  - split; [intros _|intros Hn; exfalso; apply Hn; by apply Htest].
    split; [|split].
    + intros Hr. rewrite Heq. by destruct (Z.eqb_spec (index (resv nb)) (index (cons nb))).
    + intros Hr. rewrite Heq. by destruct (Z.eqb_spec (index (resv nb)) (index (cons nb))).
    + intros fuel t blk -> Hge Hb Hfull.
      rewrite (enqueue_full _ _ _ _ Hb Hge Hfull), Heq.
      by destruct (_ =? _).
  - split; [intros Hn; apply Htest in Hn; congruence|intros _].
    eexists _, _. split; [exact Heq|].
    split; [by eapply lookup_put_block_eq|].
    unfold stamp_producer. rewrite Hf. simpl.
    repeat split; try apply raise_version_le.
    intros j Hj. by apply list_lookup_insert_ne.
Qed.

(** ** Block hand-off on the consumer side *)

(** X21. [advance_chead(ch)] looks at [nb], the block at ring index
    [(ch.index + 1) mod B], and succeeds exactly when
    [nb.comm.version == ch.version + 1].  On success it raises [nb.cons] and
    [nb.resv] to [(ch.version + 1, 0)], leaving alone a cursor whose version
    is already that large, and returns [true]; the head it stores is
    [ch + 1] with the index reduced modulo [NE], not modulo [B], and the
    version stepped when the index reaches [NE].  When it fails it changes
    nothing, and [dequeue], which calls it on a drained block, returns
    [false]. *)
Theorem advance_chead_spec (q : Queue) (ch : Field) (vsn : Z) (nb : Block) :
  valid_params ->
  Field_wf (comm nb) ->
  blocks q !! Z.to_nat ((index ch + 1) mod B) = Some nb ->
  let f := MkField (version ch + 1) 0 in
  (version (comm nb) = version ch + 1 ->
     exists q' nb',
       advance_chead ch vsn q = Done (true, q')
       /\ blocks q' !! Z.to_nat ((index ch + 1) mod B) = Some nb'
       /\ cons nb' = raise f (cons nb) /\ resv nb' = raise f (resv nb)
       /\ version (cons nb) <= version (cons nb')
       /\ version (resv nb) <= version (resv nb')
       /\ alloc nb' = alloc nb /\ comm nb' = comm nb /\ data nb' = data nb
       /\ (forall j, j <> Z.to_nat ((index ch + 1) mod B) ->
             blocks q' !! j = blocks q !! j)
       /\ chead q' = head_step ch /\ phead q' = phead q)
  /\ (version (comm nb) <> version ch + 1 ->
     advance_chead ch vsn q = Done (false, q)
     /\ (forall fuel blk,
           ch = chead q -> 0 <= index ch ->
           blocks q !! Z.to_nat (index ch) = Some blk ->
           NE <= index (resv blk) ->
           dequeue (S fuel) q = Done (None, q))).
Proof.
  intros Hv Hwf Hnb f.
  pose proof (NE_pos Hv) as HNE. destruct Hv as (_ & _ & HB & _).
  assert (NE <> 0) as HNE0 by lia.
  pose proof (advance_chead_eq q ch vsn nb HNE0 HB Hnb) as Heq.
  destruct (Z.eqb_spec (version (comm nb)) (version ch + 1)) as [E|E].
  - split; [intros _|done].
    assert (Field_ctor (version ch + 1) 0 = f) as Hf.
    { destruct Hwf as [Hw _]. apply Field_ctor_small; [lia|].
      rewrite two_pow_index. lia. }
    eexists _, _. split; [exact Heq|].
    split; [by eapply lookup_put_block_eq|].
    unfold stamp_consumer. rewrite Hf. simpl.
    repeat split; try apply raise_version_le.
    intros j Hj. by apply list_lookup_insert_ne.
  - split; [done|intros _]. split; [done|].
    intros fuel blk -> Hge Hb Hfull.
    rewrite (dequeue_turn _ _ _ Hb Hge). cbv zeta.
    destruct (Z.ltb_spec (index (resv blk)) NE); [lia|].
    rewrite (advance_chead_eq q (chead q) _ nb HNE0 HB Hnb).
    by destruct (Z.eqb_spec (version (comm nb)) (version (chead q) + 1)).
Qed.

(** ** The reserve step *)

(** C6. In the reserve step on block [b] with [r = b.resv], [c = b.comm]
    and [r.index < NE]: the status is [NO_ENTRY] exactly when
    [r.index == c.index], and [NOT_AVAILABLE] exactly when
    [r.index != c.index], [c.index != NE] and [b.alloc.index != c.index].
    Both leave the queue as it was, and [dequeue] answers [false] in its
    first turn: one unit of fuel is enough. *)
Theorem reserve_entry_status (q : Queue) (fuel : nat) (b : Z) (blk : Block) :
  blocks q !! Z.to_nat b = Some blk -> 0 <= b ->
  index (resv blk) < NE ->
  exists st q',
    reserve_entry (S fuel) b q = Done ((st, resv blk), q')
    /\ (st = NO_ENTRY <-> index (resv blk) = index (comm blk))
    /\ (st = NOT_AVAILABLE <->
          index (resv blk) <> index (comm blk)
          /\ index (comm blk) <> NE
          /\ index (alloc blk) <> index (comm blk))
    /\ (st = NO_ENTRY \/ st = NOT_AVAILABLE ->
          q' = q
          /\ (b = index (chead q) -> dequeue 1 q = Done (None, q))).
Proof.
  intros Hb Hge Hr.
  pose proof (reserve_entry_eq q fuel b blk Hb Hge) as Heq. cbv zeta in Heq.
  destruct (Z.ltb_spec (index (resv blk)) NE); [|lia].
  destruct (Z.eqb_spec (index (resv blk)) (index (comm blk))) as [E1|E1].
  { exists NO_ENTRY, q. split; [done|]. split; [done|]. split.
    - split; [done|]. intros (? & _); done.
    - intros _. split; [done|]. intros ->.
      rewrite (dequeue_turn _ _ _ Hb Hge). cbv zeta.
      destruct (Z.ltb_spec (index (resv blk)) NE); [|lia].
      by destruct (Z.eqb_spec (index (resv blk)) (index (comm blk))). }
  destruct (Z.eqb_spec (index (comm blk)) NE) as [E2|E2];
    destruct (Z.eqb_spec (index (alloc blk)) (index (comm blk))) as [E3|E3];
    simpl in Heq.
  all: try (eexists SUCCESS, _; split; [exact Heq|];
            split; [split; [done|]; intros; done|];
            split; [split; [done|]; intros (? & ? & ?); done|];
            intros [|]; done).
  exists NOT_AVAILABLE, q. split; [done|]. split; [split; [done|]; intros; done|].
  split; [done|]. intros _. split; [done|]. intros ->.
  rewrite (dequeue_turn _ _ _ Hb Hge). cbv zeta.
  destruct (Z.ltb_spec (index (resv blk)) NE); [|lia].
  destruct (Z.eqb_spec (index (resv blk)) (index (comm blk))); [done|].
  destruct (Z.eqb_spec (index (comm blk)) NE); [done|].
  by destruct (Z.eqb_spec (index (alloc blk)) (index (comm blk))).
Qed.

(** ** Consumption overwrites the slot *)

Lemma dequeue_fail q fuel :
  blocks q !! Z.to_nat (index (chead q)) = None \/ index (chead q) < 0 ->
  dequeue (S fuel) q = Undefined.
Proof.
  intros H. cbn [dequeue reserve_entry]. unfold bind at 1. unfold load_chead.
  unfold bind at 1. by rewrite bind_load_fail.
Qed.

Lemma advance_chead_fail q ch vsn :
  blocks q !! Z.to_nat ((index ch + 1) mod B) = None ->
  advance_chead ch vsn q = Undefined.
Proof. intros H. unfold advance_chead. cbv zeta. rewrite bind_load_fail; auto. Qed.

Lemma advance_phead_fail q ph :
  blocks q !! Z.to_nat ((index ph + 1) mod B) = None ->
  advance_phead ph q = Undefined.
Proof. intros H. unfold advance_phead. cbv zeta. rewrite bind_load_fail; auto. Qed.

Lemma enqueue_fail q fuel t :
  blocks q !! Z.to_nat (index (phead q)) = None \/ index (phead q) < 0 ->
  enqueue (S fuel) t q = Undefined.
Proof.
  intros H. cbn [enqueue]. unfold bind at 1. unfold load_phead.
  unfold bind at 1. unfold allocate_entry. by rewrite bind_load_fail.
Qed.

Lemma data_put_block_same q i (blk blk' : Block) :
  blocks q !! i = Some blk -> data blk' = data blk ->
  map data (blocks (put_block i blk' q)) = map data (blocks q).
Proof.
  intros Hb Hd. simpl. rewrite list_fmap_insert, Hd.
  apply list_insert_id. by rewrite list_lookup_fmap, Hb.
Qed.

(** C8. A successful [dequeue] overwrites the slot it consumed.  Let [q1]
    be the queue at the start of the last turn of the loop (the heads may
    have advanced, no slot has changed), [b] the block under the consumer
    head and [p] its reserve position.  The value returned is the content of
    slot [p], and the call leaves [b] with its reserve and consume cursors
    advanced and [T_zero], the value of the literal [0], in slot [p]. *)
Theorem dequeue_overwrites_slot (fuel : nat) (q q' : Queue) (x : T) :
  valid_params ->
  dequeue fuel q = Done (Some x, q') ->
  exists q1 blk,
    map data (blocks q1) = map data (blocks q)
    /\ blocks q1 !! Z.to_nat (index (chead q1)) = Some blk
    /\ 0 <= index (resv blk) < NE
    /\ data blk !! Z.to_nat (index (resv blk)) = Some x
    /\ q' = put_block (Z.to_nat (index (chead q1)))
              (MkBlock (alloc blk) (comm blk)
                 (Field_ctor (version (resv blk))
                    (Z.max (index (resv blk)) (index (resv blk) + 1)))
                 (Field_add (cons blk) 1)
                 (<[Z.to_nat (index (resv blk)) := T_zero]> (data blk))) q1
    /\ (exists blk',
          blocks q' !! Z.to_nat (index (chead q')) = Some blk'
          /\ data blk' !! Z.to_nat (index (resv blk)) = Some T_zero
          /\ index (resv blk') = index (resv blk) + 1).
Proof.
  intros Hv. pose proof (NE_pos Hv) as HNE.
  destruct Hv as (Hlt & _ & HB & _). assert (NE <> 0) as HNE0 by lia.
  revert q. induction fuel as [|fuel IH]; intros q Hd; [done|].
  destruct (blocks q !! Z.to_nat (index (chead q))) as [blk|] eqn:Hb;
    [|by rewrite dequeue_fail in Hd by auto].
  destruct (Z.le_gt_cases 0 (index (chead q))) as [Hge|];
    [|by rewrite dequeue_fail in Hd by auto].
  rewrite (dequeue_turn _ _ _ Hb Hge) in Hd. cbv zeta in Hd.
  destruct (Z.ltb_spec (index (resv blk)) NE) as [Hr|Hr].
  - destruct (_ =? _); [done|]. destruct (_ && _); [done|].
    set (blk2 := set_cursor Resv _ blk) in Hd.
    set (q2 := put_block _ blk2 q) in Hd.
    assert (blocks q2 !! Z.to_nat (index (chead q)) = Some blk2) as Hb2
      by (by eapply lookup_put_block_eq).
    unfold consume_entry in Hd.
    unfold bind at 1 in Hd. unfold load_data in Hd. rewrite Hb2 in Hd.
    change (data blk2) with (data blk) in Hd.
    destruct (data blk !! Z.to_nat (index (resv blk))) as [x0|] eqn:Hx;
      [|done].
    destruct (Z.leb_spec 0 (index (chead q))); [|lia].
    destruct (Z.leb_spec 0 (index (resv blk))) as [Hp|]; [|done].
    simpl in Hd.
    assert (0 <= index (resv blk) < Z.of_nat (length (data blk2))) as Hlen.
    { apply lookup_lt_Some in Hx. simpl. lia. }
    rewrite (bind_store_data _ _ _ _ _ _ Hb2 Hge Hlen) in Hd.
    erewrite bind_load in Hd; [|by eapply lookup_put_block_eq|done].
    erewrite bind_store in Hd; [|by eapply lookup_put_block_eq|done].
    unfold q2 in Hd. rewrite !put_block_twice in Hd. simpl in Hd.
    injection Hd as -> <-.
    exists q, blk. repeat split; try done; try lia.
    eexists. split; [by eapply lookup_put_block_eq|]. simpl. split.
    + apply list_lookup_insert_eq. by eapply lookup_lt_Some.
    + rewrite Z.max_r by lia. rewrite Z.mod_small; [done|].
      rewrite two_pow_index in *. lia.
  - destruct (blocks q !! Z.to_nat ((index (chead q) + 1) mod B)) as [nb|]
      eqn:Hnb; [|by rewrite advance_chead_fail in Hd].
    rewrite (advance_chead_eq _ _ _ _ HNE0 HB Hnb) in Hd.
    destruct (_ =? _); [|done].
    apply IH in Hd as (q1 & blk1 & Hdata & Hrest).
    exists q1, blk1. split; [|done].
    rewrite Hdata. simpl. by eapply data_put_block_same.
Qed.

(** ** The cursors of a block *)

Lemma Field_le_refl f : Field_le f f.
Proof. unfold Field_le. lia. Qed.

Lemma Field_le_trans f g h : Field_le f g -> Field_le g h -> Field_le f h.
Proof. unfold Field_le. lia. Qed.

Lemma queue_le_refl q : queue_le q q.
Proof.
  split; [done|]. intros i blk Hb. exists blk. split; [done|].
  intros. apply Field_le_refl.
Qed.

Lemma queue_le_trans q1 q2 q3 : queue_le q1 q2 -> queue_le q2 q3 -> queue_le q1 q3.
Proof.
  intros [Hl12 H12] [Hl23 H23]. split; [congruence|]. intros i blk Hb.
  destruct (H12 i blk Hb) as (blk2 & Hb2 & Hle2).
  destruct (H23 i blk2 Hb2) as (blk3 & Hb3 & Hle3).
  exists blk3. split; [done|]. intros c. eapply Field_le_trans; eauto.
Qed.

Lemma queue_inv_put q i blk' :
  queue_inv q -> block_inv blk' -> queue_inv (put_block i blk' q).
Proof.
  intros Hq Hb j blk Hj. simpl in Hj.
  destruct (decide (i = j)) as [->|Hne].
  - destruct (decide (j < length (blocks q))%nat).
    + rewrite list_lookup_insert_eq in Hj by done. by injection Hj as <-.
    + rewrite list_insert_ge in Hj by lia. eauto.
  - rewrite list_lookup_insert_ne in Hj by done. eauto.
Qed.

Lemma queue_le_put q i blk blk' :
  blocks q !! i = Some blk ->
  (forall c, Field_le (get_cursor c blk) (get_cursor c blk')) ->
  queue_le q (put_block i blk' q).
Proof.
  intros Hb Hle. split; [apply length_insert|]. intros j blkj Hj. simpl.
  destruct (decide (i = j)) as [->|Hne].
  - exists blk'. rewrite list_lookup_insert_eq by (by eapply lookup_lt_Some).
    split; [done|]. by simplify_eq.
  - exists blkj. rewrite list_lookup_insert_ne by done.
    split; [done|]. intros. apply Field_le_refl.
Qed.

Lemma Field_ctor_wf v i : Field_wf (Field_ctor v i).
Proof.
  unfold Field_wf, Field_ctor. simpl.
  split; apply Z.mod_pos_bound; reflexivity.
Qed.

Lemma raise_wf f a : Field_wf f -> Field_wf a -> Field_wf (raise f a).
Proof. unfold raise. by destruct (_ >? _). Qed.

Lemma raise_le f a : Field_le a (raise f a).
Proof.
  unfold raise, Field_le.
  destruct (Z.gtb_spec (version f) (version a)); lia.
Qed.

Lemma stamp_producer_inv ph nb :
  valid_params -> block_inv nb -> block_inv (stamp_producer ph nb).
Proof.
  intros Hv (Ha & Hc & Hca & Hrc & Hia & Hic & Hle & Hlen).
  pose proof (NE_pos Hv). unfold stamp_producer.
  set (f := Field_ctor _ 0).
  assert (Field_wf f) as Hf by apply Field_ctor_wf.
  assert (index f = 0) as Hf0 by reflexivity. clearbody f.
  unfold block_inv, raise. cbn [alloc comm resv cons data]. rewrite Hca.
  unfold Field_wf, Field_le in *.
  destruct (Z.gtb_spec (version f) (version (alloc nb)));
    repeat split; first [done | lia].
Qed.

Lemma stamp_producer_le ph nb c :
  Field_le (get_cursor c nb) (get_cursor c (stamp_producer ph nb)).
Proof. destruct c; simpl; try apply raise_le; apply Field_le_refl. Qed.

Lemma stamp_consumer_inv ch nb :
  valid_params -> block_inv nb -> version (comm nb) = version ch + 1 ->
  block_inv (stamp_consumer ch nb).
Proof.
  intros Hv (Ha & Hc & Hca & Hrc & Hia & Hic & Hle & Hlen) Heq.
  pose proof (NE_pos Hv). unfold stamp_consumer.
  assert (Field_ctor (version ch + 1) 0 = MkField (version (alloc nb)) 0) as ->.
  { rewrite <- Heq, Hca. apply Field_ctor_small; [apply Ha|done]. }
  unfold block_inv, raise. cbn [alloc comm resv cons data version]. rewrite Hrc.
  unfold Field_wf, Field_le in *. cbn [version index].
  destruct (Z.gtb_spec (version (alloc nb)) (version (cons nb)));
    cbn [version index]; repeat split; first [done | lia].
Qed.

Lemma stamp_consumer_le ch nb c :
  Field_le (get_cursor c nb) (get_cursor c (stamp_consumer ch nb)).
Proof. destruct c; simpl; try apply raise_le; apply Field_le_refl. Qed.

Lemma produced_block_inv blk t :
  valid_params -> block_inv blk -> index (alloc blk) < NE ->
  block_inv (MkBlock (Field_add (alloc blk) 1) (Field_add (comm blk) 1)
               (resv blk) (cons blk)
               (<[Z.to_nat (index (alloc blk)) := t]> (data blk))).
Proof.
  intros (Hlt & _) (Ha & Hc & Hca & Hrc & Hia & Hic & Hle & Hlen) Hroom.
  rewrite Hca. rewrite Field_add_small by (destruct Ha; lia).
  unfold block_inv, Field_wf, Field_le in *. cbn [alloc comm resv cons data version index].
  rewrite length_insert. repeat split; first [done | lia].
Qed.

Lemma produced_block_le blk d c :
  block_inv blk -> index (alloc blk) < NE -> NE < 2 ^ INDEX_BITS ->
  Field_le (get_cursor c blk)
    (get_cursor c (MkBlock (Field_add (alloc blk) 1) (Field_add (comm blk) 1)
                     (resv blk) (cons blk) d)).
Proof.
  intros (Ha & Hc & Hca & Hrc & Hia & Hic & Hle & Hlen) Hroom Hlt.
  rewrite Hca. rewrite Field_add_small by (destruct Ha; lia).
  unfold Field_le. destruct c; simpl; rewrite ?Hca; lia.
Qed.

Lemma consumed_block_eq blk :
  valid_params -> block_inv blk -> index (resv blk) < NE ->
  MkBlock (alloc blk) (comm blk)
    (Field_ctor (version (resv blk))
       (Z.max (index (resv blk)) (index (resv blk) + 1)))
    (Field_add (cons blk) 1)
    (<[Z.to_nat (index (resv blk)) := T_zero]> (data blk))
  = MkBlock (alloc blk) (alloc blk)
      (MkField (version (cons blk)) (index (cons blk) + 1))
      (MkField (version (cons blk)) (index (cons blk) + 1))
      (<[Z.to_nat (index (cons blk)) := T_zero]> (data blk)).
Proof.
  intros (Hlt & _) (Ha & Hc & Hca & Hrc & Hia & Hic & Hle & Hlen) Hroom.
  rewrite Hrc in *. rewrite Hca. rewrite Z.max_r by lia.
  rewrite Field_ctor_small by (destruct Hc; lia).
  rewrite Field_add_small by (destruct Hc; lia). done.
Qed.

Lemma consumed_block_inv blk :
  valid_params -> block_inv blk -> index (resv blk) < NE ->
  index (resv blk) <> index (comm blk) ->
  block_inv (MkBlock (alloc blk) (alloc blk)
      (MkField (version (cons blk)) (index (cons blk) + 1))
      (MkField (version (cons blk)) (index (cons blk) + 1))
      (<[Z.to_nat (index (cons blk)) := T_zero]> (data blk))).
Proof.
  intros (Hlt & _) (Ha & Hc & Hca & Hrc & Hia & Hic & Hle & Hlen) Hroom Hne.
  rewrite Hrc, Hca in *.
  unfold block_inv, Field_wf, Field_le in *. cbn [alloc comm resv cons data version index].
  rewrite length_insert. repeat split; first [done | lia].
Qed.

Lemma consumed_block_le blk d c :
  block_inv blk ->
  Field_le (get_cursor c blk)
    (get_cursor c (MkBlock (alloc blk) (alloc blk)
      (MkField (version (cons blk)) (index (cons blk) + 1))
      (MkField (version (cons blk)) (index (cons blk) + 1)) d)).
Proof.
  intros (Ha & Hc & Hca & Hrc & Hia & Hic & Hle & Hlen).
  unfold Field_le. destruct c; simpl; rewrite ?Hca, ?Hrc; lia.
Qed.

Lemma enqueue_inv fuel t q r q' :
  valid_params -> queue_inv q -> enqueue fuel t q = Done (r, q') ->
  queue_inv q' /\ queue_le q q'.
Proof.
  intros Hv. pose proof (NE_pos Hv) as HNE.
  assert (NE <> 0) as HNE0 by lia.
  assert (0 < B) as HB by apply Hv.
  revert q. induction fuel as [|fuel IH]; intros q Hq Hd; [done|].
  destruct (blocks q !! Z.to_nat (index (phead q))) as [blk|] eqn:Hb;
    [|by rewrite enqueue_fail in Hd by auto].
  destruct (Z.le_gt_cases 0 (index (phead q))) as [Hge|];
    [|by rewrite enqueue_fail in Hd by auto].
  pose proof (Hq _ _ Hb) as Hblk.
  destruct (Z.le_gt_cases NE (index (alloc blk))) as [Hfull|Hroom].
  - rewrite (enqueue_full _ _ _ _ Hb Hge Hfull) in Hd.
    destruct (blocks q !! Z.to_nat ((index (phead q) + 1) mod B)) as [nb|]
      eqn:Hnb; [|by rewrite advance_phead_fail in Hd].
    rewrite (advance_phead_eq _ _ _ HNE0 HB Hnb) in Hd.
    destruct (_ || _).
    + assert (q' = q) as -> by (destruct (_ =? _); congruence).
      split; [done|apply queue_le_refl].
    + apply IH in Hd as [Hq' Hle].
      * split; [done|]. eapply queue_le_trans; [|exact Hle].
        apply (queue_le_put _ _ _ _ Hnb). apply stamp_producer_le.
      * apply queue_inv_put; [done|]. apply stamp_producer_inv; eauto.
  - assert (0 <= index (alloc blk)) by apply Hblk.
    rewrite (enqueue_room _ _ _ _ Hb Hge) in Hd;
      [|lia|destruct Hblk as (_&_&_&_&_&_&_&->); lia].
    injection Hd as _ <-. split.
    + apply queue_inv_put; [done|]. by apply produced_block_inv.
    + apply (queue_le_put _ _ _ _ Hb). intros c.
      apply produced_block_le; [done|done|apply Hv].
Qed.

Lemma dequeue_inv fuel q r q' :
  valid_params -> queue_inv q -> dequeue fuel q = Done (r, q') ->
  queue_inv q' /\ queue_le q q'.
Proof.
  intros Hv. pose proof (NE_pos Hv) as HNE.
  assert (NE <> 0) as HNE0 by lia.
  assert (0 < B) as HB by apply Hv.
  revert q. induction fuel as [|fuel IH]; intros q Hq Hd; [done|].
  destruct (blocks q !! Z.to_nat (index (chead q))) as [blk|] eqn:Hb;
    [|by rewrite dequeue_fail in Hd by auto].
  destruct (Z.le_gt_cases 0 (index (chead q))) as [Hge|];
    [|by rewrite dequeue_fail in Hd by auto].
  pose proof (Hq _ _ Hb) as Hblk.
  rewrite (dequeue_turn _ _ _ Hb Hge) in Hd. cbv zeta in Hd.
  destruct (Z.ltb_spec (index (resv blk)) NE) as [Hr|Hr].
  - destruct (Z.eqb_spec (index (resv blk)) (index (comm blk))) as [|Hne].
    { injection Hd as _ <-. split; [done|apply queue_le_refl]. }
    destruct (_ && _).
    { injection Hd as _ <-. split; [done|apply queue_le_refl]. }
    assert (0 <= index (resv blk)) as Hr0.
    { destruct Hblk as (_ & Hc & _ & -> & _). apply Hc. }
    destruct (lookup_lt_is_Some_2 (data blk) (Z.to_nat (index (resv blk))))
      as [x Hx].
    { destruct Hblk as (_&_&_&_&_&_&_&->). lia. }
    erewrite consume_entry_eq in Hd;
      [|by eapply lookup_put_block_eq|done|done|exact Hx].
    rewrite put_block_twice in Hd. cbn [alloc comm resv cons data set_cursor] in Hd.
    rewrite (consumed_block_eq _ Hv Hblk Hr) in Hd.
    injection Hd as _ <-. split.
    + apply queue_inv_put; [done|]. by apply consumed_block_inv.
    + apply (queue_le_put _ _ _ _ Hb). intros c. by apply consumed_block_le.
  - destruct (blocks q !! Z.to_nat ((index (chead q) + 1) mod B)) as [nb|]
      eqn:Hnb; [|by rewrite advance_chead_fail in Hd].
    rewrite (advance_chead_eq _ _ _ _ HNE0 HB Hnb) in Hd.
    destruct (Z.eqb_spec (version (comm nb)) (version (chead q) + 1)) as [E|E].
    + apply IH in Hd as [Hq' Hle].
      * split; [done|]. eapply queue_le_trans; [|exact Hle].
        apply (queue_le_put _ _ _ _ Hnb). apply stamp_consumer_le.
      * apply queue_inv_put; [done|]. apply stamp_consumer_inv; eauto.
    + injection Hd as _ <-. split; [done|apply queue_le_refl].
Qed.

Lemma Block_init_inv idx :
  valid_params -> 0 <= idx <= NE -> block_inv (Block_init idx).
Proof.
  intros (Hlt & _) Hidx. unfold Block_init.
  rewrite Field_ctor_small by (rewrite ?two_pow_version; lia).
  unfold block_inv, Field_wf, Field_le. cbn [alloc comm resv cons data version index].
  rewrite length_replicate, two_pow_version. repeat split; first [done | lia].
Qed.

Lemma Queue_new_inv : valid_params -> queue_inv Queue_new.
Proof.
  intros Hv i blk. pose proof (NE_pos Hv). unfold Queue_new. simpl.
  destruct (Z.to_nat B) as [|k]; [done|].
  destruct i as [|i]; simpl.
  - intros [= <-]. apply Block_init_inv; [done|lia].
  - intros [-> _]%lookup_replicate. apply Block_init_inv; [done|lia].
Qed.

Lemma call_inv fuel o q e q' :
  valid_params -> queue_inv q -> call fuel o q = Done (e, q') ->
  queue_inv q' /\ queue_le q q'.
Proof.
  intros Hv Hq. destruct o as [t|]; unfold call, bind, ret.
  - destruct (enqueue fuel t q) as [[r q1]| |] eqn:E; [|done|done].
    intros [= _ <-]. by eapply enqueue_inv.
  - destruct (dequeue fuel q) as [[r q1]| |] eqn:E; [|done|done].
    intros [= _ <-]. by eapply dequeue_inv.
Qed.

Lemma run_inv fuel ops q es q' :
  valid_params -> queue_inv q -> run fuel ops q = Done (es, q') ->
  queue_inv q'.
Proof.
  intros Hv. revert q es. induction ops as [|o ops IH]; intros q es Hq.
  - by intros [= _ <-].
  - cbn [run]. unfold bind at 1.
    destruct (call fuel o q) as [[e q1]| |] eqn:E; [|done|done].
    unfold bind, ret.
    destruct (run fuel ops q1) as [[es1 q2]| |] eqn:E2; [|done|done].
    intros [= _ <-]. eapply IH; [|exact E2]. by eapply call_inv.
Qed.

Lemma reachable_inv q : valid_params -> reachable q -> queue_inv q.
Proof.
  intros Hv (fuel & ops & es & Hrun).
  eapply run_inv; [done| |exact Hrun]. by apply Queue_new_inv.
Qed.

(** C7. In every state a fresh queue reaches by complete calls, and for
    every block: the positions of the four cursors for the block's current
    generation (the one [alloc] carries; a cursor still on an older
    generation has position 0 for the current one) satisfy
    [cons <= resv <= comm <= alloc <= NE]; the cursors themselves are in that
    order when compared by generation first and position second, and no
    position exceeds [NE].  Every call leaves each cursor of each block at
    a generation at least as large, and within one generation at a position
    at least as large. *)
Theorem cursor_order (q : Queue) :
  valid_params -> reachable q ->
  (forall i blk, blocks q !! i = Some blk ->
     let g := version (alloc blk) in
     0 <= pos_in g (cons blk)
     /\ pos_in g (cons blk) <= pos_in g (resv blk)
     /\ pos_in g (resv blk) <= pos_in g (comm blk)
     /\ pos_in g (comm blk) <= pos_in g (alloc blk)
     /\ pos_in g (alloc blk) <= NE
     /\ Field_le (cons blk) (resv blk)
     /\ Field_le (resv blk) (comm blk)
     /\ Field_le (comm blk) (alloc blk)
     /\ (forall c, 0 <= index (get_cursor c blk) <= NE))
  /\ (forall fuel o e q', call fuel o q = Done (e, q') ->
      forall i blk, blocks q !! i = Some blk ->
        exists blk', blocks q' !! i = Some blk'
          /\ forall c,
               version (get_cursor c blk) <= version (get_cursor c blk')
               /\ (version (get_cursor c blk) = version (get_cursor c blk') ->
                   index (get_cursor c blk) <= index (get_cursor c blk'))).
Proof.
  intros Hv Hreach. pose proof (reachable_inv q Hv Hreach) as Hq. split.
  - intros i blk Hb g. subst g.
    destruct (Hq i blk Hb) as (Ha & Hc & Hca & Hrc & Hia & Hic & Hle & Hlen).
    unfold pos_in, Field_le, Field_wf in *. rewrite Hca, Hrc, Z.eqb_refl.
    destruct (Z.eqb_spec (version (cons blk)) (version (alloc blk)));
      repeat split; try lia; destruct c; simpl; rewrite ?Hca, ?Hrc; lia.
  - intros fuel o e q' Hcall i blk Hb.
    destruct (call_inv _ _ _ _ _ Hv Hq Hcall) as [_ [_ Hle]].
    destruct (Hle i blk Hb) as (blk' & Hb' & Hc).
    exists blk'. split; [done|]. intros c. specialize (Hc c).
    unfold Field_le in Hc. lia.
Qed.

(** ** More turns change nothing *)

Lemma enqueue_unfold fuel t q :
  enqueue (S fuel) t q =
  match allocate_entry (index (phead q)) q with
  | Done ((SUCCESS, idx), q1) =>
      match commit_entry (index (phead q)) idx t q1 with
      | Done (_, q2) => Done (true, q2)
      | Undefined => Undefined
      | OutOfFuel => OutOfFuel
      end
  | Done (_, q1) =>
      match advance_phead (phead q) q1 with
      | Done (SUCCESS, q2) => enqueue fuel t q2
      | Done (_, q2) => Done (false, q2)
      | Undefined => Undefined
      | OutOfFuel => OutOfFuel
      end
  | Undefined => Undefined
  | OutOfFuel => OutOfFuel
  end.
Proof.
  cbn [enqueue]. unfold bind, load_phead, ret.
  destruct (allocate_entry (index (phead q)) q) as [[[st idx] q1]| |]; [|done|done].
  cbn [fst snd]. destruct st; try done.
  all: destruct (advance_phead (phead q) q1) as [[[] q2]| |]; done.
Qed.

Lemma dequeue_unfold fuel q :
  dequeue (S fuel) q =
  match reserve_entry 1 (index (chead q)) q with
  | Done ((SUCCESS, r), q1) =>
      match consume_entry (index (chead q)) r q1 with
      | Done (x, q2) => Done (Some x, q2)
      | Undefined => Undefined
      | OutOfFuel => OutOfFuel
      end
  | Done ((BLOCK_DONE, r), q1) =>
      match advance_chead (chead q) (version r) q1 with
      | Done (true, q2) => dequeue fuel q2
      | Done (false, q2) => Done (None, q2)
      | Undefined => Undefined
      | OutOfFuel => OutOfFuel
      end
  | Done (_, q1) => Done (None, q1)
  | Undefined => Undefined
  | OutOfFuel => OutOfFuel
  end.
Proof.
  cbn [dequeue]. unfold bind at 1. unfold load_chead. unfold bind at 1.
  rewrite (proj1 (reserve_entry_one_turn q fuel (index (chead q)))).
  destruct (reserve_entry 1 (index (chead q)) q) as [[[st r] q1]| |]; [|done|done].
  cbn [fst snd]. unfold bind, ret. destruct st; try done.
  destruct (advance_chead (chead q) (version r) q1) as [[[] q2]| |]; done.
Qed.

Lemma enqueue_mono fuel : forall t q x,
  enqueue fuel t q = Done x -> enqueue (S fuel) t q = Done x.
Proof.
  induction fuel as [|fuel IH]; intros t q x; [done|].
  rewrite (enqueue_unfold (S fuel)), (enqueue_unfold fuel).
  destruct (allocate_entry (index (phead q)) q) as [[[st idx] q1]| |]; [|done|done].
  destruct st; try done.
  all: destruct (advance_phead (phead q) q1) as [[[] q2]| |]; try done; apply IH.
Qed.

Lemma dequeue_mono fuel : forall q x,
  dequeue fuel q = Done x -> dequeue (S fuel) q = Done x.
Proof.
  induction fuel as [|fuel IH]; intros q x; [done|].
  rewrite (dequeue_unfold (S fuel)), (dequeue_unfold fuel).
  destruct (reserve_entry 1 (index (chead q)) q) as [[[st r] q1]| |]; [|done|done].
  destruct st; try done.
  destruct (advance_chead (chead q) (version r) q1) as [[[] q2]| |]; try done.
  apply IH.
Qed.

Lemma enqueue_more k fuel t q x :
  enqueue fuel t q = Done x -> enqueue (k + fuel) t q = Done x.
Proof. intros H. induction k as [|k IH]; [done|]. by apply enqueue_mono. Qed.

Lemma dequeue_more k fuel q x :
  dequeue fuel q = Done x -> dequeue (k + fuel) q = Done x.
Proof. intros H. induction k as [|k IH]; [done|]. by apply dequeue_mono. Qed.

(** ** What each call writes, in every state *)

Lemma map_put_block_same {A} (f : Block -> A) q i blk blk' :
  blocks q !! i = Some blk -> f blk' = f blk ->
  map f (blocks (put_block i blk' q)) = map f (blocks q).
Proof.
  intros Hb Hf. simpl. rewrite list_fmap_insert, Hf.
  apply list_insert_id. by rewrite list_lookup_fmap, Hb.
Qed.

Lemma commit_entry_fail q b idx t blk :
  blocks q !! Z.to_nat b = Some blk ->
  ~ (0 <= idx < Z.of_nat (length (data blk))) ->
  commit_entry b idx t q = Undefined.
Proof.
  intros Hb Hi. unfold commit_entry, bind, store_data. rewrite Hb.
  destruct (Z.leb_spec 0 b), (Z.leb_spec 0 idx),
    (Z.ltb_spec idx (Z.of_nat (length (data blk)))); simpl; try done; lia.
Qed.

(** One turn of the loop of [enqueue], whatever the block looks like. *)
Lemma enqueue_turn q fuel t blk :
  blocks q !! Z.to_nat (index (phead q)) = Some blk -> 0 <= index (phead q) ->
  enqueue (S fuel) t q =
  if NE <=? index (alloc blk) then
    match advance_phead (phead q) q with
    | Done (SUCCESS, q') => enqueue fuel t q'
    | Done (_, q') => Done (false, q')
    | Undefined => Undefined
    | OutOfFuel => OutOfFuel
    end
  else if (0 <=? index (alloc blk))
          && (index (alloc blk) <? Z.of_nat (length (data blk)))
  then Done (true, put_block (Z.to_nat (index (phead q)))
                     (MkBlock (Field_add (alloc blk) 1) (Field_add (comm blk) 1)
                              (resv blk) (cons blk)
                              (<[Z.to_nat (index (alloc blk)) := t]> (data blk))) q)
  else Undefined.
Proof.
  intros Hb Hge. destruct (Z.leb_spec NE (index (alloc blk))) as [Hfull|Hroom].
  - by apply (enqueue_full _ _ _ blk).
  - rewrite enqueue_unfold, (allocate_entry_eq _ _ _ Hb Hge).
    destruct (Z.leb_spec NE (index (alloc blk))); [lia|].
    destruct (Z.leb_spec 0 (index (alloc blk)));
      destruct (Z.ltb_spec (index (alloc blk)) (Z.of_nat (length (data blk))));
      cbn [andb].
    + erewrite commit_entry_eq;
        [|by eapply lookup_put_block_eq|done|simpl; lia].
      by rewrite put_block_twice.
    + erewrite commit_entry_fail; [done|by eapply lookup_put_block_eq|simpl; lia].
    + erewrite commit_entry_fail; [done|by eapply lookup_put_block_eq|simpl; lia].
    + erewrite commit_entry_fail; [done|by eapply lookup_put_block_eq|simpl; lia].
Qed.

Lemma consume_entry_cases q b f blk :
  blocks q !! Z.to_nat b = Some blk -> 0 <= b ->
  consume_entry b f q =
  match data blk !! Z.to_nat (index f) with
  | Some x =>
      if 0 <=? index f
      then Done (x, put_block (Z.to_nat b)
                      (MkBlock (alloc blk) (comm blk) (resv blk)
                               (Field_add (cons blk) 1)
                               (<[Z.to_nat (index f) := T_zero]> (data blk))) q)
      else Undefined
  | None => Undefined
  end.
Proof.
  intros Hb Hge. destruct (data blk !! Z.to_nat (index f)) as [x|] eqn:Hx.
  - destruct (Z.leb_spec 0 (index f)).
    + by apply consume_entry_eq.
    + unfold consume_entry, bind, load_data. rewrite Hb, Hx.
      destruct (Z.leb_spec 0 b); [|lia]. by destruct (Z.leb_spec 0 (index f)); [lia|].
  - unfold consume_entry, bind, load_data. by rewrite Hb, Hx.
Qed.

(** X3. [allocate_entry] on block [b]: a full block ([alloc.index >= NE])
    is reported [BLOCK_DONE] with [-1] and nothing is written, so the
    cursor never passes [NE]; otherwise the call hands out the slot
    [alloc.index], which is below [NE], and moves [alloc] by exactly one,
    leaving the generation, the other cursors, the slots, the other blocks
    and both heads alone. *)
Theorem allocate_entry_spec (q : Queue) (b : Z) (blk : Block) :
  valid_params ->
  blocks q !! Z.to_nat b = Some blk -> 0 <= b ->
  0 <= index (alloc blk) ->
  (NE <= index (alloc blk) ->
     allocate_entry b q = Done ((BLOCK_DONE, -1), q))
  /\ (index (alloc blk) < NE ->
      exists q' blk',
        allocate_entry b q = Done ((SUCCESS, index (alloc blk)), q')
        /\ blocks q' !! Z.to_nat b = Some blk'
        /\ alloc blk' = MkField (version (alloc blk)) (index (alloc blk) + 1)
        /\ index (alloc blk') <= NE
        /\ comm blk' = comm blk /\ resv blk' = resv blk /\ cons blk' = cons blk
        /\ data blk' = data blk
        /\ (forall j, j <> Z.to_nat b -> blocks q' !! j = blocks q !! j)
        /\ phead q' = phead q /\ chead q' = chead q).
Proof.
  intros (Hidx & _) Hb Hge Ha. rewrite (allocate_entry_eq _ _ _ Hb Hge). split.
  - intros Hfull. by destruct (Z.leb_spec NE (index (alloc blk))); [|lia].
  - intros Hroom. destruct (Z.leb_spec NE (index (alloc blk))); [lia|].
    eexists _, _. split; [reflexivity|].
    split; [by eapply lookup_put_block_eq|]. cbn [set_cursor alloc comm resv cons data].
    rewrite Field_add_small by lia. cbn [index].
    split; [done|]. split; [lia|]. do 4 (split; [done|]).
    split; [|done]. intros j Hj. by apply lookup_put_block_ne.
Qed.

(** X4. [commit_entry] on block [b] and slot [index]: inside the slot array
    it writes the value into that slot and no other, moves [comm] by one
    (inside its 20 bits) and leaves everything else alone; outside the slot
    array (as with the [-1] that comes with [BLOCK_DONE]) the write is out
    of bounds. *)
Theorem commit_entry_spec (q : Queue) (b idx : Z) (t : T) (blk : Block) :
  blocks q !! Z.to_nat b = Some blk -> 0 <= b ->
  (0 <= idx < Z.of_nat (length (data blk)) ->
     exists q' blk',
       commit_entry b idx t q = Done (tt, q')
       /\ blocks q' !! Z.to_nat b = Some blk'
       /\ data blk' !! Z.to_nat idx = Some t
       /\ (forall s, s <> Z.to_nat idx -> data blk' !! s = data blk !! s)
       /\ length (data blk') = length (data blk)
       /\ comm blk' = Field_add (comm blk) 1
       /\ alloc blk' = alloc blk /\ resv blk' = resv blk /\ cons blk' = cons blk
       /\ (forall j, j <> Z.to_nat b -> blocks q' !! j = blocks q !! j)
       /\ phead q' = phead q /\ chead q' = chead q)
  /\ (~ (0 <= idx < Z.of_nat (length (data blk))) ->
      commit_entry b idx t q = Undefined).
Proof.
  intros Hb Hge. split.
  - intros Hi. rewrite (commit_entry_eq _ _ _ _ _ Hb Hge Hi).
    eexists _, _. split; [reflexivity|].
    split; [by eapply lookup_put_block_eq|]. cbn [alloc comm resv cons data].
    split; [apply list_lookup_insert_eq; lia|].
    split; [intros s Hs; by apply list_lookup_insert_ne|].
    split; [apply length_insert|]. do 4 (split; [done|]).
    split; [|done]. intros j Hj. by apply lookup_put_block_ne.
  - by apply commit_entry_fail.
Qed.

(** X5. The two other answers of the reserve step on block [b], with
    [r = b.resv]: [BLOCK_DONE] exactly on a drained block ([r.index >= NE]),
    with nothing written; [SUCCESS] exactly when [r.index < NE], something
    is committed beyond [r] and no write is in flight; the step then
    returns [r] and moves [resv] by exactly one, the "atomic max" of the
    source being [r.index + 1].  Each answer is given only then. *)
Theorem reserve_entry_success (q : Queue) (fuel : nat) (b : Z) (blk : Block) :
  valid_params ->
  blocks q !! Z.to_nat b = Some blk -> 0 <= b ->
  Field_wf (resv blk) ->
  (NE <= index (resv blk) ->
     reserve_entry (S fuel) b q = Done ((BLOCK_DONE, resv blk), q))
  /\ (index (resv blk) < NE ->
      index (resv blk) <> index (comm blk) ->
      index (comm blk) = NE \/ index (alloc blk) = index (comm blk) ->
      exists q' blk',
        reserve_entry (S fuel) b q = Done ((SUCCESS, resv blk), q')
        /\ blocks q' !! Z.to_nat b = Some blk'
        /\ resv blk' = MkField (version (resv blk)) (index (resv blk) + 1)
        /\ alloc blk' = alloc blk /\ comm blk' = comm blk /\ cons blk' = cons blk
        /\ data blk' = data blk
        /\ (forall j, j <> Z.to_nat b -> blocks q' !! j = blocks q !! j)
        /\ phead q' = phead q /\ chead q' = chead q)
  /\ (forall r q',
        reserve_entry (S fuel) b q = Done ((BLOCK_DONE, r), q') ->
        NE <= index (resv blk))
  /\ (forall r q',
        reserve_entry (S fuel) b q = Done ((SUCCESS, r), q') ->
        index (resv blk) < NE
        /\ index (resv blk) <> index (comm blk)
        /\ (index (comm blk) = NE \/ index (alloc blk) = index (comm blk))).
Proof.
  intros (Hidx & _) Hb Hge [Hrv Hri].
  rewrite (reserve_entry_eq _ _ _ _ Hb Hge). cbv zeta.
  split; [|split; [|split]]; last first.
  - intros r q'. destruct (Z.ltb_spec (index (resv blk)) NE); [|done].
    destruct (Z.eqb_spec (index (resv blk)) (index (comm blk))); [done|].
    destruct (Z.eqb_spec (index (comm blk)) NE),
      (Z.eqb_spec (index (alloc blk)) (index (comm blk))); simpl; try done.
    all: intros _; split; [done|]; split; [done|]; auto.
  - intros r q'. destruct (Z.ltb_spec (index (resv blk)) NE); [|done].
    destruct (Z.eqb_spec (index (resv blk)) (index (comm blk))); [done|].
    by destruct (_ && _).
  - intros Hroom Hne Hquiet.
    destruct (Z.ltb_spec (index (resv blk)) NE); [|lia].
    destruct (Z.eqb_spec (index (resv blk)) (index (comm blk))); [done|].
    assert (negb (index (comm blk) =? NE)
            && negb (index (alloc blk) =? index (comm blk)) = false) as ->.
    { destruct (Z.eqb_spec (index (comm blk)) NE),
        (Z.eqb_spec (index (alloc blk)) (index (comm blk))); simpl; try done; lia. }
    eexists _, _. split; [reflexivity|].
    split; [by eapply lookup_put_block_eq|]. cbn [set_cursor alloc comm resv cons data].
    rewrite Z.max_r by lia. rewrite Field_ctor_small by lia.
    do 5 (split; [done|]). split; [|done].
    intros j Hj. by apply lookup_put_block_ne.
  - intros Hdone. by destruct (Z.ltb_spec (index (resv blk)) NE); [lia|].
Qed.

(** X6. A successful [enqueue] writes one slot.  Let [q1] be the queue at
    the start of the last turn of the loop (the producer head may have
    advanced and stamped blocks on the way; no slot has changed and the
    consumer head is where it was), [b] the block under the producer head
    and [p] its allocate position, which is below [NE].  The call leaves
    [b] with the value in slot [p] and with [alloc] and [comm] moved by
    one; nothing else differs from [q1]. *)
Theorem enqueue_writes_slot (fuel : nat) (t : T) (q q' : Queue) :
  valid_params ->
  enqueue fuel t q = Done (true, q') ->
  exists q1 blk,
    map data (blocks q1) = map data (blocks q)
    /\ chead q1 = chead q
    /\ blocks q1 !! Z.to_nat (index (phead q1)) = Some blk
    /\ 0 <= index (alloc blk) < NE
    /\ q' = put_block (Z.to_nat (index (phead q1)))
              (MkBlock (Field_add (alloc blk) 1) (Field_add (comm blk) 1)
                       (resv blk) (cons blk)
                       (<[Z.to_nat (index (alloc blk)) := t]> (data blk))) q1
    /\ (exists blk',
          blocks q' !! Z.to_nat (index (phead q')) = Some blk'
          /\ data blk' !! Z.to_nat (index (alloc blk)) = Some t
          /\ index (alloc blk') = index (alloc blk) + 1).
Proof.
  intros Hv. pose proof (NE_pos Hv) as HNE.
  destruct Hv as (Hlt & _ & HB & _). assert (NE <> 0) as HNE0 by lia.
  revert q. induction fuel as [|fuel IH]; intros q Hd; [done|].
  destruct (blocks q !! Z.to_nat (index (phead q))) as [blk|] eqn:Hb;
    [|by rewrite enqueue_fail in Hd by auto].
  destruct (Z.le_gt_cases 0 (index (phead q))) as [Hge|];
    [|by rewrite enqueue_fail in Hd by auto].
  rewrite (enqueue_turn _ _ _ _ Hb Hge) in Hd.
  destruct (Z.leb_spec NE (index (alloc blk))) as [Hfull|Hroom].
  - destruct (blocks q !! Z.to_nat ((index (phead q) + 1) mod B)) as [nb|]
      eqn:Hnb; [|by rewrite advance_phead_fail in Hd].
    rewrite (advance_phead_eq _ _ _ HNE0 HB Hnb) in Hd.
    destruct (_ || _); [by destruct (_ =? _)|].
    apply IH in Hd as (q1 & blk1 & Hdata & Hch & Hrest).
    exists q1, blk1. split; [|split; [|done]].
    + rewrite Hdata. cbn [blocks set_phead]. by eapply map_put_block_same.
    + by rewrite Hch.
  - destruct (Z.leb_spec 0 (index (alloc blk))) as [Ha|]; [|done].
    destruct (Z.ltb_spec (index (alloc blk)) (Z.of_nat (length (data blk))));
      [|done].
    injection Hd as <-. exists q, blk. do 4 (split; [done|]). split; [done|].
    eexists. split; [by eapply lookup_put_block_eq|]. cbn [alloc data].
    split; [apply list_lookup_insert_eq; lia|].
    rewrite Field_add_small by lia. done.
Qed.

(** X7. The producer writes only what belongs to it.  Whatever [enqueue]
    returns and in whatever state it is called, it leaves the consumer
    head, the [resv] and [cons] cursors of every block and the size of
    every slot array as they were; and a call that returns [false] has
    written no slot. *)
Theorem enqueue_frame (fuel : nat) (t : T) (q q' : Queue) (r : bool) :
  valid_params ->
  enqueue fuel t q = Done (r, q') ->
  chead q' = chead q
  /\ map resv (blocks q') = map resv (blocks q)
  /\ map cons (blocks q') = map cons (blocks q)
  /\ map (fun b => length (data b)) (blocks q')
     = map (fun b => length (data b)) (blocks q)
  /\ (r = false -> map data (blocks q') = map data (blocks q)).
Proof.
  intros Hv. pose proof (NE_pos Hv) as HNE.
  destruct Hv as (Hlt & _ & HB & _). assert (NE <> 0) as HNE0 by lia.
  revert q. induction fuel as [|fuel IH]; intros q Hd; [done|].
  destruct (blocks q !! Z.to_nat (index (phead q))) as [blk|] eqn:Hb;
    [|by rewrite enqueue_fail in Hd by auto].
  destruct (Z.le_gt_cases 0 (index (phead q))) as [Hge|];
    [|by rewrite enqueue_fail in Hd by auto].
  rewrite (enqueue_turn _ _ _ _ Hb Hge) in Hd.
  destruct (Z.leb_spec NE (index (alloc blk))) as [Hfull|Hroom].
  - destruct (blocks q !! Z.to_nat ((index (phead q) + 1) mod B)) as [nb|]
      eqn:Hnb; [|by rewrite advance_phead_fail in Hd].
    rewrite (advance_phead_eq _ _ _ HNE0 HB Hnb) in Hd.
    destruct (_ || _).
    { assert (q' = q) as -> by (destruct (_ =? _); congruence). done. }
    apply IH in Hd as (Hch & Hr & Hc & Hl & Hdata).
    cbn [blocks chead set_phead] in *.
    rewrite (map_put_block_same resv _ _ _ _ Hnb) in Hr by done.
    rewrite (map_put_block_same cons _ _ _ _ Hnb) in Hc by done.
    rewrite (map_put_block_same (fun b => length (data b)) _ _ _ _ Hnb) in Hl
      by done.
    do 4 (split; [done|]). intros Hf.
    rewrite (Hdata Hf). by eapply map_put_block_same.
  - destruct (Z.leb_spec 0 (index (alloc blk))) as [Ha|]; [|done].
    destruct (Z.ltb_spec (index (alloc blk)) (Z.of_nat (length (data blk))));
      [|done].
    injection Hd as <- <-. split; [done|].
    split; [by eapply map_put_block_same|].
    split; [by eapply map_put_block_same|].
    split; [|done].
    eapply map_put_block_same; [done|]. cbn [data]. apply length_insert.
Qed.

(** X8. The consumer writes only what belongs to it.  Whatever [dequeue]
    returns and in whatever state it is called, it leaves the producer
    head, the [alloc] and [comm] cursors of every block and the size of
    every slot array as they were; and a call that returns [false] has
    written no slot. *)
Theorem dequeue_frame (fuel : nat) (q q' : Queue) (r : option T) :
  valid_params ->
  dequeue fuel q = Done (r, q') ->
  phead q' = phead q
  /\ map alloc (blocks q') = map alloc (blocks q)
  /\ map comm (blocks q') = map comm (blocks q)
  /\ map (fun b => length (data b)) (blocks q')
     = map (fun b => length (data b)) (blocks q)
  /\ (r = None -> map data (blocks q') = map data (blocks q)).
Proof.
  intros Hv. pose proof (NE_pos Hv) as HNE.
  destruct Hv as (Hlt & _ & HB & _). assert (NE <> 0) as HNE0 by lia.
  revert q. induction fuel as [|fuel IH]; intros q Hd; [done|].
  destruct (blocks q !! Z.to_nat (index (chead q))) as [blk|] eqn:Hb;
    [|by rewrite dequeue_fail in Hd by auto].
  destruct (Z.le_gt_cases 0 (index (chead q))) as [Hge|];
    [|by rewrite dequeue_fail in Hd by auto].
  rewrite (dequeue_turn _ _ _ Hb Hge) in Hd. cbv zeta in Hd.
  destruct (Z.ltb_spec (index (resv blk)) NE) as [Hr|Hr].
  - destruct (_ =? _); [by injection Hd as <- <-|].
    destruct (_ && _); [by injection Hd as <- <-|].
    erewrite consume_entry_cases in Hd; [|by eapply lookup_put_block_eq|done].
    cbn [set_cursor alloc comm resv cons data] in Hd.
    destruct (data blk !! _) as [x|] eqn:Hx; [|done].
    destruct (0 <=? _); [|done].
    rewrite put_block_twice in Hd. injection Hd as <- <-.
    split; [done|].
    split; [by eapply map_put_block_same|].
    split; [by eapply map_put_block_same|].
    split; [|done].
    eapply map_put_block_same; [done|]. cbn [data]. apply length_insert.
  - destruct (blocks q !! Z.to_nat ((index (chead q) + 1) mod B)) as [nb|]
      eqn:Hnb; [|by rewrite advance_chead_fail in Hd].
    rewrite (advance_chead_eq _ _ _ _ HNE0 HB Hnb) in Hd.
    destruct (_ =? _); [|by injection Hd as <- <-].
    apply IH in Hd as (Hph & Ha & Hc & Hl & Hdata).
    cbn [blocks phead set_chead] in *.
    rewrite (map_put_block_same alloc _ _ _ _ Hnb) in Ha by done.
    rewrite (map_put_block_same comm _ _ _ _ Hnb) in Hc by done.
    rewrite (map_put_block_same (fun b => length (data b)) _ _ _ _ Hnb) in Hl
      by done.
    do 4 (split; [done|]). intros Hf.
    rewrite (Hdata Hf). by eapply map_put_block_same.
Qed.

(** X1. Fields stay inside their bit-fields.  The constructor stores the
    version modulo [2^44] and the index modulo [2^20], so it stores parts
    that fit as they are, forgets every multiple of the width, and rebuilds
    a stored field from its own parts; [operator+] adds to the index only,
    modulo [2^20]: it never touches the version, not even when the index
    wraps, it adds exactly as long as the sum fits, and two additions are
    one addition of the sum. *)
Theorem Field_ops_spec (f : Field) (vsn idx a b : Z) :
  Field_wf f ->
  Field_wf (Field_ctor vsn idx)
  /\ version (Field_ctor vsn idx) = vsn mod 2 ^ VERSION_BITS
  /\ index (Field_ctor vsn idx) = idx mod 2 ^ INDEX_BITS
  /\ (0 <= vsn < 2 ^ VERSION_BITS -> 0 <= idx < 2 ^ INDEX_BITS ->
      Field_ctor vsn idx = MkField vsn idx)
  /\ Field_ctor (vsn + a * 2 ^ VERSION_BITS) (idx + b * 2 ^ INDEX_BITS)
     = Field_ctor vsn idx
  /\ Field_ctor (version f) (index f) = f
  /\ Field_wf (Field_add f a)
  /\ version (Field_add f a) = version f
  /\ index (Field_add f a) = (index f + a) mod 2 ^ INDEX_BITS
  /\ (0 <= a -> index f + a < 2 ^ INDEX_BITS ->
      index (Field_add f a) = index f + a)
  /\ (index f + a = 2 ^ INDEX_BITS -> Field_add f a = MkField (version f) 0)
  /\ Field_add (Field_add f a) b = Field_add f (a + b).
Proof.
  intros [Hfv Hfi]. split; [apply Field_ctor_wf|].
  do 2 (split; [done|]).
  split; [intros Hvs Hix; by apply Field_ctor_small|].
  split; [unfold Field_ctor; by rewrite !Z_mod_plus_full|].
  split; [destruct f; by apply Field_ctor_small|].
  split.
  { split; [done|]. cbn [Field_add index]. apply Z.mod_pos_bound.
    by rewrite two_pow_index. }
  do 2 (split; [done|]).
  split; [intros Ha Hs; rewrite Field_add_small by lia; done|].
  split; [intros Hs; unfold Field_add; by rewrite Hs, Z_mod_same_full|].
  unfold Field_add. cbn [version index]. f_equal.
  rewrite Zplus_mod_idemp_l. f_equal. lia.
Qed.

Lemma Queue_new_lookup j :
  0 <= j < B ->
  blocks Queue_new !! Z.to_nat j = Some (Block_init (if j =? 0 then 0 else NE)).
Proof.
  intros Hj. unfold Queue_new. cbn [blocks].
  destruct (Z.to_nat B) as [|k] eqn:Ek; [lia|].
  destruct (Z.eqb_spec j 0) as [->|Hne]; [done|].
  destruct (Z.to_nat j) as [|i] eqn:Ej; [lia|].
  cbn. apply lookup_replicate. split; [done|lia].
Qed.

(** X2. The constructor builds an empty queue of [B] blocks that is ready
    for use, whatever the valid [N] and [B]: [dequeue] on it returns
    [false] and changes nothing; [enqueue(t)] returns [true] in its first
    turn; the next [dequeue] hands [t] back, and the one after finds the
    queue empty again and changes nothing. *)
Theorem fresh_queue_round_trip (t : T) :
  valid_params ->
  length (blocks Queue_new) = Z.to_nat B
  /\ (forall fuel, dequeue (S fuel) Queue_new = Done (None, Queue_new))
  /\ exists q1 q2,
       (forall fuel, enqueue (S fuel) t Queue_new = Done (true, q1))
       /\ (forall fuel, dequeue (S fuel) q1 = Done (Some t, q2))
       /\ (forall fuel, dequeue (S fuel) q2 = Done (None, q2)).
Proof.
  intros Hv. pose proof (NE_pos Hv) as HNE.
  assert (NE < 2 ^ INDEX_BITS) as Hidx by apply Hv.
  assert (0 < B) as HB by apply Hv. assert (NE <> 0) as HNE0 by lia.
  rewrite two_pow_index in Hidx.
  assert (blocks Queue_new !! 0%nat = Some (Block_init 0)) as Hb0
    by apply (Queue_new_lookup 0 ltac:(lia)).
  assert (forall i, 0 <= i <= NE -> Field_ctor 0 i = MkField 0 i) as Hf.
  { intros i Hi. apply Field_ctor_small; rewrite ?two_pow_version, ?two_pow_index; lia. }
  assert (forall i, 0 <= i < NE -> Field_add (MkField 0 i) 1 = MkField 0 (i + 1))
    as Hadd.
  { intros i Hi. apply Field_add_small. cbn [index]. rewrite two_pow_index. lia. }
  assert (phead Queue_new = MkField 0 0) as Hph by done.
  assert (chead Queue_new = MkField 0 0) as Hch by done.
  split.
  { unfold Queue_new. cbn [blocks].
    destruct (Z.to_nat B) as [|k] eqn:Ek; [lia|].
    cbn [length]. by rewrite length_replicate. }
  split.
  { intros fuel. rewrite (dequeue_turn _ _ (Block_init 0)); rewrite ?Hch; try done.
    cbv zeta. unfold Block_init. cbn [alloc comm resv cons data].
    rewrite Hf by lia. cbn [index].
    destruct (Z.ltb_spec 0 NE); [|lia]. done. }
  set (blk1 := MkBlock (MkField 0 1) (MkField 0 1) (MkField 0 0) (MkField 0 0)
                 (<[0%nat := t]> (replicate (Z.to_nat NE) T_junk))).
  set (blk2 := MkBlock (MkField 0 1) (MkField 0 1) (MkField 0 1) (MkField 0 1)
                 (<[0%nat := T_zero]> (<[0%nat := t]> (replicate (Z.to_nat NE) T_junk)))).
  exists (put_block 0 blk1 Queue_new), (put_block 0 blk2 Queue_new).
  assert (blocks (put_block 0 blk1 Queue_new) !! 0%nat = Some blk1) as Hb1
    by (by eapply lookup_put_block_eq).
  assert (blocks (put_block 0 blk2 Queue_new) !! 0%nat = Some blk2) as Hb2
    by (by eapply lookup_put_block_eq).
  split; [|split].
  - intros fuel. rewrite (enqueue_room _ _ _ (Block_init 0)); rewrite ?Hph; try done.
    all: unfold Block_init; cbn [alloc comm resv cons data index];
      rewrite ?Hf by lia; rewrite ?Hadd by lia; rewrite ?length_replicate;
      cbn [index]; first [done | lia].
  - intros fuel. rewrite (dequeue_turn _ _ blk1); try done.
    cbv zeta. cbn [chead put_block set_blocks blk1 alloc comm resv cons data index].
    rewrite Hch. cbn [index version].
    destruct (Z.ltb_spec 0 NE); [|lia].
    rewrite Z.eqb_refl, andb_false_r. cbn [Z.eqb].
    change (Z.max 0 (0 + 1)) with 1. rewrite Hf by lia.
    erewrite consume_entry_eq;
      [|by eapply lookup_put_block_eq|done|done|].
    2:{ cbn [set_cursor data index]. apply list_lookup_insert_eq.
        rewrite length_replicate. lia. }
    change (Z.to_nat 0) with 0%nat. rewrite put_block_twice.
    unfold blk1, blk2. cbn [set_cursor alloc comm resv cons data index].
    rewrite (Hadd 0) by lia. change (Z.to_nat 0) with 0%nat.
    by rewrite ?put_block_twice.
  - intros fuel. rewrite (dequeue_turn _ _ blk2); try done.
    cbv zeta. cbn [chead put_block set_blocks blk2 alloc comm resv cons data index].
    rewrite Hch. cbn [index version].
    destruct (Z.ltb_spec 1 NE); [done|].
    assert (0 <= (0 + 1) mod B < B) as Hnb by (apply Z.mod_pos_bound; lia).
    assert (exists nb, blocks (put_block 0 blk2 Queue_new)
                         !! Z.to_nat ((0 + 1) mod B) = Some nb
                       /\ version (comm nb) = 0) as (nb & Hnb1 & Hnb2).
    { destruct (Z.eq_dec ((0 + 1) mod B) 0) as [->|Hne].
      - by exists blk2.
      - eexists. split.
        + rewrite lookup_put_block_ne by lia. by apply Queue_new_lookup.
        + destruct (Z.eqb_spec ((0 + 1) mod B) 0); [done|].
          unfold Block_init. cbn [comm]. by rewrite Hf by lia. }
    erewrite (advance_chead_eq _ _ _ nb HNE0 HB); [|exact Hnb1].
    cbn [version]. by rewrite Hnb2.
Qed.

(** ** The debugging printer *)

Lemma print_slots_eq q i blk :
  blocks q !! Z.to_nat i = Some blk -> 0 <= i ->
  forall n k, (k + n = length (data blk))%nat ->
    print_slots i (Z.of_nat k) n q
    = Done (flat_map (fun x => [Val x; Str " "%string]) (drop k (data blk)), q).
Proof.
  intros Hb Hge. induction n as [|n IH]; intros k Hk.
  - cbn [print_slots]. by rewrite drop_ge by lia.
  - destruct (lookup_lt_is_Some_2 (data blk) k) as [x Hx]; [lia|].
    cbn [print_slots]. rewrite (bind_load_data _ _ _ blk x);
      rewrite ?Nat2Z.id; try first [done | lia].
    unfold bind. replace (Z.of_nat k + 1) with (Z.of_nat (S k)) by lia.
    rewrite IH by lia. by rewrite (drop_S _ _ _ Hx).
Qed.

Lemma print_block_eq q i blk :
  blocks q !! i = Some blk -> length (data blk) = Z.to_nat NE ->
  print_block (Z.of_nat i) q = Done (shown i blk, q).
Proof.
  intros Hb Hlen. unfold print_block.
  rewrite (bind_load _ _ _ blk) by (rewrite ?Nat2Z.id; first [done | lia]).
  rewrite (bind_load _ _ _ blk) by (rewrite ?Nat2Z.id; first [done | lia]).
  unfold bind.
  rewrite (print_slots_eq q (Z.of_nat i) blk) with (k := 0%nat);
    rewrite ?Nat2Z.id; try first [done | lia].
Qed.

Lemma print_blocks_eq q :
  (forall i blk, blocks q !! i = Some blk -> length (data blk) = Z.to_nat NE) ->
  forall n k, (k + n = length (blocks q))%nat ->
    print_blocks (Z.of_nat k) n q
    = Done (concat (imap (fun j => shown (k + j)) (drop k (blocks q))), q).
Proof.
  intros Hshape. induction n as [|n IH]; intros k Hk.
  - cbn [print_blocks]. by rewrite drop_ge by lia.
  - destruct (lookup_lt_is_Some_2 (blocks q) k) as [blk Hb]; [lia|].
    cbn [print_blocks]. unfold bind.
    rewrite (print_block_eq q k blk Hb (Hshape _ _ Hb)).
    replace (Z.of_nat k + 1) with (Z.of_nat (S k)) by lia.
    rewrite IH by lia. rewrite (drop_S _ _ _ Hb). cbn [imap concat].
    rewrite Nat.add_0_r. unfold ret. do 4 f_equal.
    apply imap_ext. intros j y _. unfold compose.
    by rewrite Nat.add_succ_r.
Qed.

(** X14. [printData] on a queue of [B] blocks of [NE] slots, as every queue
    is between two calls: every read is in bounds, the queue is left as it
    was, and the output is, block after block in ring order, the allocate
    index, the commit index, the number of the block counted from 1 and the
    [NE] slots of the block in order, each followed by a blank. *)
Theorem printData_spec (q : Queue) :
  length (blocks q) = Z.to_nat B ->
  (forall i blk, blocks q !! i = Some blk -> length (data blk) = Z.to_nat NE) ->
  printData q = Done (concat (imap shown (blocks q)), q).
Proof.
  intros Hsize Hshape. unfold printData.
  change 0 with (Z.of_nat 0).
  rewrite (print_blocks_eq q Hshape (Z.to_nat B) 0) by lia. done.
Qed.

(** ** The busy waits of the driver *)

Lemma enqueue_undefined_mono fuel : forall t q,
  enqueue fuel t q = Undefined -> enqueue (S fuel) t q = Undefined.
Proof.
  induction fuel as [|fuel IH]; intros t q; [done|].
  rewrite (enqueue_unfold (S fuel)), (enqueue_unfold fuel).
  destruct (allocate_entry (index (phead q)) q) as [[[st idx] q1]| |]; [|done|done].
  destruct st; try done.
  all: destruct (advance_phead (phead q) q1) as [[[] q2]| |]; try done; apply IH.
Qed.

Lemma enqueue_undefined_more k fuel t q :
  enqueue fuel t q = Undefined -> enqueue (k + fuel) t q = Undefined.
Proof. intros H. induction k; [done|]. by apply enqueue_undefined_mono. Qed.

(** A writer alone on a queue that refuses and does not change spins for
    ever. *)
Lemma spin_enqueue_stuck x q fuel0 :
  enqueue fuel0 x q = Done (false, q) ->
  forall fuel, spin_enqueue fuel x q = OutOfFuel.
Proof.
  intros Hd. induction fuel as [|fuel IH]; [done|].
  cbn [spin_enqueue]. unfold bind.
  destruct (enqueue (S fuel) x q) as [[ok q1]| |] eqn:E; [| |done].
  - apply (enqueue_more fuel0) in E. apply (enqueue_more (S fuel)) in Hd.
    rewrite Nat.add_comm in E. rewrite E in Hd. by injection Hd as -> ->.
  - apply (enqueue_undefined_more fuel0) in E. apply (enqueue_more (S fuel)) in Hd.
    rewrite Nat.add_comm in E. congruence.
Qed.

Lemma map_replicate {A C} (f : A -> C) n x :
  map f (replicate n x) = replicate n (f x).
Proof. induction n as [|n IH]; [done|]. cbn. by rewrite IH. Qed.

(** When [n] calls of [enqueue] in a row are accepted, [writer] is those
    [n] calls. *)
Lemma writer_run fuel n x : forall q q',
  run (S fuel) (replicate n (Enq x)) q = Done (replicate n (EnqRet x true), q') ->
  writer (S fuel) n x q = Done (tt, q').
Proof.
  induction n as [|n IH]; intros q q' Hrun.
  - by injection Hrun as <-.
  - cbn [replicate run call] in Hrun. unfold bind at 1 2 in Hrun.
    destruct (enqueue (S fuel) x q) as [[ok q1]| |] eqn:E; [|done|done].
    unfold bind, ret in Hrun.
    destruct (run (S fuel) (replicate n (Enq x)) q1) as [[es q2]| |] eqn:E2;
      [|done|done].
    injection Hrun as -> -> ->.
    cbn [writer spin_enqueue]. unfold bind at 1 2. rewrite E. unfold ret.
    by apply IH.
Qed.

Lemma writer_app fuel n m x q :
  writer fuel (n + m) x q
  = match writer fuel n x q with
    | Done (_, q1) => writer fuel m x q1
    | Undefined => Undefined
    | OutOfFuel => OutOfFuel
    end.
Proof.
  revert q. induction n as [|n IH]; intros q; [done|].
  cbn [Nat.add writer]. unfold bind.
  destruct (spin_enqueue fuel x q) as [[[] q1]| |]; [|done|done]. apply IH.
Qed.

(** What [reader] answers when the values [xs] are there to be taken. *)
Lemma reader_drain T_differs xs : forall q q',
  (forall fuel,
     run (3 + fuel) (replicate (length xs) Deq) q
     = Done (map (fun x => DeqRet (Some x)) xs, q')) ->
  forall n i, (n <= length xs)%nat ->
    exists q'', forall fuel,
      reader T_differs (3 + fuel) n i q
      = Done (expects T_differs i (take n xs), q'').
Proof.
  induction xs as [|x xs IH]; intros q q' Hrun n i Hn.
  - assert (n = 0%nat) as -> by (cbn [length] in Hn; lia). by exists q.
  - destruct n as [|n]; [by exists q|].
    assert (exists q1, (forall fuel, dequeue (3 + fuel) q = Done (Some x, q1))
              /\ forall fuel,
                   run (3 + fuel) (replicate (length xs) Deq) q1
                   = Done (map (fun x => DeqRet (Some x)) xs, q'))
      as (q1 & Hd & Hrest).
    { pose proof (Hrun 0%nat) as H0. cbn [length replicate run call] in H0.
      unfold bind at 1 2 in H0.
      destruct (dequeue (3 + 0) q) as [[r q1]| |] eqn:E; [|done|done].
      exists q1. assert (r = Some x) as ->.
      { unfold bind, ret in H0.
        destruct (run (3 + 0) (replicate (length xs) Deq) q1) as [[es q2]| |];
          [|done|done]. cbn [map] in H0. by injection H0 as -> _. }
      assert (forall fuel, dequeue (3 + fuel) q = Done (Some x, q1)) as Hd.
      { intros fuel. apply (dequeue_more fuel) in E.
        by rewrite Nat.add_comm in E. }
      split; [done|]. intros fuel. pose proof (Hrun fuel) as Hf.
      cbn [length replicate run call] in Hf. unfold bind at 1 2 in Hf.
      rewrite Hd in Hf. unfold bind, ret in Hf.
      destruct (run (3 + fuel) (replicate (length xs) Deq) q1) as [[es q2]| |];
        [|done|done]. cbn [map] in Hf. by injection Hf as -> ->. }
    cbn [length] in Hn.
    destruct (IH q1 q' Hrest n (i + 1)) as (q2 & Hread); [lia|].
    cbn [take expects].
    destruct (T_differs x i) eqn:Ediff.
    + exists q1. intros fuel. pose proof (Hd fuel) as Hdf.
      cbn [reader Nat.add spin_dequeue] in *.
      unfold bind at 1 2. rewrite Hdf. unfold ret. by rewrite Ediff.
    + exists q2. intros fuel. pose proof (Hd fuel) as Hdf.
      cbn [reader Nat.add spin_dequeue] in *.
      unfold bind at 1 2. rewrite Hdf. unfold ret. rewrite Ediff.
      apply (Hread fuel).
Qed.

(** X19. A queue of capacity zero passes both [static_assert]s and cannot
    be used: [NE] is zero, [dequeue] returns [false], and the first call of
    [enqueue] finds block 0 full, advances the producer head and takes the
    remainder of the head index by [NE], a remainder by zero. *)
Theorem zero_capacity_undefined (t : T) (fuel : nat) :
  N = 0 -> 0 < B ->
  (NE < 2 ^ INDEX_BITS /\ N mod B = 0)
  /\ dequeue (S fuel) Queue_new = Done (None, Queue_new)
  /\ enqueue (S fuel) t Queue_new = Undefined.
Proof.
  intros HN HB.
  assert (NE = 0) as HNE by (unfold NE; rewrite HN; apply Z.div_0_l; lia).
  assert (blocks Queue_new !! 0%nat = Some (Block_init 0)) as Hb0
    by apply (Queue_new_lookup 0 ltac:(lia)).
  assert (0 <= (0 + 1) mod B < B) as Hnb by (apply Z.mod_pos_bound; lia).
  assert (blocks Queue_new !! Z.to_nat ((0 + 1) mod B) = Some (Block_init 0))
    as Hb1.
  { rewrite (Queue_new_lookup _ Hnb). rewrite HNE. by destruct (_ =? _). }
  assert (Block_init 0
          = MkBlock (MkField 0 0) (MkField 0 0) (MkField 0 0) (MkField 0 0) [])
    as Hblk by (unfold Block_init; by rewrite HNE).
  rewrite Hblk in Hb0, Hb1.
  split; [split; [rewrite HNE; reflexivity|rewrite HN; apply Z.mod_0_l; lia]|].
  split.
  - erewrite dequeue_turn; [|exact Hb0|done]. cbv zeta. cbn [resv index].
    rewrite HNE. cbn [Z.ltb Z.compare].
    unfold advance_chead. cbv zeta. cbn [chead Queue_new index].
    change (Field_ctor 0 0) with (MkField 0 0). cbn [index version].
    erewrite bind_load; [|exact Hb1|lia]. done.
  - erewrite enqueue_full; [|exact Hb0|done|cbn [alloc index]; lia].
    assert (advance_phead (phead Queue_new) Queue_new = Undefined) as ->; [|done].
    unfold advance_phead. cbv zeta. cbn [phead Queue_new index].
    change (Field_ctor 0 0) with (MkField 0 0). cbn [index version].
    erewrite bind_load; [|exact Hb1|lia]. cbv beta. cbn [get_cursor cons version index].
    rewrite HNE. cbn [Z.ltb Z.eqb Z.compare negb andb orb].
    erewrite bind_load; [|exact Hb1|lia]. cbv beta.
    erewrite bind_raise; [|exact Hb1|lia].
    erewrite bind_load; [|by eapply lookup_put_block_eq|lia]. cbv beta.
    erewrite bind_raise; [|by eapply lookup_put_block_eq|lia].
    unfold bind at 1. unfold head_next. rewrite HNE. done.
Qed.

(** ** From the two calls to executions

    Whatever describes the queue between two calls, once [enqueue] and
    [dequeue] are known to keep it and to behave as a first in, first out
    buffer on it, so do all executions. *)

Section Generic.

Variable G : Type.
Variable I : G -> Queue -> Prop.
Variable ghist : G -> list T.
Variable gcount : G -> nat.
Variable glap : G -> Z.
Variable turns : nat.

Hypothesis Henq : forall g q t,
  I g q -> glap g + 1 < 2 ^ VERSION_BITS ->
  (forall fuel, enqueue (turns + fuel) t q = Undefined)
  \/ exists r q' g',
       (forall fuel, enqueue (turns + fuel) t q = Done (r, q'))
       /\ I g' q' /\ gcount g' = gcount g /\ glap g' <= glap g + 1
       /\ ghist g' = ghist g ++ (if (r : bool) then [t] else []).

Hypothesis Hdeq : forall g q,
  I g q -> glap g + 1 < 2 ^ VERSION_BITS ->
  exists r q' g',
    (forall fuel, dequeue (turns + fuel) q = Done (r, q'))
    /\ I g' q' /\ glap g' = glap g /\ ghist g' = ghist g
    /\ match r with
       | Some x => ghist g !! gcount g = Some x /\ gcount g' = S (gcount g)
       | None => gcount g = length (ghist g) /\ gcount g' = gcount g
       end.

Lemma generic_run ops : forall g q fuel es q',
  I g q -> (gcount g <= length (ghist g))%nat ->
  glap g + Z.of_nat (length ops) + 1 < 2 ^ VERSION_BITS ->
  run fuel ops q = Done (es, q') ->
  exists g',
    I g' q' /\ (gcount g' <= length (ghist g'))%nat
    /\ glap g' <= glap g + Z.of_nat (length ops)
    /\ ghist g' = ghist g ++ accepted es
    /\ take (gcount g') (ghist g') = take (gcount g) (ghist g) ++ delivered es.
Proof.
  induction ops as [|o ops IH]; intros g q fuel es q' Hi Hc Hbound Hrun.
  - injection Hrun as <- <-. exists g. cbn [accepted delivered length].
    rewrite !app_nil_r. do 2 (split; [done|]). split; [lia|done].
  - cbn [run length] in *. unfold bind at 1 in Hrun.
    destruct (call fuel o q) as [[e q1]| |] eqn:Ecall; [|done|done].
    unfold bind, ret in Hrun.
    destruct (run fuel ops q1) as [[es1 q2]| |] eqn:Erun; [|done|done].
    injection Hrun as <- <-.
    assert (exists g1,
              I g1 q1 /\ (gcount g1 <= length (ghist g1))%nat
              /\ glap g1 <= glap g + 1
              /\ ghist g1 = ghist g ++ accepted [e]
              /\ take (gcount g1) (ghist g1)
                 = take (gcount g) (ghist g) ++ delivered [e])
      as (g1 & Hi1 & Hc1 & Hl1 & Hh1 & Ht1).
    { destruct o as [t|]; cbn [call] in Ecall; unfold bind, ret in Ecall.
      - destruct (enqueue fuel t q) as [[r q0]| |] eqn:Eenq; [|done|done].
        injection Ecall as <- <-.
        apply (enqueue_more turns) in Eenq.
        destruct (Henq g q t Hi) as [Hu|(r' & q' & g1 & Hd & Hi1 & Hc1 & Hl1 & Hh1)];
          [lia|by rewrite (Hu fuel) in Eenq|].
        rewrite (Hd fuel) in Eenq. injection Eenq as -> ->.
        exists g1. split; [done|]. rewrite Hc1, Hh1, length_app.
        split; [lia|]. split; [done|]. split; [by destruct r|].
        rewrite take_app_le by done. destruct r; cbn [delivered]; by rewrite app_nil_r.
      - destruct (dequeue fuel q) as [[r q0]| |] eqn:Edeq; [|done|done].
        injection Ecall as <- <-.
        apply (dequeue_more turns) in Edeq.
        destruct (Hdeq g q Hi) as (r' & q' & g1 & Hd & Hi1 & Hl1 & Hh1 & Hr); [lia|].
        rewrite (Hd fuel) in Edeq. injection Edeq as -> ->.
        exists g1. split; [done|]. rewrite Hh1.
        destruct r as [x|]; cbn [accepted delivered].
        + destruct Hr as [Hx ->]. pose proof (lookup_lt_Some _ _ _ Hx).
          split; [lia|]. split; [lia|]. split; [by rewrite app_nil_r|].
          by apply take_S_r.
        + destruct Hr as [_ ->]. rewrite !app_nil_r. split; [done|].
          split; [lia|done]. }
    destruct (IH g1 q1 fuel es1 q2 Hi1 Hc1) as (g2 & Hi2 & Hc2 & Hl2 & Hh2 & Ht2);
      [lia|done|].
    exists g2. split; [done|]. split; [done|]. split; [lia|]. split.
    + rewrite Hh2, Hh1, <- app_assoc. f_equal.
      destruct e as [t []|r]; cbn [accepted]; done.
    + rewrite Ht2, Ht1, <- app_assoc. f_equal.
      destruct e as [t []|[x|]]; cbn [delivered]; done.
Qed.

Lemma generic_drain k : forall g q,
  I g q -> glap g + 1 < 2 ^ VERSION_BITS ->
  (gcount g + k = length (ghist g))%nat ->
  exists q' g',
    (forall fuel,
       run (turns + fuel) (replicate k Deq) q
       = Done (map (fun x => DeqRet (Some x)) (drop (gcount g) (ghist g)), q'))
    /\ I g' q' /\ ghist g' = ghist g /\ glap g' = glap g
    /\ gcount g' = length (ghist g').
Proof.
  induction k as [|k IH]; intros g q Hi Hbound Hk.
  - exists q, g. rewrite drop_ge by lia. split; [done|].
    do 3 (split; [done|]). lia.
  - destruct (Hdeq g q Hi Hbound) as (r & q1 & g1 & Hd & Hi1 & Hl1 & Hh1 & Hr).
    destruct r as [x|]; [|lia].
    destruct Hr as [Hx Hc1].
    destruct (IH g1 q1 Hi1) as (q2 & g2 & Hrun & Hi2 & Hh2 & Hl2 & Hc2).
    { lia. }
    { rewrite Hh1. lia. }
    exists q2, g2. split.
    { intros fuel. cbn [replicate run call]. unfold bind, ret.
      rewrite Hd, Hrun, Hc1, Hh1. by rewrite (drop_S _ _ _ Hx). }
    split; [done|]. rewrite Hh2, Hl2, Hl1, Hh1.
    do 2 (split; [done|]). by rewrite Hc2, Hh2, Hh1.
Qed.

(** First in, first out on every execution made of complete calls. *)
Lemma generic_fifo g0 fuel ops es q :
  I g0 Queue_new -> gcount g0 = 0%nat -> ghist g0 = [] -> glap g0 = 0 ->
  Z.of_nat (length ops) + 1 < 2 ^ VERSION_BITS ->
  run fuel ops Queue_new = Done (es, q) ->
  exists pending q',
    accepted es = delivered es ++ pending
    /\ (forall fuel',
         run (turns + fuel') (replicate (length pending) Deq) q
         = Done (map (fun x => DeqRet (Some x)) pending, q'))
    /\ (forall fuel', exists q'', dequeue (turns + fuel') q' = Done (None, q'')).
Proof.
  intros Hi0 Hc0 Hh0 Hl0 Hbound Hrun.
  destruct (generic_run ops g0 Queue_new fuel es q Hi0) as
    (g & Hi & Hc & Hl & Hh & Ht); [rewrite Hc0; lia|lia|done|].
  rewrite Hh0, Hc0 in *. cbn [app take] in Ht, Hh.
  destruct (generic_drain (length (ghist g) - gcount g) g q Hi)
    as (q' & g' & Hdrain & Hi' & Hh' & Hl' & Hc'); [lia|lia|].
  exists (drop (gcount g) (ghist g)), q'.
  split; [by rewrite <- Hh, <- Ht, take_drop|].
  split; [by rewrite length_drop|].
  destruct (Hdeq g' q' Hi') as (r & q2 & g2 & Hd & _ & _ & _ & Hr); [lia|].
  destruct r as [x|].
  - destruct Hr as [Hx _]. apply lookup_lt_Some in Hx. lia.
  - intros fuel'. by exists q2.
Qed.

End Generic.

(** ** Queues with at most as many blocks as slots per block

    The lemmas of this section hold as long as the head, when it wraps,
    wraps at the end of the ring: [NE = B] is asked for only where a head
    stands on the last block. *)

Section Tall.

Hypothesis Hv : valid_params.

Ltac coords :=
  unfold live, lex_le, lex_lt, coords_ok in *;
  cbn [pv pi pk cv ci ck hist] in *; lia.

Lemma PF_at g j : j = pi g -> PF g j = MkField (gen (pv g) j) (pk g).
Proof. intros ->. unfold PF. rewrite Z.ltb_irrefl, Z.eqb_refl. done. Qed.

Lemma CF_at g j : j = ci g -> CF g j = MkField (gen (cv g) j) (ck g).
Proof. intros ->. unfold CF. rewrite Z.ltb_irrefl, Z.eqb_refl. done. Qed.

Lemma PF_other g g' j :
  pv g' = pv g -> pi g' = pi g -> j <> pi g -> PF g' j = PF g j.
Proof.
  intros Hpv Hpi Hj. unfold PF. rewrite Hpv, Hpi.
  destruct (Z.ltb_spec j (pi g)); [done|].
  by destruct (Z.eqb_spec j (pi g)).
Qed.

Lemma CF_other g g' j :
  cv g' = cv g -> ci g' = ci g -> j <> ci g -> CF g' j = CF g j.
Proof.
  intros Hcv Hci Hj. unfold CF. rewrite Hcv, Hci.
  destruct (Z.ltb_spec j (ci g)); [done|].
  by destruct (Z.eqb_spec j (ci g)).
Qed.

Lemma PF_same g g' j :
  pv g' = pv g -> pi g' = pi g -> pk g' = pk g -> PF g' j = PF g j.
Proof. intros Hpv Hpi Hpk. unfold PF. by rewrite Hpv, Hpi, Hpk. Qed.

Lemma CF_same g g' j :
  cv g' = cv g -> ci g' = ci g -> ck g' = ck g -> CF g' j = CF g j.
Proof. intros Hcv Hci Hck. unfold CF. by rewrite Hcv, Hci, Hck. Qed.

Lemma block_rep_mono g g' j blk :
  block_rep g j blk ->
  PF g' j = PF g j -> CF g' j = CF g j ->
  (forall v s, 0 <= s < NE -> live g' v j s -> live g v j s) ->
  hist g `prefix_of` hist g' ->
  block_rep g' j blk.
Proof.
  intros (Ha & Hc & Hr & Hcs & Hlen & Hdata) HP HC Hlive [k Hk].
  unfold block_rep. rewrite HP, HC. repeat split; try done.
  intros v s Hs Hl. destruct (Hdata v s Hs (Hlive v s Hs Hl)) as (x & Hx & Hh).
  exists x. split; [done|]. rewrite Hk. by apply lookup_app_l_Some.
Qed.

Lemma blocks_rep_put g g' q i blk' :
  0 <= i < B ->
  (forall j, 0 <= j < B ->
     exists blk, blocks q !! Z.to_nat j = Some blk /\ block_rep g j blk) ->
  block_rep g' i blk' ->
  (forall j blk, 0 <= j < B -> j <> i -> block_rep g j blk -> block_rep g' j blk) ->
  forall j, 0 <= j < B ->
    exists blk, blocks (put_block (Z.to_nat i) blk' q) !! Z.to_nat j = Some blk
                /\ block_rep g' j blk.
Proof.
  intros Hi Hall Hnew Hframe j Hj.
  destruct (Z.eq_dec j i) as [->|Hne].
  - exists blk'. split; [|done].
    destruct (Hall i Hi) as (blk & Hb & _). by eapply lookup_put_block_eq.
  - destruct (Hall j Hj) as (blk & Hb & Hrep). exists blk. split.
    + rewrite lookup_put_block_ne by lia. done.
    + by apply Hframe.
Qed.

Lemma lin_nonneg v j s : 0 <= v -> 0 <= j -> 0 <= s -> 0 <= lin v j s.
Proof.
  intros. unfold lin. pose proof (NE_pos Hv). destruct Hv as (_ & _ & HB & _).
  apply Z.add_nonneg_nonneg; [|done].
  apply Z.mul_nonneg_nonneg; [|lia].
  apply Z.add_nonneg_nonneg; [|done]. apply Z.mul_nonneg_nonneg; lia.
Qed.

(** A call of [enqueue] on a block with room. *)
Lemma produce_step g q t :
  Rep0 g q -> pk g < NE ->
  exists q',
    (forall fuel, enqueue (S fuel) t q = Done (true, q'))
    /\ Rep (MkGhost (pv g) (pi g) (pk g + 1) (cv g) (ci g) (ck g) (hist g ++ [t])) q'.
Proof.
  intros (Hph & Hch & Hco & Hlen & Hblocks) Hroom.
  pose proof (NE_pos Hv) as HNE.
  assert (NE < 2 ^ INDEX_BITS) as Hidx by apply Hv.
  assert (0 <= pi g < B) as Hpi by apply Hco.
  assert (0 <= pk g) as Hpk by apply Hco.
  destruct (Hblocks _ Hpi) as (blk & Hb & Ha & Hc & Hr & Hcs & Hdlen & Hdata).
  rewrite PF_at in Ha, Hc by done.
  eexists. split.
  { intros fuel.
    rewrite (enqueue_room q fuel t blk); rewrite ?Hph, ?Ha, ?Hdlen;
      cbn [index]; first [done | lia]. }
  rewrite ?Ha, ?Hc, ?Hph. cbn [index].
  rewrite Field_add_small by (cbn [index]; lia). cbn [version index].
  split; [|cbn [pk pv pi]; lia].
  split; [done|]. split; [done|]. split; [coords|]. split.
  { cbn [hist pv pi pk]. rewrite length_app. cbn [length]. unfold lin in *. lia. }
  apply (blocks_rep_put g); try done.
  - unfold block_rep. cbn [alloc comm resv cons data].
    rewrite PF_at, length_insert by done. cbn [pv pi pk].
    rewrite Hr, Hcs. repeat split; try done.
    intros v s Hs Hl.
    destruct (Z.eq_dec s (pk g)) as [->|Hne].
    + exists t. split.
      * apply list_lookup_insert_eq. lia.
      * assert (v = pv g) as -> by coords.
        cbn [hist]. rewrite <- Hlen, Nat2Z.id.
        by rewrite lookup_app_r, Nat.sub_diag by lia.
    + destruct (Hdata v s Hs) as (x & Hx & Hh); [coords|].
      exists x. split.
      * rewrite list_lookup_insert_ne by lia. done.
      * cbn [hist]. by apply lookup_app_l_Some.
  - intros j blkj Hj Hne Hrep. apply (block_rep_mono g); try done.
    + by apply PF_other.
    + intros v s Hs Hl. coords.
    + by apply prefix_app_r.
Qed.

Lemma next_pos_total v p : 0 <= p < B -> exists v' p', next_pos v p v' p'.
Proof.
  intros Hp. unfold next_pos.
  destruct (Z.eq_dec (p + 1) B).
  - exists (v + 1), 0. lia.
  - exists v, (p + 1). lia.
Qed.

Lemma nb_index_next v p v' p' :
  next_pos v p v' p' -> 0 <= p -> (p + 1) mod B = p'.
Proof.
  intros [(? & _ & ->)|(Hb & _ & ->)] Hp.
  - apply Z.mod_small. lia.
  - rewrite Hb. apply Z_mod_same_full.
Qed.

Lemma head_step_next v p v' p' :
  next_pos v p v' p' -> B <= NE -> (p + 1 = B -> NE = B) ->
  0 <= p -> 0 <= v -> v + 1 < 2 ^ VERSION_BITS ->
  head_step (MkField v p) = MkField v' p'.
Proof.
  intros Hn Hge Hsq Hp Hv0 Hv1. pose proof (NE_pos Hv) as HNE.
  assert (NE < 2 ^ INDEX_BITS) as Hidx by apply Hv.
  unfold head_step.
  assert (Field_add (MkField v p) 1 = MkField v (p + 1)) as ->.
  { apply Field_add_small. cbn [index]. unfold next_pos in Hn. lia. }
  cbn [version index].
  destruct Hn as [(? & -> & ->)|(Hb & -> & ->)].
  - destruct (Z.leb_spec NE (p + 1)); [lia|done].
  - specialize (Hsq Hb). destruct (Z.leb_spec NE (p + 1)); [|lia].
    rewrite Hb, <- Hsq, Z_mod_same_full, Z.mod_0_l by (rewrite two_pow_index; lia).
    by rewrite Z.mod_small by lia.
Qed.

Lemma lin_next v p v' p' :
  next_pos v p v' p' -> lin v' p' 0 = lin v p NE.
Proof.
  unfold lin. intros [(_ & -> & ->)|(Hb & -> & ->)]; [ring|].
  assert (p = B - 1) as -> by lia. ring.
Qed.

(** The test of [advance_phead] against the abstract positions. *)
Lemma reusable_iff g v' p' :
  coords_ok g -> pk g = NE -> next_pos (pv g) (pi g) v' p' ->
  ~ not_reusable (CF g p') (MkField (pv g) (pi g))
  <-> coords_ok (MkGhost v' p' 0 (cv g) (ci g) (ck g) (hist g)).
Proof.
  intros Hco Hfull Hn. pose proof (NE_pos Hv) as HNE.
  unfold not_reusable, CF, gen, next_pos, coords_ok in *.
  cbn [pv pi pk cv ci ck hist version index] in *.
  destruct (Z.ltb_spec p' (ci g)), (Z.eqb_spec p' (ci g)), (Z.eqb_spec p' 0);
    cbn [version index]; lia.
Qed.

Lemma PF_stamped g v' p' :
  coords_ok g -> pk g = NE -> next_pos (pv g) (pi g) v' p' ->
  raise (MkField (pv g + 1) 0) (PF g p') = MkField (gen v' p') 0.
Proof.
  intros Hco Hfull Hn. pose proof (NE_pos Hv) as HNE.
  unfold raise, PF, gen, next_pos, coords_ok in *.
  destruct (Z.ltb_spec p' (pi g)), (Z.eqb_spec p' (pi g)), (Z.eqb_spec p' 0);
    cbn [version index];
    match goal with
    | |- context [?a >? ?b] => destruct (Z.gtb_spec a b)
    end; try lia; f_equal; lia.
Qed.

Lemma PF_advance_other g v' p' j g1 :
  coords_ok g -> pk g = NE -> next_pos (pv g) (pi g) v' p' ->
  pv g1 = v' -> pi g1 = p' ->
  0 <= j < B -> j <> p' ->
  PF g1 j = PF g j.
Proof.
  intros Hco Hfull Hn Hv1 Hp1 Hj Hne. pose proof (NE_pos Hv) as HNE.
  unfold PF, gen, next_pos, coords_ok in *. rewrite Hv1, Hp1, Hfull.
  destruct (Z.ltb_spec j p'), (Z.eqb_spec j p'), (Z.eqb_spec j 0),
    (Z.ltb_spec j (pi g)), (Z.eqb_spec j (pi g));
    try lia; f_equal; lia.
Qed.

(** [advance_phead] on a full block: either the next block is still in
    use and nothing changes, or the producer enters it. *)
Lemma padvance_step g q v' p' :
  Rep0 g q -> pk g = NE -> pv g + 1 < 2 ^ VERSION_BITS ->
  B <= NE -> (pi g + 1 = B -> NE = B) ->
  next_pos (pv g) (pi g) v' p' ->
  let g1 := MkGhost v' p' 0 (cv g) (ci g) (ck g) (hist g) in
  (~ coords_ok g1
   /\ exists st, advance_phead (phead q) q = Done (st, q) /\ st <> SUCCESS)
  \/ (coords_ok g1
      /\ exists q1, advance_phead (phead q) q = Done (SUCCESS, q1) /\ Rep0 g1 q1).
Proof.
  intros (Hph & Hch & Hco & Hlen & Hblocks) Hfull Hbound Hge Hsq Hn g1.
  pose proof (NE_pos Hv) as HNE. assert (NE <> 0) as HNE0 by lia.
  assert (0 < B) as HB by apply Hv.
  assert (0 <= pi g < B) as Hpi by apply Hco.
  assert (0 <= pv g) as Hpv by (unfold coords_ok in Hco; lia).
  assert (0 <= p' < B) as Hp' by (unfold next_pos in Hn; lia).
  pose proof (nb_index_next _ _ _ _ Hn (proj1 Hpi)) as Hnb.
  destruct (Hblocks _ Hp') as (nb & Hb & Ha & Hc & Hr & Hcs & Hdlen & Hdata).
  pose proof (advance_phead_eq q (phead q) nb HNE0 HB) as Heq.
  rewrite Hph in Heq |- *. cbn [index version] in Heq. rewrite Hnb in Heq.
  specialize (Heq Hb).
  pose proof (reusable_iff g v' p' Hco Hfull Hn) as Hiff. fold g1 in Hiff.
  pose proof (not_reusable_test (cons nb) (MkField (pv g) (pi g))) as Htest.
  cbn [version index] in Htest. rewrite <- Hcs in Hiff.
  destruct (_ || _) eqn:E.
  - left. split; [intros Hok; apply Hiff in Hok; apply Hok; by apply Htest|].
    eexists. split; [exact Heq|].
    by destruct (index (resv nb) =? index (cons nb)).
  - right. assert (coords_ok g1) as Hco1.
    { apply Hiff. intros Hnr. apply Htest in Hnr. congruence. }
    split; [done|]. eexists. split; [exact Heq|].
    split; [cbn [phead set_phead]; apply head_step_next; first [done|lia]|].
    split; [done|]. split; [done|]. split.
    { cbn [hist pv pi pk g1]. rewrite Hlen, Hfull. symmetry. by apply lin_next. }
    intros j Hj. cbn [blocks set_phead].
    apply (blocks_rep_put g g1); try done.
    + unfold block_rep, stamp_producer. cbn [alloc comm resv cons data version].
      rewrite Field_ctor_small by (rewrite ?two_pow_index; lia).
      rewrite Ha, Hc, (PF_stamped _ _ _ Hco Hfull Hn), Hr, Hcs.
      rewrite (PF_at g1) by done.
      repeat split; try done.
      intros v s Hs Hl. apply Hdata; [done|].
      clear - Hl Hn Hfull Hs Hp' Hco. subst g1. unfold next_pos in Hn. coords.
    + intros i blk Hi Hne Hrep. apply (block_rep_mono g); try done.
      * by apply (PF_advance_other g v' p').
      * intros v s Hs Hl.
        clear - Hl Hn Hfull Hs Hi Hco. subst g1. unfold next_pos in Hn. coords.
Qed.

(** A call of [enqueue] takes at most two turns of its loop; when it
    returns [false] the queue is as it was. *)
Lemma enqueue_spec g q t :
  Rep g q -> pv g + 1 < 2 ^ VERSION_BITS ->
  B <= NE -> (pk g = NE -> pi g + 1 = B -> NE = B) ->
  exists r q' g',
    (forall fuel, enqueue (S (S fuel)) t q = Done (r, q')) /\ Rep g' q'
    /\ cv g' = cv g /\ ci g' = ci g /\ ck g' = ck g
    /\ pv g <= pv g' <= pv g + 1
    /\ (r = true ->
         hist g' = hist g ++ [t]
         /\ ((pk g < NE /\ pv g' = pv g /\ pi g' = pi g /\ pk g' = pk g + 1)
             \/ (pk g = NE /\ next_pos (pv g) (pi g) (pv g') (pi g')
                 /\ pk g' = 1)))
    /\ (r = false ->
         q' = q /\ g' = g /\ pk g = NE
         /\ exists v' p', next_pos (pv g) (pi g) v' p'
              /\ ~ coords_ok (MkGhost v' p' 0 (cv g) (ci g) (ck g) (hist g))).
Proof.
  intros [Hrep0 Horigin] Hbound Hge Hsq.
  pose proof Hrep0 as (Hph & Hch & Hco & Hlen & Hblocks).
  assert (0 <= pi g < B) as Hpi by apply Hco.
  assert (0 <= pk g <= NE) as Hpk by apply Hco.
  destruct (Z.eq_dec (pk g) NE) as [Hfull|Hroom].
  - destruct (Hblocks _ Hpi) as (blk & Hb & Ha & _).
    rewrite PF_at in Ha by done.
    destruct (next_pos_total (pv g) (pi g) Hpi) as (v' & p' & Hn).
    assert (forall fuel, enqueue (S (S fuel)) t q =
              match advance_phead (phead q) q with
              | Done (SUCCESS, q') => enqueue (S fuel) t q'
              | Done (_, q') => Done (false, q')
              | Undefined => Undefined
              | OutOfFuel => OutOfFuel
              end) as Hturn.
    { intros fuel. apply (enqueue_full q (S fuel) t blk);
        rewrite ?Hph, ?Ha; cbn [index]; first [done | lia]. }
    destruct (padvance_step g q v' p' Hrep0 Hfull Hbound Hge (Hsq Hfull) Hn)
      as [(Hnok & st & Heq & Hst)|(Hok & q1 & Heq & Hrep1)].
    + exists false, q, g.
      split; [intros fuel; rewrite Hturn, Heq; by destruct st|].
      split; [done|].
      repeat split; try lia; try done. by exists v', p'.
    + destruct (produce_step _ q1 t Hrep1) as (q2 & Henq & Hrep2).
      { cbn [pk]. pose proof (NE_pos Hv). lia. }
      cbn [pv pi pk cv ci ck hist] in Hrep2.
      eexists true, q2, _.
      split; [intros fuel; rewrite Hturn, Heq; apply Henq|].
      split; [exact Hrep2|].
      cbn [pv pi pk cv ci ck hist].
      do 3 (split; [done|]). split; [unfold next_pos in Hn; lia|].
      split; [|done]. intros _. split; [done|]. right. by rewrite Z.add_0_l.
  - destruct (produce_step g q t Hrep0) as (q2 & Henq & Hrep2); [lia|].
    eexists true, q2, _. split; [intros fuel; apply Henq|].
    split; [exact Hrep2|].
    cbn [pv pi pk cv ci ck hist].
    do 3 (split; [done|]). split; [lia|].
    split; [|done]. intros _. split; [done|]. left. lia.
Qed.

(** The test of [advance_chead] against the abstract positions. *)
Lemma filled_iff g v' p' :
  coords_ok g -> ck g = NE -> next_pos (cv g) (ci g) v' p' ->
  version (PF g p') = cv g + 1 <-> ~ (pv g = cv g /\ pi g = ci g).
Proof.
  intros Hco Hfull Hn. pose proof (NE_pos Hv) as HNE.
  unfold PF, gen, next_pos, coords_ok in *.
  destruct (Z.ltb_spec p' (pi g)), (Z.eqb_spec p' (pi g)), (Z.eqb_spec p' 0);
    cbn [version index]; lia.
Qed.

Lemma cadvance_coords g v' p' :
  coords_ok g -> ck g = NE -> next_pos (cv g) (ci g) v' p' ->
  ~ (pv g = cv g /\ pi g = ci g) ->
  coords_ok (MkGhost (pv g) (pi g) (pk g) v' p' 0 (hist g)).
Proof.
  intros Hco Hfull Hn Hne. pose proof (NE_pos Hv) as HNE.
  unfold next_pos, coords_ok in *. cbn [pv pi pk cv ci ck hist]. lia.
Qed.

Lemma CF_stamped g v' p' :
  coords_ok g -> ck g = NE -> next_pos (cv g) (ci g) v' p' ->
  raise (MkField (cv g + 1) 0) (CF g p') = MkField (gen v' p') 0.
Proof.
  intros Hco Hfull Hn. pose proof (NE_pos Hv) as HNE.
  unfold raise, CF, gen, next_pos, coords_ok in *.
  destruct (Z.ltb_spec p' (ci g)), (Z.eqb_spec p' (ci g)), (Z.eqb_spec p' 0);
    cbn [version index];
    match goal with
    | |- context [?a >? ?b] => destruct (Z.gtb_spec a b)
    end; try lia; f_equal; lia.
Qed.

Lemma CF_advance_other g v' p' j g1 :
  coords_ok g -> ck g = NE -> next_pos (cv g) (ci g) v' p' ->
  cv g1 = v' -> ci g1 = p' ->
  0 <= j < B -> j <> p' ->
  CF g1 j = CF g j.
Proof.
  intros Hco Hfull Hn Hv1 Hp1 Hj Hne. pose proof (NE_pos Hv) as HNE.
  unfold CF, gen, next_pos, coords_ok in *. rewrite Hv1, Hp1, Hfull.
  destruct (Z.ltb_spec j p'), (Z.eqb_spec j p'), (Z.eqb_spec j 0),
    (Z.ltb_spec j (ci g)), (Z.eqb_spec j (ci g));
    try lia; f_equal; lia.
Qed.

(** [advance_chead] on a drained block: either the queue is empty and
    nothing changes, or the consumer enters the next block. *)
Lemma cadvance_step g q v' p' vsn :
  Rep g q -> ck g = NE -> pv g + 1 < 2 ^ VERSION_BITS ->
  B <= NE -> (ci g + 1 = B -> NE = B) ->
  next_pos (cv g) (ci g) v' p' ->
  let g1 := MkGhost (pv g) (pi g) (pk g) v' p' 0 (hist g) in
  (pv g = cv g /\ pi g = ci g /\ pk g = ck g
   /\ advance_chead (chead q) vsn q = Done (false, q))
  \/ (exists q1, advance_chead (chead q) vsn q = Done (true, q1) /\ Rep g1 q1
               /\ ~ (pv g = v' /\ pi g = p' /\ pk g = 0)).
Proof.
  intros [(Hph & Hch & Hco & Hlen & Hblocks) Horigin] Hfull Hbound Hge Hsq Hn g1.
  pose proof (NE_pos Hv) as HNE. assert (NE <> 0) as HNE0 by lia.
  assert (0 < B) as HB by apply Hv.
  assert (0 <= ci g < B) as Hci by apply Hco.
  assert (0 <= cv g) as Hcv by apply Hco.
  assert (cv g <= pv g) as Hcp by (unfold coords_ok in Hco; lia).
  assert (0 <= p' < B) as Hp' by (unfold next_pos in Hn; lia).
  pose proof (nb_index_next _ _ _ _ Hn (proj1 Hci)) as Hnb.
  destruct (Hblocks _ Hp') as (nb & Hb & Ha & Hc & Hr & Hcs & Hdlen & Hdata).
  pose proof (advance_chead_eq q (chead q) vsn nb HNE0 HB) as Heq.
  rewrite Hch in Heq |- *. cbn [index version] in Heq. rewrite Hnb in Heq.
  specialize (Heq Hb).
  pose proof (filled_iff g v' p' Hco Hfull Hn) as Hiff. rewrite <- Hc in Hiff.
  destruct (Z.eqb_spec (version (comm nb)) (cv g + 1)) as [E|E].
  - right. assert (~ (pv g = cv g /\ pi g = ci g)) as Hne by by apply Hiff.
    pose proof (cadvance_coords g v' p' Hco Hfull Hn Hne) as Hco1.
    eexists. split; [exact Heq|]. split.
    2:{ unfold next_pos in Hn. lia. }
    split; [|done].
    split; [done|].
    split; [cbn [chead set_chead]; apply head_step_next; first [done|lia]|].
    split; [done|]. split; [done|].
    intros j Hj. cbn [blocks set_chead].
    apply (blocks_rep_put g g1); try done.
    + unfold block_rep, stamp_consumer. cbn [alloc comm resv cons data version].
      rewrite Field_ctor_small by (rewrite ?two_pow_index; lia).
      rewrite Ha, Hc, Hr, Hcs, (CF_stamped _ _ _ Hco Hfull Hn).
      rewrite (CF_at g1) by done.
      repeat split; try done.
      intros v s Hs Hl. apply Hdata; [done|].
      clear - Hl Hn Hfull Hs Hp' Hco. subst g1. unfold next_pos in Hn. coords.
    + intros i blk Hi Hne' Hrep. apply (block_rep_mono g); try done.
      * by apply (CF_advance_other g v' p').
      * intros v s Hs Hl.
        clear - Hl Hn Hfull Hs Hi Hco. subst g1. unfold next_pos in Hn. coords.
  - left. assert (pv g = cv g /\ pi g = ci g) as [Hpv Hpi].
    { destruct (Z.eq_dec (pv g) (cv g)), (Z.eq_dec (pi g) (ci g)); try done;
        exfalso; apply E, Hiff; lia. }
    repeat split; try done. unfold coords_ok in Hco. lia.
Qed.

Lemma gen_bounds v j : 0 <= v -> 0 <= gen v j <= v + 1.
Proof. unfold gen. destruct (j =? 0); lia. Qed.

(** A turn of [dequeue] on a block that is not drained. *)
Lemma consume_step g q :
  Rep g q -> ck g < NE -> pv g + 1 < 2 ^ VERSION_BITS ->
  (pv g = cv g /\ pi g = ci g /\ pk g = ck g
   /\ forall fuel, dequeue (S fuel) q = Done (None, q))
  \/ (exists x q',
        (forall fuel, dequeue (S fuel) q = Done (Some x, q'))
        /\ hist g !! delivered_count g = Some x
        /\ Rep (MkGhost (pv g) (pi g) (pk g) (cv g) (ci g) (ck g + 1) (hist g)) q').
Proof.
  intros [(Hph & Hch & Hco & Hlen & Hblocks) Horigin] Hroom Hbound.
  pose proof (NE_pos Hv) as HNE.
  assert (NE < 2 ^ INDEX_BITS) as Hidx by apply Hv.
  assert (0 <= ci g < B) as Hci by apply Hco.
  assert (0 <= ck g) as Hck by apply Hco.
  assert (0 <= cv g <= pv g) as Hcv by (unfold coords_ok in Hco; lia).
  destruct (Hblocks _ Hci) as (blk & Hb & Ha & Hc & Hr & Hcs & Hdlen & Hdata).
  rewrite CF_at in Hr, Hcs by done.
  assert (forall fuel, dequeue (S fuel) q = dequeue 1 q) as Hfuel.
  { intros fuel. rewrite (dequeue_turn q fuel blk), (dequeue_turn q 0 blk);
      rewrite ?Hch; cbn [index]; try first [done | lia].
    cbv zeta. rewrite Hr. cbn [index].
    by destruct (Z.ltb_spec (ck g) NE); [|lia]. }
  pose proof (dequeue_turn q 0 blk) as Hturn.
  rewrite Hch in Hturn. cbn [index] in Hturn. specialize (Hturn Hb (proj1 Hci)).
  cbv zeta in Hturn. rewrite Hr, Hc, Ha in Hturn. cbn [index version] in Hturn.
  destruct (Z.ltb_spec (ck g) NE); [|lia].
  destruct (Z.eqb_spec (ck g) (index (PF g (ci g)))) as [E|E].
  - left. split; [|split; [|split]];
      try (intros fuel; by rewrite Hfuel);
      revert E; unfold PF, coords_ok in *;
      destruct (Z.ltb_spec (ci g) (pi g)), (Z.eqb_spec (ci g) (pi g));
      cbn [index]; lia.
  - right. rewrite Z.eqb_refl, andb_false_r in Hturn.
    assert (live g (cv g) (ci g) (ck g)) as Hlive.
    { revert E. unfold PF.
      destruct (Z.ltb_spec (ci g) (pi g)), (Z.eqb_spec (ci g) (pi g));
        cbn [index]; intros; coords. }
    destruct (Hdata _ _ (conj Hck Hroom) Hlive) as (x & Hx & Hh).
    rewrite Z.max_r in Hturn by lia.
    rewrite Field_ctor_small in Hturn
      by (pose proof (gen_bounds (cv g) (ci g)); lia).
    erewrite consume_entry_eq in Hturn;
      [|by eapply lookup_put_block_eq|lia|cbn [index]; lia|exact Hx].
    rewrite put_block_twice in Hturn.
    cbn [alloc comm resv cons data set_cursor index] in Hturn.
    rewrite Hcs in Hturn. rewrite Field_add_small in Hturn by (cbn [index]; lia).
    cbn [version index] in Hturn.
    eexists x, _. split; [intros fuel; rewrite Hfuel; exact Hturn|].
    split; [exact Hh|].
    split; [|done].
    split; [done|]. split; [done|]. split; [coords|]. split; [done|].
    apply (blocks_rep_put g); try done.
    + unfold block_rep. cbn [alloc comm resv cons data].
      rewrite CF_at, length_insert by done. cbn [cv ci ck].
      rewrite Ha. repeat split; try done.
      intros v s Hs Hl.
      assert (s <> ck g) as Hne by coords.
      destruct (Hdata v s Hs) as (y & Hy & Hh'); [coords|].
      exists y. split; [|done].
      rewrite list_lookup_insert_ne by lia. done.
    + intros j blkj Hj Hne Hrep. apply (block_rep_mono g); try done.
      * by apply CF_other.
      * intros v s Hs Hl. coords.
Qed.

Lemma delivered_count_next g g' :
  coords_ok g ->
  cv g' = cv g -> ci g' = ci g -> ck g' = ck g + 1 ->
  delivered_count g' = S (delivered_count g).
Proof.
  intros Hco Hcv Hci Hck. unfold delivered_count. rewrite Hcv, Hci, Hck.
  pose proof (lin_nonneg (cv g) (ci g) (ck g)).
  unfold coords_ok in Hco. unfold lin in *. lia.
Qed.

(** A call of [dequeue] takes at most two turns of its loop; it returns
    the oldest pending value, or returns [false] because the queue is empty
    and leaves it as it was. *)
Lemma dequeue_spec g q :
  Rep g q -> pv g + 1 < 2 ^ VERSION_BITS ->
  B <= NE -> (ck g = NE -> ci g + 1 = B -> NE = B) ->
  exists r q' g',
    (forall fuel, dequeue (S (S fuel)) q = Done (r, q')) /\ Rep g' q'
    /\ pv g' = pv g /\ pi g' = pi g /\ pk g' = pk g /\ hist g' = hist g
    /\ match r with
       | Some x =>
           hist g !! delivered_count g = Some x
           /\ delivered_count g' = S (delivered_count g)
       | None =>
           q' = q /\ g' = g /\ delivered_count g = length (hist g)
           /\ pv g = cv g /\ pi g = ci g /\ pk g = ck g
       end.
Proof.
  intros Hrep Hbound Hge Hsq.
  pose proof Hrep as [(Hph & Hch & Hco & Hlen & Hblocks) Horigin].
  assert (0 <= ci g < B) as Hci by apply Hco.
  assert (0 <= ck g <= NE) as Hck by apply Hco.
  assert (forall g0 : Ghost,
            pv g0 = cv g0 -> pi g0 = ci g0 -> pk g0 = ck g0 ->
            Z.of_nat (length (hist g0)) = lin (pv g0) (pi g0) (pk g0) ->
            delivered_count g0 = length (hist g0)) as Hempty.
  { intros g0 E1 E2 E3 E4. unfold delivered_count.
    rewrite <- E1, <- E2, <- E3, <- E4. lia. }
  destruct (Z.eq_dec (ck g) NE) as [Hfull|Hroom].
  - destruct (Hblocks _ Hci) as (blk & Hb & _ & _ & Hr & _).
    rewrite CF_at in Hr by done.
    destruct (next_pos_total (cv g) (ci g) Hci) as (v' & p' & Hn).
    assert (forall fuel, dequeue (S (S fuel)) q =
              match advance_chead (chead q) (gen (cv g) (ci g)) q with
              | Done (true, q') => dequeue (S fuel) q'
              | Done (false, q') => Done (None, q')
              | Undefined => Undefined
              | OutOfFuel => OutOfFuel
              end) as Hturn.
    { intros fuel. rewrite (dequeue_turn q (S fuel) blk);
        rewrite ?Hch; cbn [index]; try first [done | lia].
      cbv zeta. rewrite Hr. cbn [index version].
      by destruct (Z.ltb_spec (ck g) NE); [lia|]. }
    destruct (cadvance_step g q v' p' (gen (cv g) (ci g)) Hrep Hfull Hbound
                Hge (Hsq Hfull) Hn)
      as [(E1 & E2 & E3 & Heq)|(q1 & Heq & Hrep1 & Hne)].
    + exists None, q, g.
      split; [intros fuel; by rewrite Hturn, Heq|]. split; [exact Hrep|].
      do 4 (split; [done|]). split; [done|]. split; [done|].
      split; [by apply Hempty|done].
    + destruct (consume_step _ q1 Hrep1) as
        [(F1 & F2 & F3 & _)|(x & q2 & Hdeq & Hx & Hrep2)].
      { cbn [ck]. pose proof (NE_pos Hv). lia. }
      { done. }
      { cbn [pv pi pk cv ci ck] in *. lia. }
      eexists (Some x), q2, _.
      split; [intros fuel; rewrite Hturn, Heq; apply Hdeq|].
      split; [exact Hrep2|].
      cbn [pv pi pk cv ci ck hist]. do 4 (split; [done|]). split.
      * revert Hx. unfold delivered_count. cbn [cv ci ck hist].
        by rewrite (lin_next _ _ _ _ Hn), Hfull.
      * unfold delivered_count. cbn [cv ci ck].
        rewrite Hfull, <- (lin_next _ _ _ _ Hn).
        assert (0 <= lin v' p' 0).
        { unfold coords_ok in Hco. unfold next_pos in Hn.
          apply lin_nonneg; lia. }
        unfold lin in *. lia.
  - destruct (consume_step g q Hrep) as
      [(F1 & F2 & F3 & Hdeq)|(x & q2 & Hdeq & Hx & Hrep2)]; [lia|done| |].
    + exists None, q, g. split; [intros fuel; apply Hdeq|]. split; [exact Hrep|].
      do 4 (split; [done|]). split; [done|]. split; [done|].
      split; [by apply Hempty|done].
    + eexists (Some x), q2, _. split; [intros fuel; apply Hdeq|].
      split; [exact Hrep2|].
      cbn [pv pi pk cv ci ck hist]. do 4 (split; [done|]). split; [done|].
      by apply delivered_count_next.
Qed.

Lemma Rep_new : Rep ghost_new Queue_new.
Proof.
  pose proof (NE_pos Hv) as HNE.
  assert (NE < 2 ^ INDEX_BITS) as Hidx by apply Hv.
  assert (0 < B) as HB by apply Hv.
  split; [|done]. split; [done|]. split; [done|].
  split; [unfold coords_ok; cbn [ghost_new pv pi pk cv ci ck]; lia|].
  split; [unfold lin; cbn [ghost_new pv pi pk cv ci ck hist length]; lia|].
  intros j Hj. unfold Queue_new. cbn [blocks].
  destruct (Z.to_nat B) as [|k] eqn:Ek; [lia|].
  assert (forall idx, idx = 0 \/ idx = NE ->
            (if j =? 0 then idx = 0 else idx = NE) ->
            block_rep ghost_new j (Block_init idx)) as Hinit.
  { intros idx Hidx0 Hcase. unfold block_rep, Block_init.
    cbn [alloc comm resv cons data]. rewrite length_replicate.
    rewrite Field_ctor_small by (rewrite ?two_pow_version; lia).
    unfold PF, CF, gen. cbn [ghost_new pv pi pk cv ci ck].
    destruct (Z.ltb_spec j 0); [lia|].
    destruct (Z.eqb_spec j 0); subst; repeat split; try done.
    all: intros v s Hs Hl; exfalso;
      unfold live, lex_le, lex_lt, ghost_new in Hl;
      cbn [pv pi pk cv ci ck] in Hl; lia. }
  destruct (Z.to_nat j) as [|i] eqn:Ej.
  - exists (Block_init 0). split; [done|]. apply Hinit; [lia|].
    destruct (Z.eqb_spec j 0); [done|lia].
  - exists (Block_init NE). split.
    + cbn. apply lookup_replicate. split; [done|lia].
    + apply Hinit; [lia|]. destruct (Z.eqb_spec j 0); [lia|done].
Qed.

(** *** Square queues: as many blocks as slots per block *)

Section Square.

Hypothesis Hsq : NE = B.

Lemma square_ge : B <= NE.
Proof. lia. Qed.

(** A sequence of calls, each given at least two turns. *)
Lemma run_spec ops : forall g q,
  Rep g q -> (delivered_count g <= length (hist g))%nat ->
  pv g + Z.of_nat (length ops) + 1 < 2 ^ VERSION_BITS ->
  exists es q' g',
    (forall fuel, run (S (S fuel)) ops q = Done (es, q')) /\ Rep g' q'
    /\ (delivered_count g' <= length (hist g'))%nat
    /\ pv g' <= pv g + Z.of_nat (length ops)
    /\ hist g' = hist g ++ accepted es
    /\ take (delivered_count g') (hist g')
       = take (delivered_count g) (hist g) ++ delivered es.
Proof.
  induction ops as [|o ops IH]; intros g q Hrep HD Hbound.
  - exists [], q, g. cbn [run accepted delivered length] in *.
    rewrite !app_nil_r. do 3 (split; [done|]). split; [lia|done].
  - cbn [length] in *.
    destruct o as [t|].
    + destruct (enqueue_spec g q t Hrep) as
        (r & q1 & g1 & Henq & Hrep1 & E1 & E2 & E3 & Hpv & Htrue & Hfalse);
        [lia|apply square_ge|done|].
      assert (delivered_count g1 = delivered_count g) as HD1
        by (unfold delivered_count; by rewrite E1, E2, E3).
      assert (hist g1 = hist g ++ accepted [EnqRet t r]) as Hh1.
      { destruct r; cbn [accepted]; [by apply Htrue|].
        destruct Hfalse as (_ & -> & _); [done|]. by rewrite app_nil_r. }
      destruct (IH g1 q1 Hrep1) as
        (es & q2 & g2 & Hrun & Hrep2 & HD2 & Hpv2 & Hh2 & Ht2).
      { rewrite HD1, Hh1, length_app. lia. }
      { lia. }
      exists (EnqRet t r :: es), q2, g2.
      split.
      { intros fuel. cbn [run call]. unfold bind, ret.
        by rewrite Henq, Hrun. }
      split; [done|].
      split; [done|]. split; [lia|]. split.
      * rewrite Hh2, Hh1, <- app_assoc. f_equal. by destruct r.
      * rewrite Ht2, HD1, Hh1. rewrite take_app_le by done.
        by destruct r.
    + destruct (dequeue_spec g q Hrep) as
        (r & q1 & g1 & Hdeq & Hrep1 & E1 & E2 & E3 & Hh1 & Hr);
        [lia|apply square_ge|done|].
      assert ((delivered_count g1 <= length (hist g1))%nat
              /\ take (delivered_count g1) (hist g1)
                 = take (delivered_count g) (hist g) ++ delivered [DeqRet r])
        as [HD1 Ht1].
      { rewrite Hh1. destruct r as [x|]; cbn [delivered].
        - destruct Hr as [Hx ->]. split.
          + apply lookup_lt_Some in Hx. lia.
          + by apply take_S_r.
        - destruct Hr as (_ & -> & _). by rewrite app_nil_r. }
      destruct (IH g1 q1 Hrep1 HD1) as
        (es & q2 & g2 & Hrun & Hrep2 & HD2 & Hpv2 & Hh2 & Ht2); [lia|].
      exists (DeqRet r :: es), q2, g2.
      split.
      { intros fuel. cbn [run call]. unfold bind, ret.
        by rewrite Hdeq, Hrun. }
      split; [done|].
      split; [done|]. split; [lia|]. split.
      * rewrite Hh2, Hh1. by destruct r.
      * rewrite Ht2, Ht1, <- app_assoc. f_equal. by destruct r.
Qed.

(** Emptying the queue. *)
Lemma drain_spec k : forall g q,
  Rep g q -> pv g + 1 < 2 ^ VERSION_BITS ->
  (delivered_count g + k = length (hist g))%nat ->
  exists q' g',
    (forall fuel,
       run (S (S fuel)) (replicate k Deq) q
       = Done (map (fun x => DeqRet (Some x)) (drop (delivered_count g) (hist g)),
               q'))
    /\ Rep g' q' /\ hist g' = hist g
    /\ pv g' = pv g /\ pi g' = pi g /\ pk g' = pk g
    /\ delivered_count g' = length (hist g').
Proof.
  induction k as [|k IH]; intros g q Hrep Hbound Hk.
  - exists q, g. rewrite drop_ge by lia. split; [done|].
    split; [done|]. do 4 (split; [done|]). lia.
  - destruct (dequeue_spec g q Hrep Hbound) as
      (r & q1 & g1 & Hdeq & Hrep1 & E1 & E2 & E3 & Hh1 & Hr);
      [apply square_ge|done|].
    destruct r as [x|]; [|lia].
    destruct Hr as [Hx HD1].
    destruct (IH g1 q1 Hrep1) as (q2 & g2 & Hrun & Hrep2 & Hh2 & F1 & F2 & F3 & HD2).
    { lia. }
    { rewrite Hh1. lia. }
    exists q2, g2. split.
    { intros fuel. cbn [replicate run call]. unfold bind, ret.
      rewrite Hdeq, Hrun, HD1, Hh1. by rewrite (drop_S _ _ _ Hx). }
    split; [done|]. rewrite Hh2, F1, F2, F3.
    do 4 (split; [done|]). by rewrite HD2, Hh2.
Qed.

(** What a square queue looks like after any sequence of calls. *)
Lemma reach_square ops :
  Z.of_nat (length ops) + 1 < 2 ^ VERSION_BITS ->
  exists es q g,
    (forall fuel, run (S (S fuel)) ops Queue_new = Done (es, q))
    /\ Rep g q
    /\ (delivered_count g <= length (hist g))%nat
    /\ pv g <= Z.of_nat (length ops)
    /\ hist g = accepted es
    /\ take (delivered_count g) (hist g) = delivered es.
Proof.
  intros Hbound.
  destruct (run_spec ops ghost_new Queue_new Rep_new) as
    (es & q & g & Hrun & Hrep & HD & Hpv & Hh & Ht).
  { unfold delivered_count, lin. cbn [ghost_new cv ci ck hist length]. lia. }
  { cbn [ghost_new pv]. lia. }
  exists es, q, g. cbn [ghost_new pv hist] in *.
  rewrite take_nil in Ht. do 3 (split; [done|]). split; [lia|done].
Qed.

(** For a square queue: the values delivered are, in order, the first of
    the values accepted; the values still pending are delivered, in order,
    by the following calls of [dequeue]; and nothing is delivered after
    them.  Every call completes within two turns of its loop. *)
Theorem fifo_square (ops : list op) :
  Z.of_nat (length ops) + 1 < 2 ^ VERSION_BITS ->
  exists es q pending q',
    (forall fuel, run (S (S fuel)) ops Queue_new = Done (es, q))
    /\ accepted es = delivered es ++ pending
    /\ (forall fuel,
         run (S (S fuel)) (replicate (length pending) Deq) q
         = Done (map (fun x => DeqRet (Some x)) pending, q'))
    /\ (forall fuel, dequeue (S (S fuel)) q' = Done (None, q')).
Proof.
  intros Hbound.
  destruct (reach_square ops Hbound) as (es & q & g & Hrun & Hrep & HD & Hpv & Hh & Ht).
  destruct (drain_spec (length (hist g) - delivered_count g) g q Hrep)
    as (q' & g' & Hdrain & Hrep' & Hh' & F1 & F2 & F3 & HD'); [lia|lia|].
  exists es, q, (drop (delivered_count g) (hist g)), q'.
  split; [done|]. split; [by rewrite <- Hh, <- Ht, take_drop|].
  split; [by rewrite length_drop|].
  destruct (dequeue_spec g' q' Hrep') as (r & q2 & g2 & Hdeq & _ & _ & _ & _ & _ & Hr);
    [lia|apply square_ge|done|].
  destruct r as [x|].
  - destruct Hr as [Hx _]. apply lookup_lt_Some in Hx. lia.
  - destruct Hr as (-> & _). done.
Qed.

(** For a square queue a call that returns [false] leaves the queue as it
    was. *)
Theorem failure_atomic_square (ops : list op) :
  Z.of_nat (length ops) + 1 < 2 ^ VERSION_BITS ->
  exists es q,
    (forall fuel, run (S (S fuel)) ops Queue_new = Done (es, q))
    /\ (forall fuel t q', enqueue (S (S fuel)) t q = Done (false, q') -> q' = q)
    /\ (forall fuel q', dequeue (S (S fuel)) q = Done (None, q') -> q' = q).
Proof.
  intros Hbound.
  destruct (reach_square ops Hbound) as (es & q & g & Hrun & Hrep & _ & Hpv & _).
  exists es, q. split; [done|]. split.
  - intros fuel t q' Henq.
    destruct (enqueue_spec g q t Hrep) as (r & q1 & g1 & Heq & _ & _ & _ & _ & _ & _ & Hfalse);
      [lia|apply square_ge|done|].
    rewrite Heq in Henq. injection Henq as -> <-. by apply Hfalse.
  - intros fuel q' Hdeq.
    destruct (dequeue_spec g q Hrep) as (r & q1 & g1 & Heq & _ & _ & _ & _ & _ & Hr);
      [lia|apply square_ge|done|].
    rewrite Heq in Hdeq. injection Hdeq as -> <-. by destruct Hr as (-> & _).
Qed.

(** For a square queue two turns of the loop are enough for every call,
    and more turns change nothing. *)
Theorem two_turns_square (ops : list op) :
  Z.of_nat (length ops) + 1 < 2 ^ VERSION_BITS ->
  exists es q,
    run 2 ops Queue_new = Done (es, q)
    /\ (forall fuel, run (S (S fuel)) ops Queue_new = Done (es, q))
    /\ (forall t, exists r q',
          forall fuel, enqueue (S (S fuel)) t q = Done (r, q'))
    /\ (exists r q', forall fuel, dequeue (S (S fuel)) q = Done (r, q')).
Proof.
  intros Hbound.
  destruct (reach_square ops Hbound) as (es & q & g & Hrun & Hrep & _ & Hpv & _).
  exists es, q. split; [apply Hrun|]. split; [done|]. split.
  - intros t.
    destruct (enqueue_spec g q t Hrep) as (r & q1 & g1 & Heq & _);
      [lia|apply square_ge|done|].
    by exists r, q1.
  - destruct (dequeue_spec g q Hrep) as (r & q1 & g1 & Heq & _);
      [lia|apply square_ge|done|].
    by exists r, q1.
Qed.

(** For a square queue both head indices stay inside the ring. *)
Theorem head_index_square (ops : list op) :
  Z.of_nat (length ops) + 1 < 2 ^ VERSION_BITS ->
  exists es q,
    (forall fuel, run (S (S fuel)) ops Queue_new = Done (es, q))
    /\ 0 <= index (phead q) < B /\ 0 <= index (chead q) < B.
Proof.
  intros Hbound.
  destruct (reach_square ops Hbound) as
    (es & q & g & Hrun & [(Hph & Hch & Hco & _) _] & _).
  exists es, q. split; [done|]. rewrite Hph, Hch. cbn [index].
  unfold coords_ok in Hco. lia.
Qed.

Lemma run_app fuel ops1 : forall ops2 q es1 q1 es2 q2,
  run fuel ops1 q = Done (es1, q1) -> run fuel ops2 q1 = Done (es2, q2) ->
  run fuel (ops1 ++ ops2) q = Done (es1 ++ es2, q2).
Proof.
  induction ops1 as [|o ops1 IH]; intros ops2 q es1 q1 es2 q2 H1 H2.
  - by injection H1 as <- <-.
  - cbn [run app] in *. unfold bind at 1 in H1. unfold bind at 1.
    destruct (call fuel o q) as [[e q0]| |]; [|done|done].
    unfold bind, ret in H1 |- *.
    destruct (run fuel ops1 q0) as [[es0 q3]| |] eqn:E; [|done|done].
    injection H1 as <- <-. by rewrite (IH _ _ _ _ _ _ E H2).
Qed.

Lemma N_square : N = B * NE.
Proof.
  destruct Hv as (_ & Hm & HB & _). unfold NE.
  apply Z.div_exact; [lia|done].
Qed.

Lemma lin_lap0 j s : lin 0 j s = j * NE + s.
Proof. unfold lin. ring. Qed.

(** With an idle consumer the producer fills the whole queue. *)
Lemma fill_spec xs : forall g q,
  Rep g q -> cv g = 0 -> ci g = 0 -> ck g = 0 ->
  Z.of_nat (length (hist g) + length xs) <= N ->
  exists q' g',
    (forall fuel,
       run (S (S fuel)) (map Enq xs) q
       = Done (map (fun x => EnqRet x true) xs, q'))
    /\ Rep g' q' /\ cv g' = 0 /\ ci g' = 0 /\ ck g' = 0
    /\ hist g' = hist g ++ xs.
Proof.
  pose proof (NE_pos Hv) as HNE. pose proof N_square as HN.
  induction xs as [|x xs IH]; intros g q Hrep Hcv Hci Hck Hlen.
  - exists q, g. by rewrite app_nil_r.
  - pose proof Hrep as [(_ & _ & Hco & Hhist & _) _].
    assert (pv g = 0) as Hpv by (unfold coords_ok in Hco; lia).
    destruct (enqueue_spec g q x Hrep) as
      (r & q1 & g1 & Henq & Hrep1 & E1 & E2 & E3 & _ & Htrue & Hfalse).
    { rewrite Hpv, two_pow_version. lia. }
    { apply square_ge. }
    { done. }
    destruct r.
    + destruct Htrue as [Hh1 _]; [done|].
      destruct (IH g1 q1 Hrep1) as (q2 & g2 & Hrun & Hrep2 & F1 & F2 & F3 & Hh2);
        try lia.
      { rewrite Hh1, length_app. cbn [length] in *. lia. }
      exists q2, g2. split.
      { intros fuel. cbn [map run call]. unfold bind, ret.
        by rewrite Henq, Hrun. }
      split; [done|]. do 3 (split; [done|]).
      by rewrite Hh2, Hh1, <- app_assoc.
    + exfalso. destruct Hfalse as (_ & _ & Hfull & v' & p' & Hn & Hnok); [done|].
      apply Hnok. unfold next_pos in Hn. unfold coords_ok in *.
      cbn [pv pi pk cv ci ck]. rewrite Hcv, Hci, Hck in *.
      destruct Hn as [(? & -> & ->)|(Hb & -> & ->)]; [lia|].
      exfalso. rewrite Hpv, Hfull, lin_lap0 in Hhist.
      assert (pi g = B - 1) as Hpi by lia. rewrite Hpi in Hhist.
      cbn [length] in Hlen. nia.
Qed.

(** Capacity of a square queue: [N] values go in, the next one is refused,
    the [N] values come out in order, and the next value is accepted into
    slot 0 of block 0 at generation 1. *)
Theorem capacity_square (xs : list T) (y z : T) :
  Z.of_nat (length xs) = N ->
  exists q blk,
    (forall fuel,
       run (S (S fuel))
         (map Enq xs ++ [Enq y] ++ replicate (length xs) Deq ++ [Enq z])
         Queue_new
       = Done (map (fun x => EnqRet x true) xs ++ [EnqRet y false]
               ++ map (fun x => DeqRet (Some x)) xs ++ [EnqRet z true], q))
    /\ phead q = MkField 1 0
    /\ blocks q !! 0%nat = Some blk
    /\ alloc blk = MkField 1 1 /\ comm blk = MkField 1 1
    /\ data blk !! 0%nat = Some z.
Proof.
  intros Hlen. pose proof (NE_pos Hv) as HNE. pose proof N_square as HN.
  assert (0 < B) as HB by apply Hv.
  (* N values go in *)
  destruct (fill_spec xs ghost_new Queue_new Rep_new) as
    (q1 & g1 & Hrun1 & Hrep1 & Hcv1 & Hci1 & Hck1 & Hh1); try done.
  { cbn [ghost_new hist length]. lia. }
  cbn [ghost_new hist app] in Hh1.
  pose proof Hrep1 as [(_ & _ & Hco1 & Hhist1 & _) _].
  assert (pv g1 = 0) as Hpv1 by (unfold coords_ok in Hco1; lia).
  assert (pi g1 = B - 1 /\ pk g1 = NE) as [Hpi1 Hpk1].
  { rewrite Hh1, Hlen, Hpv1, lin_lap0 in Hhist1. unfold coords_ok in Hco1. nia. }
  (* the next one is refused *)
  destruct (enqueue_spec g1 q1 y Hrep1) as
    (r & q1' & g1' & Henq & Hrep1' & Gcv & Gci & Gck & _ & Htrue & Hfalse).
  { rewrite Hpv1, two_pow_version. lia. }
  { apply square_ge. }
  { done. }
  destruct r.
  { exfalso. destruct Htrue as (_ & [(? & _)|(_ & Hn & _)]); [done|lia|].
    destruct Hrep1' as [(_ & _ & Hco' & _) _].
    unfold next_pos in Hn. unfold coords_ok in Hco'. lia. }
  destruct Hfalse as (-> & -> & _); [done|].
  (* N values come out *)
  destruct (drain_spec (length xs) g1 q1 Hrep1) as
    (q2 & g2 & Hrun2 & Hrep2 & Hh2 & Hpv2 & Hpi2 & Hpk2 & HD2).
  { rewrite Hpv1, two_pow_version. lia. }
  { unfold delivered_count. rewrite Hcv1, Hci1, Hck1, lin_lap0, Hh1. lia. }
  assert (delivered_count g1 = 0%nat) as HD1.
  { unfold delivered_count. rewrite Hcv1, Hci1, Hck1, lin_lap0. lia. }
  rewrite HD1, drop_0, Hh1 in Hrun2.
  (* the queue is empty: both sides stand at the same place *)
  destruct (dequeue_spec g2 q2 Hrep2) as (r & q2' & g2' & _ & _ & _ & _ & _ & _ & Hr).
  { rewrite Hpv2, Hpv1, two_pow_version. lia. }
  { apply square_ge. }
  { done. }
  destruct r as [x|].
  { destruct Hr as [Hx _]. apply lookup_lt_Some in Hx. lia. }
  destruct Hr as (_ & _ & _ & Ecv & Eci & Eck).
  (* the next value is accepted *)
  destruct (enqueue_spec g2 q2 z Hrep2) as
    (r & q3 & g3 & Henq3 & Hrep3 & Fcv & Fci & Fck & _ & Htrue3 & Hfalse3).
  { rewrite Hpv2, Hpv1, two_pow_version. lia. }
  { apply square_ge. }
  { done. }
  destruct r.
  2:{ exfalso. destruct Hfalse3 as (_ & _ & _ & v' & p' & Hn & Hnok); [done|].
      apply Hnok. destruct Hrep2 as [(_ & _ & Hco2 & _) _].
      unfold next_pos in Hn. unfold coords_ok in *.
      cbn [pv pi pk cv ci ck]. lia. }
  destruct Htrue3 as (Hh3 & [(? & _)|(_ & Hn & Hpk3)]); [done|lia|].
  assert (pv g3 = 1 /\ pi g3 = 0) as [Hpv3 Hpi3]
    by (unfold next_pos in Hn; lia).
  destruct Hrep3 as [(Hph3 & _ & _ & _ & Hblocks3) _].
  destruct (Hblocks3 0) as (blk & Hb & Ha & Hc & _ & _ & _ & Hdata); [lia|].
  rewrite PF_at in Ha, Hc by done. rewrite Hpv3, Hpk3 in Ha, Hc.
  destruct (Hdata 1 0) as (x & Hx & Hhx); [lia| |].
  { unfold live, lex_le, lex_lt. lia. }
  assert (x = z) as ->.
  { rewrite Hh3, Hh2, Hh1 in Hhx. unfold lin in Hhx.
    replace (Z.to_nat ((1 * B + 0) * NE + 0)) with (length xs) in Hhx by lia.
    rewrite lookup_app_r, Nat.sub_diag in Hhx by lia. by injection Hhx. }
  exists q3, blk. split.
  { intros fuel. apply (run_app _ _ _ _ _ q1); [apply Hrun1|].
    apply (run_app _ [Enq y] _ _ [EnqRet y false] q1).
    { cbn [run call]. unfold bind, ret. by rewrite Henq. }
    apply (run_app _ _ _ _ _ q2); [apply Hrun2|].
    cbn [run call]. unfold bind, ret. by rewrite Henq3. }
  rewrite Hph3, Hpv3, Hpi3. by repeat split.
Qed.

End Square.

(** *** At most as many blocks as slots per block

    With fewer blocks than slots per block the producer leaves the ring at
    the end of the first lap, and the consumer never leaves the first
    lap. *)

Section Few.

Hypothesis Hge : B <= NE.

Lemma head_step_few v p :
  p + 1 = B -> NE <> B -> 0 <= p -> head_step (MkField v p) = MkField v B.
Proof.
  intros Hp Hne Hp0. assert (NE < 2 ^ INDEX_BITS) as Hidx by apply Hv.
  unfold head_step.
  assert (Field_add (MkField v p) 1 = MkField v B) as ->.
  { rewrite Field_add_small by (cbn [index]; lia). cbn [version index].
    by rewrite Hp. }
  cbn [index]. by destruct (Z.leb_spec NE B); [lia|].
Qed.

Lemma RepT_new : RepT ghost_new Queue_new.
Proof.
  assert (0 < B) as HB by apply Hv.
  split; [apply Rep_new|]. split; [by apply Queue_new_inv|].
  split; [|done]. unfold Queue_new. cbn [blocks].
  destruct (Z.to_nat B) as [|k] eqn:Ek; [lia|].
  cbn [length]. by rewrite length_replicate.
Qed.

(** A call of [enqueue]: undefined when the producer leaves the ring,
    otherwise as for a square queue. *)
Lemma enqueue_few g q t :
  RepT g q -> pv g + 1 < 2 ^ VERSION_BITS ->
  (forall fuel, enqueue (2 + fuel) t q = Undefined)
  \/ exists r q' g',
       (forall fuel, enqueue (2 + fuel) t q = Done (r, q'))
       /\ RepT g' q' /\ delivered_count g' = delivered_count g
       /\ pv g' <= pv g + 1
       /\ hist g' = hist g ++ (if (r : bool) then [t] else []).
Proof.
  intros (Hrep & Hinv & Hsize & Hlap) Hbound.
  pose proof (NE_pos Hv) as HNE. assert (NE <> 0) as HNE0 by lia.
  assert (0 < B) as HB by apply Hv.
  assert ((pk g = NE /\ pi g + 1 = B /\ NE <> B)
          \/ (pk g = NE -> pi g + 1 = B -> NE = B)) as [(Hfull & Hwrap & Hne)|Hsq]
    by lia.
  - pose proof Hrep as [(Hph & Hch & Hco & Hlen & Hblocks) Horigin].
    assert (0 <= pi g < B) as Hpi by apply Hco.
    destruct (Hblocks _ Hpi) as (blk & Hb & Ha & _).
    rewrite PF_at in Ha by done.
    assert (forall fuel, enqueue (S (S fuel)) t q =
              match advance_phead (phead q) q with
              | Done (SUCCESS, q') => enqueue (S fuel) t q'
              | Done (_, q') => Done (false, q')
              | Undefined => Undefined
              | OutOfFuel => OutOfFuel
              end) as Hturn.
    { intros fuel. apply (enqueue_full q (S fuel) t blk);
        rewrite ?Hph, ?Ha; cbn [index]; first [done | lia]. }
    destruct (Hblocks 0) as (nb & Hnb & _); [lia|].
    pose proof (advance_phead_eq q (phead q) nb HNE0 HB) as Heq.
    rewrite Hph in Heq, Hturn. cbn [index version] in Heq.
    rewrite Hwrap, Z_mod_same_full in Heq. specialize (Heq Hnb).
    destruct (_ || _).
    + right. exists false, q, g.
      split; [intros fuel; cbn [Nat.add]; rewrite Hturn, Heq;
              by destruct (_ =? _)|].
      split; [done|]. split; [done|]. split; [lia|]. by rewrite app_nil_r.
    + left. intros fuel. cbn [Nat.add]. rewrite Hturn, Heq.
      apply enqueue_fail. left. cbn [phead set_phead blocks put_block set_blocks].
      rewrite head_step_few by first [done | lia]. cbn [index].
      apply lookup_ge_None_2. rewrite length_insert, Hsize. lia.
  - destruct (enqueue_spec g q t Hrep Hbound Hge Hsq) as
      (r & q' & g' & Hd & Hrep' & Gcv & Gci & Gck & Hpv & Htrue & Hfalse).
    destruct (enqueue_inv 2 t q r q' Hv Hinv (Hd 0%nat)) as (Hinv' & Hsize' & _).
    right. exists r, q', g'. split; [exact Hd|].
    split; [|split; [|split]].
    + split; [done|]. split; [done|]. split; [congruence|].
      intros Hne. specialize (Hlap Hne). destruct r.
      * destruct Htrue as (_ & [(_ & -> & _)|(Hfull & Hn & _)]); [done|done|].
        unfold next_pos in Hn. lia.
      * by destruct Hfalse as (_ & -> & _).
    + unfold delivered_count. by rewrite Gcv, Gci, Gck.
    + lia.
    + destruct r; [by apply Htrue|].
      destruct Hfalse as (_ & -> & _); [done|]. by rewrite app_nil_r.
Qed.

(** A call of [dequeue]: at the end of the first lap of such a queue the
    consumer finds nothing more. *)
Lemma dequeue_few g q :
  RepT g q -> pv g + 1 < 2 ^ VERSION_BITS ->
  exists r q' g',
    (forall fuel, dequeue (2 + fuel) q = Done (r, q'))
    /\ RepT g' q' /\ pv g' = pv g /\ hist g' = hist g
    /\ match r with
       | Some x =>
           hist g !! delivered_count g = Some x
           /\ delivered_count g' = S (delivered_count g)
       | None =>
           delivered_count g = length (hist g)
           /\ delivered_count g' = delivered_count g
       end.
Proof.
  intros (Hrep & Hinv & Hsize & Hlap) Hbound.
  pose proof (NE_pos Hv) as HNE. assert (NE <> 0) as HNE0 by lia.
  assert (0 < B) as HB by apply Hv.
  assert ((ck g = NE /\ ci g + 1 = B /\ NE <> B)
          \/ (ck g = NE -> ci g + 1 = B -> NE = B)) as [(Hfull & Hwrap & Hne)|Hsq]
    by lia.
  - pose proof Hrep as [(Hph & Hch & Hco & Hlen & Hblocks) Horigin].
    assert (0 <= ci g < B) as Hci by apply Hco.
    destruct (Hblocks _ Hci) as (blk & Hb & _ & _ & Hr & _).
    rewrite CF_at in Hr by done.
    assert (forall fuel, dequeue (S (S fuel)) q =
              match advance_chead (chead q) (gen (cv g) (ci g)) q with
              | Done (true, q') => dequeue (S fuel) q'
              | Done (false, q') => Done (None, q')
              | Undefined => Undefined
              | OutOfFuel => OutOfFuel
              end) as Hturn.
    { intros fuel. rewrite (dequeue_turn q (S fuel) blk);
        rewrite ?Hch; cbn [index]; try first [done | lia].
      cbv zeta. rewrite Hr. cbn [index version].
      by destruct (Z.ltb_spec (ck g) NE); [lia|]. }
    destruct (Hblocks 0) as (nb & Hnb & _ & Hc & _); [lia|].
    pose proof (advance_chead_eq q (chead q) (gen (cv g) (ci g)) nb HNE0 HB) as Heq.
    rewrite Hch in Heq, Hturn. cbn [index version] in Heq.
    rewrite Hwrap, Z_mod_same_full in Heq. specialize (Heq Hnb).
    specialize (Hlap Hne).
    assert (version (comm nb) = 0) as Hvc.
    { rewrite Hc. unfold PF, gen. rewrite Hlap.
      by destruct (0 <? pi g), (0 =? pi g). }
    assert (cv g = 0 /\ pi g = ci g /\ pk g = ck g) as (Hcv & Epi & Epk)
      by (unfold coords_ok in Hco; lia).
    assert ((0 =? cv g + 1) = false) as Hno by (apply Z.eqb_neq; lia).
    rewrite Hvc, Hno in Heq.
    exists None, q, g.
    split; [intros fuel; cbn [Nat.add]; by rewrite Hturn, Heq|].
    split; [done|]. split; [done|]. split; [done|]. split; [|done].
    unfold delivered_count. rewrite <- Epi, <- Epk, Hcv, <- Hlap, <- Hlen. lia.
  - destruct (dequeue_spec g q Hrep Hbound Hge Hsq) as
      (r & q' & g' & Hd & Hrep' & Gpv & Gpi & Gpk & Gh & Hr).
    destruct (dequeue_inv 2 q r q' Hv Hinv (Hd 0%nat)) as (Hinv' & Hsize' & _).
    exists r, q', g'. split; [exact Hd|].
    split; [|split; [done|split; [done|]]].
    + split; [done|]. split; [done|]. split; [congruence|].
      intros Hne. rewrite Gpv. by apply Hlap.
    + destruct r as [x|]; [done|].
      by destruct Hr as (_ & -> & ? & _).
Qed.

(** First in, first out, for every queue with at most as many blocks as
    slots per block. *)
Lemma fifo_few fuel ops es q :
  Z.of_nat (length ops) + 1 < 2 ^ VERSION_BITS ->
  run fuel ops Queue_new = Done (es, q) ->
  exists pending q',
    accepted es = delivered es ++ pending
    /\ (forall fuel',
         run (2 + fuel') (replicate (length pending) Deq) q
         = Done (map (fun x => DeqRet (Some x)) pending, q'))
    /\ (forall fuel', exists q'', dequeue (2 + fuel') q' = Done (None, q'')).
Proof.
  apply (generic_fifo Ghost RepT hist delivered_count pv 2
           enqueue_few dequeue_few ghost_new); try done.
  apply RepT_new.
Qed.

(** Where an execution of complete calls leaves the queue. *)
Lemma reach_few fuel ops es q :
  Z.of_nat (length ops) + 1 < 2 ^ VERSION_BITS ->
  run fuel ops Queue_new = Done (es, q) ->
  exists g,
    RepT g q /\ hist g = accepted es
    /\ length (delivered es) = delivered_count g
    /\ (delivered_count g <= length (hist g))%nat
    /\ pv g + 1 < 2 ^ VERSION_BITS.
Proof.
  intros Hbound Hrun.
  destruct (generic_run Ghost RepT hist delivered_count pv 2
              enqueue_few dequeue_few ops ghost_new Queue_new fuel es q)
    as (g & Hi & Hc & Hl & Hh & Ht).
  { apply RepT_new. }
  { unfold delivered_count, lin. cbn [ghost_new cv ci ck hist length]. lia. }
  { cbn [ghost_new pv]. lia. }
  { done. }
  exists g. cbn [ghost_new hist pv app] in *. split; [done|]. split; [done|].
  split; [|split; [done|lia]].
  rewrite take_nil in Ht. cbn [app] in Ht. rewrite <- Ht, length_take. lia.
Qed.

Lemma heads_few g q :
  RepT g q ->
  0 <= index (phead q) < B /\ 0 <= index (chead q) < B.
Proof.
  intros (((Hph & Hch & Hco & _) & _) & _). rewrite Hph, Hch. cbn [index].
  unfold coords_ok in Hco. lia.
Qed.

Lemma N_blocks : N = B * NE.
Proof.
  destruct Hv as (_ & Hm & HB & _). unfold NE.
  apply Z.div_exact; [lia|done].
Qed.

Lemma occupancy_few g q :
  RepT g q ->
  Z.of_nat (length (hist g)) - Z.of_nat (delivered_count g) <= N.
Proof.
  intros (((_ & _ & Hco & Hlen & _) & _) & _).
  pose proof (NE_pos Hv) as HNE. pose proof N_blocks as HN.
  assert (0 <= lin (cv g) (ci g) (ck g)) as Hc0.
  { unfold coords_ok in Hco. apply lin_nonneg; lia. }
  unfold delivered_count. rewrite Z2Nat.id by done. rewrite Hlen, HN.
  unfold lin, coords_ok in *.
  destruct Hco as (Hpi & Hci & Hpk & Hck & Hcv & [(-> & Hord)|(-> & Hord)]).
  - assert ((pi g - ci g) * NE <= (B - 1) * NE) by (apply Z.mul_le_mono_nonneg_r; lia).
    lia.
  - assert ((pi g - ci g) * NE <= 0 * NE) by (apply Z.mul_le_mono_nonneg_r; lia).
    destruct Hord as [Hlt|[-> ->]]; [|lia].
    assert ((pi g - ci g) * NE <= (-1) * NE) by (apply Z.mul_le_mono_nonneg_r; lia).
    lia.
Qed.

Lemma lifetime_few g q :
  RepT g q -> NE <> B -> Z.of_nat (length (hist g)) <= N.
Proof.
  intros (((_ & _ & Hco & Hlen & _) & _) & _ & _ & Hlap) Hne.
  pose proof (NE_pos Hv) as HNE. pose proof N_blocks as HN.
  rewrite Hlen, (Hlap Hne), HN. unfold lin, coords_ok in *.
  assert (pi g * NE <= (B - 1) * NE) by (apply Z.mul_le_mono_nonneg_r; lia).
  lia.
Qed.

(** A call that returns [false] leaves such a queue as it was. *)
Lemma refused_few g q :
  RepT g q -> pv g + 1 < 2 ^ VERSION_BITS ->
  (forall fuel t q', enqueue fuel t q = Done (false, q') -> q' = q)
  /\ (forall fuel q', dequeue fuel q = Done (None, q') -> q' = q).
Proof.
  intros (Hrep & Hinv & Hsize & Hlap) Hbound.
  pose proof (NE_pos Hv) as HNE. assert (NE <> 0) as HNE0 by lia.
  assert (0 < B) as HB by apply Hv.
  pose proof Hrep as [(Hph & Hch & Hco & Hlen & Hblocks) Horigin].
  split.
  - intros fuel t q' Hd. apply (enqueue_more 2) in Hd. cbn [Nat.add] in Hd.
    assert ((pk g = NE /\ pi g + 1 = B /\ NE <> B)
            \/ (pk g = NE -> pi g + 1 = B -> NE = B))
      as [(Hfull & Hwrap & Hne)|Hsq] by lia.
    + assert (0 <= pi g < B) as Hpi by apply Hco.
      destruct (Hblocks _ Hpi) as (blk & Hb & Ha & _).
      rewrite PF_at in Ha by done.
      rewrite (enqueue_full q (S fuel) t blk) in Hd;
        rewrite ?Hph, ?Ha; cbn [index]; try first [done | lia].
      destruct (Hblocks 0) as (nb & Hnb & _); [lia|].
      pose proof (advance_phead_eq q (phead q) nb HNE0 HB) as Heq.
      rewrite Hph in Heq, Hd. cbn [index version] in Heq.
      rewrite Hwrap, Z_mod_same_full in Heq. specialize (Heq Hnb).
      rewrite Heq in Hd. destruct (_ || _).
      * destruct (_ =? _); congruence.
      * rewrite enqueue_fail in Hd; [done|]. left.
        cbn [phead set_phead blocks put_block set_blocks].
        rewrite head_step_few by first [done | lia]. cbn [index].
        apply lookup_ge_None_2. rewrite length_insert, Hsize. lia.
    + destruct (enqueue_spec g q t Hrep Hbound Hge Hsq) as
        (r & q1 & g1 & Hd1 & _ & _ & _ & _ & _ & _ & Hfalse).
      rewrite (Hd1 fuel) in Hd. injection Hd as -> <-. by apply Hfalse.
  - intros fuel q' Hd. apply (dequeue_more 2) in Hd. cbn [Nat.add] in Hd.
    assert ((ck g = NE /\ ci g + 1 = B /\ NE <> B)
            \/ (ck g = NE -> ci g + 1 = B -> NE = B))
      as [(Hfull & Hwrap & Hne)|Hsq] by lia.
    + assert (0 <= ci g < B) as Hci by apply Hco.
      destruct (Hblocks _ Hci) as (blk & Hb & _ & _ & Hr & _).
      rewrite CF_at in Hr by done.
      rewrite (dequeue_turn q (S fuel) blk) in Hd;
        rewrite ?Hch; cbn [index]; try first [done | lia].
      cbv zeta in Hd. rewrite Hr in Hd. cbn [index version] in Hd.
      destruct (Z.ltb_spec (ck g) NE); [lia|].
      destruct (Hblocks 0) as (nb & Hnb & _ & Hc & _); [lia|].
      pose proof (advance_chead_eq q (chead q) (gen (cv g) (ci g)) nb HNE0 HB) as Heq.
      rewrite Hch in Heq, Hd. cbn [index version] in Heq.
      rewrite Hwrap, Z_mod_same_full in Heq. specialize (Heq Hnb).
      specialize (Hlap Hne).
      assert (version (comm nb) = 0) as Hvc.
      { rewrite Hc. unfold PF, gen. rewrite Hlap.
        by destruct (0 <? pi g), (0 =? pi g). }
      assert (cv g = 0) as Hcv by (unfold coords_ok in Hco; lia).
      assert ((0 =? cv g + 1) = false) as Hno by (apply Z.eqb_neq; lia).
      rewrite Hvc, Hno in Heq. rewrite Heq in Hd. congruence.
    + destruct (dequeue_spec g q Hrep Hbound Hge Hsq) as
        (r & q1 & g1 & Hd1 & _ & _ & _ & _ & _ & Hr).
      rewrite (Hd1 fuel) in Hd. injection Hd as -> <-. by destruct Hr as (-> & _).
Qed.

End Few.

End Tall.

(** ** Queues with more blocks than slots per block *)

Section Wide.

Hypothesis Hv : valid_params.
Hypothesis Hlt : NE < B.

Ltac coordsw :=
  unfold live_w, live, lex_le, lex_lt, coords_w, next_w in *;
  cbn [pv pi pk cv ci ck hist] in *; lia.

Ltac fw_cases :=
  repeat (match goal with
          | |- context [?a <? ?b] => destruct (Z.ltb_spec a b)
          | |- context [?a =? ?b] => destruct (Z.eqb_spec a b)
          | |- context [?a >? ?b] => destruct (Z.gtb_spec a b)
          end; cbn [version index]; try lia).

Lemma FW_at v i k :
  0 <= i < NE -> v = 0 \/ 1 <= i ->
  FW v i k i = MkField (version (FW v i 0 i)) k.
Proof. intros Hi Hd. unfold FW, gen. fw_cases; done. Qed.

Lemma FW_index v i k :
  0 <= i < NE -> (v <> 0 -> i = 0 -> k = NE) -> index (FW v i k i) = k.
Proof. intros Hi Hd. unfold FW, gen. fw_cases; done. Qed.

Lemma FW_other v i k k' j : j <> i -> FW v i k j = FW v i k' j.
Proof. intros Hj. unfold FW. fw_cases; done. Qed.

Lemma FW_version v i k j : 0 <= version (FW v i k j) <= 2.
Proof. unfold FW, gen. fw_cases. Qed.

Lemma FW_stamped v p v' p' k' :
  0 <= v -> 0 <= p < NE -> next_w v p v' p' k' -> v' <= 1 ->
  raise (MkField (v + 1) 0) (FW v p NE (p + 1)) = FW v' p' k' (p + 1).
Proof.
  intros Hv0 Hp Hn Hv1. unfold next_w in Hn. unfold raise, FW, gen.
  fw_cases; try done; f_equal; lia.
Qed.

Lemma FW_advance_other v p v' p' k' j :
  0 <= v -> 0 <= p < NE -> next_w v p v' p' k' -> v' <= 1 ->
  0 <= j -> j <> p + 1 ->
  FW v' p' k' j = FW v p NE j.
Proof.
  intros Hv0 Hp Hn Hv1 Hj Hne. unfold next_w in Hn. unfold FW, gen.
  fw_cases; try done; f_equal; lia.
Qed.

Lemma block_rep_w_mono g g' j blk :
  block_rep_w g j blk ->
  FW (pv g') (pi g') (pk g') j = FW (pv g) (pi g) (pk g) j ->
  FW (cv g') (ci g') (ck g') j = FW (cv g) (ci g) (ck g) j ->
  (forall v s, 0 <= s < NE -> live_w g' v j s -> live_w g v j s) ->
  hist g `prefix_of` hist g' ->
  block_rep_w g' j blk.
Proof.
  intros (Ha & Hc & Hr & Hcs & Hlen & Hdata) HP HC Hlive [k Hk].
  unfold block_rep_w. rewrite HP, HC. repeat split; try done.
  intros v s Hs Hl. destruct (Hdata v s Hs (Hlive v s Hs Hl)) as (x & Hx & Hh).
  exists x. split; [done|]. rewrite Hk. by apply lookup_app_l_Some.
Qed.

Lemma blocks_rep_put_w g g' q i blk' :
  0 <= i < B ->
  (forall j, 0 <= j < B ->
     exists blk, blocks q !! Z.to_nat j = Some blk /\ block_rep_w g j blk) ->
  block_rep_w g' i blk' ->
  (forall j blk, 0 <= j < B -> j <> i -> block_rep_w g j blk -> block_rep_w g' j blk) ->
  forall j, 0 <= j < B ->
    exists blk, blocks (put_block (Z.to_nat i) blk' q) !! Z.to_nat j = Some blk
                /\ block_rep_w g' j blk.
Proof.
  intros Hi Hall Hnew Hframe j Hj.
  destruct (Z.eq_dec j i) as [->|Hne].
  - exists blk'. split; [|done].
    destruct (Hall i Hi) as (blk & Hb & _). by eapply lookup_put_block_eq.
  - destruct (Hall j Hj) as (blk & Hb & Hrep). exists blk. split.
    + rewrite lookup_put_block_ne by lia. done.
    + by apply Hframe.
Qed.

Lemma lin_w_nonneg v j s : 0 <= v -> 0 <= j -> 0 <= s -> 0 <= lin_w v j s.
Proof.
  intros. unfold lin_w. pose proof (NE_pos Hv).
  apply Z.add_nonneg_nonneg; [|done].
  apply Z.mul_nonneg_nonneg; [|lia].
  apply Z.add_nonneg_nonneg; [|done]. apply Z.mul_nonneg_nonneg; lia.
Qed.

Lemma lin_w_next v p v' p' k' :
  next_w v p v' p' k' -> lin_w v' p' k' = lin_w v p NE.
Proof.
  unfold lin_w. intros [(_ & -> & -> & ->)|(Hb & -> & -> & ->)]; [ring|].
  assert (p = NE - 1) as -> by lia. ring.
Qed.

Lemma next_w_total v p : 0 <= p < NE -> exists v' p' k', next_w v p v' p' k'.
Proof.
  intros Hp. unfold next_w. destruct (Z.eq_dec (p + 1) NE).
  - exists (v + 1), 0, NE. lia.
  - exists v, (p + 1), 0. lia.
Qed.

Lemma head_step_w v p v' p' k' :
  next_w v p v' p' k' -> 0 <= p -> 0 <= v <= 1 ->
  head_step (MkField v p) = MkField v' p'.
Proof.
  intros Hn Hp Hv0. pose proof (NE_pos Hv) as HNE.
  assert (NE < 2 ^ INDEX_BITS) as Hidx by apply Hv.
  unfold head_step.
  assert (Field_add (MkField v p) 1 = MkField v (p + 1)) as ->.
  { apply Field_add_small. cbn [index]. unfold next_w in Hn. lia. }
  cbn [version index].
  destruct Hn as [(? & -> & -> & _)|(Hb & -> & -> & _)].
  - destruct (Z.leb_spec NE (p + 1)); [lia|done].
  - destruct (Z.leb_spec NE (p + 1)); [|lia].
    rewrite Hb, Z_mod_same_full, Z.mod_0_l by (rewrite two_pow_index; lia).
    by rewrite Z.mod_small by (rewrite two_pow_version; lia).
Qed.

(** A call of [enqueue] on a block with room. *)
Lemma produce_step_w g q t :
  RepW g q -> pk g < NE ->
  exists q',
    (forall fuel, enqueue (S fuel) t q = Done (true, q'))
    /\ RepW (MkGhost (pv g) (pi g) (pk g + 1) (cv g) (ci g) (ck g) (hist g ++ [t])) q'.
Proof.
  intros (Hph & Hch & Hco & Hlen & Hblocks) Hroom.
  pose proof (NE_pos Hv) as HNE.
  assert (NE < 2 ^ INDEX_BITS) as Hidx by apply Hv.
  assert (0 <= pi g < NE) as Hpi by apply Hco.
  assert (0 <= pk g) as Hpk by apply Hco.
  assert (pv g = 0 \/ 1 <= pi g) as Hnd by coordsw.
  destruct (Hblocks (pi g)) as (blk & Hb & Ha & Hc & Hr & Hcs & Hdlen & Hdata);
    [lia|].
  rewrite FW_at in Ha, Hc by done.
  eexists. split.
  { intros fuel.
    rewrite (enqueue_room q fuel t blk); rewrite ?Hph, ?Ha, ?Hdlen;
      cbn [index]; first [done | lia]. }
  rewrite ?Ha, ?Hc, ?Hph. cbn [index].
  rewrite Field_add_small by (cbn [index]; lia). cbn [version index].
  split; [done|]. split; [done|]. split; [coordsw|]. split.
  { cbn [hist pv pi pk]. rewrite length_app. cbn [length]. unfold lin_w in *. lia. }
  apply (blocks_rep_put_w g); try done; [lia| |].
  - unfold block_rep_w. cbn [alloc comm resv cons data pv pi pk cv ci ck].
    rewrite (FW_at _ _ (pk g + 1)), length_insert by done.
    rewrite Hr, Hcs. repeat split; try done.
    intros v s Hs Hl.
    destruct (Z.eq_dec s (pk g)) as [->|Hne].
    + exists t. split.
      * apply list_lookup_insert_eq. lia.
      * assert (v = pv g) as -> by coordsw.
        cbn [hist]. rewrite <- Hlen, Nat2Z.id.
        by rewrite lookup_app_r, Nat.sub_diag by lia.
    + destruct (Hdata v s Hs) as (x & Hx & Hh); [coordsw|].
      exists x. split.
      * rewrite list_lookup_insert_ne by lia. done.
      * cbn [hist]. by apply lookup_app_l_Some.
  - intros j blkj Hj Hne Hrep. apply (block_rep_w_mono g); try done.
    + cbn [pv pi pk]. by apply FW_other.
    + intros v s Hs Hl. coordsw.
    + by apply prefix_app_r.
Qed.

(** The test of [advance_phead] against the abstract positions. *)
Lemma reusable_iff_w g v' p' k' :
  coords_w g -> pk g = NE -> next_w (pv g) (pi g) v' p' k' ->
  ~ not_reusable (FW (cv g) (ci g) (ck g) (pi g + 1)) (MkField (pv g) (pi g))
  <-> coords_w (MkGhost v' p' k' (cv g) (ci g) (ck g) (hist g)).
Proof.
  intros Hco Hfull Hn. pose proof (NE_pos Hv) as HNE.
  assert (0 <= pi g < NE /\ 0 <= ci g < NE /\ 0 <= cv g <= 1 /\ 0 <= pv g <= 1)
    as Hrange by (unfold coords_w in Hco; lia).
  unfold not_reusable, FW, gen, next_w in *.
  fw_cases.
  all: unfold coords_w in *; cbn [pv pi pk cv ci ck hist] in *.
  all: split; [intros Hr; repeat split|intros Hr Hnr].
  all: lia.
Qed.

(** [advance_phead] on a full block: either the next block is still in
    use and nothing changes, or the producer moves on. *)
Lemma padvance_step_w g q v' p' k' :
  RepW g q -> pk g = NE -> next_w (pv g) (pi g) v' p' k' ->
  let g1 := MkGhost v' p' k' (cv g) (ci g) (ck g) (hist g) in
  (~ coords_w g1
   /\ exists st, advance_phead (phead q) q = Done (st, q) /\ st <> SUCCESS)
  \/ (coords_w g1
      /\ exists q1, advance_phead (phead q) q = Done (SUCCESS, q1) /\ RepW g1 q1).
Proof.
  intros (Hph & Hch & Hco & Hlen & Hblocks) Hfull Hn g1.
  pose proof (NE_pos Hv) as HNE. assert (NE <> 0) as HNE0 by lia.
  assert (0 < B) as HB by apply Hv.
  assert (0 <= pi g < NE) as Hpi by apply Hco.
  assert (0 <= pv g <= 1) as Hpv by (unfold coords_w in Hco; lia).
  assert ((pi g + 1) mod B = pi g + 1) as Hnb by (apply Z.mod_small; lia).
  destruct (Hblocks (pi g + 1)) as (nb & Hb & Ha & Hc & Hr & Hcs & Hdlen & Hdata);
    [lia|].
  pose proof (advance_phead_eq q (phead q) nb HNE0 HB) as Heq.
  rewrite Hph in Heq |- *. cbn [index version] in Heq. rewrite Hnb in Heq.
  specialize (Heq Hb).
  pose proof (reusable_iff_w g v' p' k' Hco Hfull Hn) as Hiff. fold g1 in Hiff.
  pose proof (not_reusable_test (cons nb) (MkField (pv g) (pi g))) as Htest.
  cbn [version index] in Htest. rewrite <- Hcs in Hiff.
  destruct (_ || _) eqn:E.
  - left. split; [intros Hok; apply Hiff in Hok; apply Hok; by apply Htest|].
    eexists. split; [exact Heq|].
    by destruct (index (resv nb) =? index (cons nb)).
  - right. assert (coords_w g1) as Hco1.
    { apply Hiff. intros Hnr. apply Htest in Hnr. congruence. }
    assert (v' <= 1) as Hv1 by (unfold coords_w in Hco1; subst g1; cbn [pv] in Hco1; lia).
    split; [done|]. eexists. split; [exact Heq|].
    split; [cbn [phead set_phead]; apply (head_step_w _ _ _ _ k'); first [done|lia]|].
    split; [done|]. split; [done|]. split.
    { cbn [hist pv pi pk g1]. rewrite Hlen, Hfull. symmetry. by apply lin_w_next. }
    intros j Hj. cbn [blocks set_phead].
    apply (blocks_rep_put_w g g1); try done; [lia| |].
    + unfold block_rep_w, stamp_producer. cbn [alloc comm resv cons data version].
      rewrite Field_ctor_small by (rewrite ?two_pow_index, ?two_pow_version; lia).
      rewrite Ha, Hc, Hr, Hcs.
      rewrite (FW_other _ _ (pk g) NE) by lia.
      rewrite (FW_stamped _ _ v' p' k') by first [done | lia].
      repeat split; try done.
      intros v s Hs Hl. apply Hdata; [done|].
      clear - Hl Hn Hfull Hs Hpi Hco. subst g1. coordsw.
    + intros i blk Hi Hne Hrep. apply (block_rep_w_mono g); try done.
      * cbn [g1 pv pi pk]. rewrite Hfull.
        by apply (FW_advance_other (pv g) (pi g)); first [done | lia].
      * intros v s Hs Hl.
        clear - Hl Hn Hfull Hs Hi Hco. subst g1. coordsw.
Qed.

Lemma enq_result_more h d t q n :
  enq_result h d t q n -> enq_result h d t q (S n).
Proof.
  intros (r & q' & g' & Hd & H). exists r, q', g'. split; [|done].
  intros fuel. specialize (Hd (S fuel)). by rewrite Nat.add_succ_r in Hd.
Qed.

Lemma enqueue_room_w g q t :
  RepW g q -> pk g < NE -> enq_result (hist g) (delivered_w g) t q 1.
Proof.
  intros Hrep Hroom. destruct (produce_step_w g q t Hrep Hroom) as (q' & Hd & Hrep').
  eexists true, q', _. split; [exact Hd|]. split; [exact Hrep'|]. done.
Qed.

(** A turn of [enqueue] on a full block, followed by [n] more turns. *)
Lemma enqueue_advance_w g q t n :
  RepW g q -> pk g = NE ->
  (forall v' p' k' q1,
     next_w (pv g) (pi g) v' p' k' ->
     RepW (MkGhost v' p' k' (cv g) (ci g) (ck g) (hist g)) q1 ->
     enq_result (hist g) (delivered_w g) t q1 n) ->
  enq_result (hist g) (delivered_w g) t q (S n).
Proof.
  intros Hrep Hfull Hnext.
  pose proof Hrep as (Hph & Hch & Hco & Hlen & Hblocks).
  pose proof (NE_pos Hv) as HNE.
  assert (0 <= pi g < NE) as Hpi by apply Hco.
  destruct (Hblocks (pi g)) as (blk & Hb & Ha & _); [lia|].
  assert (index (alloc blk) = NE) as Hidx.
  { rewrite Ha, <- Hfull. apply FW_index; [done|]. unfold coords_w in Hco. lia. }
  destruct (next_w_total (pv g) (pi g) Hpi) as (v' & p' & k' & Hn).
  assert (forall fuel, enqueue (S fuel) t q =
            match advance_phead (phead q) q with
            | Done (SUCCESS, q') => enqueue fuel t q'
            | Done (_, q') => Done (false, q')
            | Undefined => Undefined
            | OutOfFuel => OutOfFuel
            end) as Hturn.
  { intros fuel. apply (enqueue_full q fuel t blk);
      rewrite ?Hph, ?Hidx; cbn [index]; first [done | lia]. }
  destruct (padvance_step_w g q v' p' k' Hrep Hfull Hn)
    as [(Hnok & st & Heq & Hst)|(Hok & q1 & Heq & Hrep1)].
  - exists false, q, g.
    split; [intros fuel; cbn [Nat.add]; rewrite Hturn, Heq; by destruct st|].
    split; [done|]. split; [done|]. by rewrite app_nil_r.
  - destruct (Hnext v' p' k' q1 Hn Hrep1) as (r & q' & g' & Hd & H).
    exists r, q', g'. split; [|done].
    intros fuel. cbn [Nat.add]. by rewrite Hturn, Heq.
Qed.

(** A call of [enqueue] takes at most three turns of its loop. *)
Lemma enqueue_w g q t :
  RepW g q -> enq_result (hist g) (delivered_w g) t q 3.
Proof.
  intros Hrep. pose proof (NE_pos Hv) as HNE.
  pose proof Hrep as (_ & _ & Hco & _).
  destruct (Z.eq_dec (pk g) NE) as [Hfull|Hroom].
  - apply enqueue_advance_w; [done|done|]. intros v1 p1 k1 q1 Hn1 Hrep1.
    pose proof Hrep1 as (_ & _ & Hco1 & _).
    destruct (Z.eq_dec k1 NE) as [Hdead|Hlive].
    + apply (enqueue_advance_w _ q1 t 1 Hrep1); [done|].
      intros v2 p2 k2 q2 Hn2 Hrep2. pose proof Hrep2 as (_ & _ & Hco2 & _).
      apply (enqueue_room_w _ q2 t Hrep2). cbn [pk].
      assert (0 <= pv g) as Hpv0 by (unfold coords_w in Hco; lia).
      assert (v2 <= 1) as Hv2 by (unfold coords_w in Hco2; cbn [pv] in Hco2; lia).
      cbn [pv pi pk] in Hn2.
      clear - Hpv0 Hv2 Hn1 Hn2 HNE Hdead. unfold next_w in *. lia.
    + apply enq_result_more. apply (enqueue_room_w _ q1 t Hrep1).
      cbn [pk]. clear - Hn1 Hlive HNE. unfold next_w in *. lia.
  - do 2 apply enq_result_more. apply enqueue_room_w; [done|].
    unfold coords_w in Hco. lia.
Qed.

(** The test of [reserve_entry] against the abstract positions. *)
Lemma comm_index_w g :
  coords_w g -> ck g < NE ->
  index (FW (pv g) (pi g) (pk g) (ci g)) = ck g
  <-> pv g = cv g /\ pi g = ci g /\ pk g = ck g.
Proof.
  intros Hco Hroom. pose proof (NE_pos Hv) as HNE.
  unfold FW, gen, coords_w in *. fw_cases.
Qed.

Lemma pending_live_w g :
  coords_w g -> ck g < NE ->
  ~ (pv g = cv g /\ pi g = ci g /\ pk g = ck g) ->
  live_w g (cv g) (ci g) (ck g).
Proof. intros Hco Hroom Hne. coordsw. Qed.

Lemma delivered_w_next g g' :
  coords_w g ->
  cv g' = cv g -> ci g' = ci g -> ck g' = ck g + 1 ->
  delivered_w g' = S (delivered_w g).
Proof.
  intros Hco Hcv Hci Hck. unfold delivered_w. rewrite Hcv, Hci, Hck.
  pose proof (lin_w_nonneg (cv g) (ci g) (ck g)).
  unfold coords_w in Hco. unfold lin_w in *. lia.
Qed.

Lemma empty_w g :
  pv g = cv g -> pi g = ci g -> pk g = ck g ->
  Z.of_nat (length (hist g)) = lin_w (pv g) (pi g) (pk g) ->
  delivered_w g = length (hist g).
Proof.
  intros E1 E2 E3 E4. unfold delivered_w.
  rewrite <- E1, <- E2, <- E3, <- E4. lia.
Qed.

(** A turn of [dequeue] on a block that is not drained. *)
Lemma consume_step_w g q :
  RepW g q -> ck g < NE -> deq_result (hist g) (delivered_w g) q 1.
Proof.
  intros Hrep Hroom. pose proof Hrep as (Hph & Hch & Hco & Hlen & Hblocks).
  pose proof (NE_pos Hv) as HNE.
  assert (NE < 2 ^ INDEX_BITS) as Hidx by apply Hv.
  assert (0 <= ci g < NE) as Hci by apply Hco.
  assert (0 <= ck g) as Hck by apply Hco.
  assert (cv g = 0 \/ 1 <= ci g) as Hnd by (unfold coords_w in Hco; lia).
  destruct (Hblocks (ci g)) as (blk & Hb & Ha & Hc & Hr & Hcs & Hdlen & Hdata);
    [lia|].
  rewrite FW_at in Hr, Hcs by done.
  assert (forall fuel, dequeue (S fuel) q = dequeue 1 q) as Hfuel.
  { intros fuel. rewrite (dequeue_turn q fuel blk), (dequeue_turn q 0 blk);
      rewrite ?Hch; cbn [index]; try first [done | lia].
    cbv zeta. rewrite Hr. cbn [index].
    by destruct (Z.ltb_spec (ck g) NE); [|lia]. }
  pose proof (dequeue_turn q 0 blk) as Hturn.
  rewrite Hch in Hturn. cbn [index] in Hturn. specialize (Hturn Hb (proj1 Hci)).
  cbv zeta in Hturn. rewrite Hr, Hc, Ha in Hturn. cbn [index version] in Hturn.
  destruct (Z.ltb_spec (ck g) NE); [|lia].
  pose proof (comm_index_w g Hco Hroom) as Hiff.
  destruct (Z.eqb_spec (ck g) (index (FW (pv g) (pi g) (pk g) (ci g)))) as [E|E].
  - destruct Hiff as [Hiff _]. destruct Hiff as (E1 & E2 & E3); [done|].
    exists None, q, g. split; [intros fuel; by rewrite Hfuel|].
    split; [done|]. split; [done|]. split; [|done]. by apply empty_w.
  - rewrite Z.eqb_refl, andb_false_r in Hturn.
    assert (live_w g (cv g) (ci g) (ck g)) as Hlive.
    { apply pending_live_w; try done. intros Hn. apply E. symmetry. by apply Hiff. }
    destruct (Hdata _ _ (conj Hck Hroom) Hlive) as (x & Hx & Hh).
    rewrite Z.max_r in Hturn by lia.
    rewrite Field_ctor_small in Hturn
      by (pose proof (FW_version (cv g) (ci g) 0 (ci g)); rewrite ?two_pow_version; lia).
    erewrite consume_entry_eq in Hturn;
      [|by eapply lookup_put_block_eq|lia|cbn [index]; lia|exact Hx].
    rewrite put_block_twice in Hturn.
    cbn [alloc comm resv cons data set_cursor index] in Hturn.
    rewrite Hcs in Hturn. rewrite Field_add_small in Hturn by (cbn [index]; lia).
    cbn [version index] in Hturn.
    eexists (Some x), _, (MkGhost (pv g) (pi g) (pk g) (cv g) (ci g) (ck g + 1) (hist g)).
    split; [intros fuel; rewrite Hfuel; exact Hturn|].
    split; [|split; [done|split; [exact Hh|by apply delivered_w_next]]].
    split; [done|]. split; [done|]. split; [clear - Hco Hlive Hroom; coordsw|].
    split; [done|].
    apply (blocks_rep_put_w g); try done; [lia| |].
    + unfold block_rep_w. cbn [alloc comm resv cons data pv pi pk cv ci ck hist].
      rewrite (FW_at _ _ (ck g + 1)), length_insert by done.
      rewrite Ha. repeat split; try done.
      intros v s Hs Hl.
      assert (s <> ck g) as Hne by (clear - Hl Hco; coordsw).
      destruct (Hdata v s Hs) as (y & Hy & Hh'); [clear - Hl Hco; coordsw|].
      exists y. split; [|done].
      rewrite list_lookup_insert_ne by lia. done.
    + intros j blkj Hj Hne Hrep'. apply (block_rep_w_mono g); try done.
      * cbn [cv ci ck]. by apply FW_other.
      * intros v s Hs Hl. clear - Hl Hco. coordsw.
Qed.

(** The test of [advance_chead] against the abstract positions. *)
Lemma filled_iff_w g v' p' k' :
  coords_w g -> ck g = NE -> next_w (cv g) (ci g) v' p' k' ->
  version (FW (pv g) (pi g) (pk g) (ci g + 1)) = cv g + 1
  <-> coords_w (MkGhost (pv g) (pi g) (pk g) v' p' k' (hist g)).
Proof.
  intros Hco Hfull Hn. pose proof (NE_pos Hv) as HNE.
  assert (0 <= pi g < NE /\ 0 <= ci g < NE /\ 0 <= cv g <= 1 /\ 0 <= pv g <= 1)
    as Hrange by (unfold coords_w in Hco; lia).
  unfold FW, gen, next_w in *.
  fw_cases.
  all: unfold coords_w in *; cbn [pv pi pk cv ci ck hist] in *.
  all: split; [intros Hr; repeat split|intros Hr].
  all: lia.
Qed.

Lemma caught_up_w g v' p' k' :
  coords_w g -> ck g = NE -> next_w (cv g) (ci g) v' p' k' ->
  ~ coords_w (MkGhost (pv g) (pi g) (pk g) v' p' k' (hist g)) ->
  pv g = cv g /\ pi g = ci g /\ pk g = ck g.
Proof. intros Hco Hfull Hn Hnok. pose proof (NE_pos Hv) as HNE. coordsw. Qed.

(** [advance_chead] on a drained block: either the queue is empty and
    nothing changes, or the consumer moves on. *)
Lemma cadvance_step_w g q v' p' k' vsn :
  RepW g q -> ck g = NE -> next_w (cv g) (ci g) v' p' k' ->
  let g1 := MkGhost (pv g) (pi g) (pk g) v' p' k' (hist g) in
  (pv g = cv g /\ pi g = ci g /\ pk g = ck g
   /\ advance_chead (chead q) vsn q = Done (false, q))
  \/ (exists q1, advance_chead (chead q) vsn q = Done (true, q1) /\ RepW g1 q1).
Proof.
  intros (Hph & Hch & Hco & Hlen & Hblocks) Hfull Hn g1.
  pose proof (NE_pos Hv) as HNE. assert (NE <> 0) as HNE0 by lia.
  assert (0 < B) as HB by apply Hv.
  assert (0 <= ci g < NE) as Hci by apply Hco.
  assert (0 <= cv g <= 1) as Hcv by (unfold coords_w in Hco; lia).
  assert ((ci g + 1) mod B = ci g + 1) as Hnb by (apply Z.mod_small; lia).
  destruct (Hblocks (ci g + 1)) as (nb & Hb & Ha & Hc & Hr & Hcs & Hdlen & Hdata);
    [lia|].
  pose proof (advance_chead_eq q (chead q) vsn nb HNE0 HB) as Heq.
  rewrite Hch in Heq |- *. cbn [index version] in Heq. rewrite Hnb in Heq.
  specialize (Heq Hb).
  pose proof (filled_iff_w g v' p' k' Hco Hfull Hn) as Hiff. fold g1 in Hiff.
  rewrite <- Hc in Hiff.
  destruct (Z.eqb_spec (version (comm nb)) (cv g + 1)) as [E|E].
  - right. assert (coords_w g1) as Hco1 by by apply Hiff.
    assert (v' <= 1) as Hv1
      by (unfold coords_w in Hco1; subst g1; cbn [pv cv] in Hco1; lia).
    eexists. split; [exact Heq|].
    split; [done|].
    split; [cbn [chead set_chead]; apply (head_step_w _ _ _ _ k'); first [done|lia]|].
    split; [done|]. split; [done|].
    intros j Hj. cbn [blocks set_chead].
    apply (blocks_rep_put_w g g1); try done; [lia| |].
    + unfold block_rep_w, stamp_consumer. cbn [alloc comm resv cons data version].
      rewrite Field_ctor_small by (rewrite ?two_pow_index, ?two_pow_version; lia).
      rewrite Ha, Hc, Hr, Hcs.
      rewrite (FW_other _ _ (ck g) NE) by lia.
      rewrite (FW_stamped _ _ v' p' k') by first [done | lia].
      repeat split; try done.
      intros v s Hs Hl. apply Hdata; [done|].
      clear - Hl Hn Hfull Hs Hci Hco. subst g1. coordsw.
    + intros i blk Hi Hne Hrep. apply (block_rep_w_mono g); try done.
      * cbn [g1 cv ci ck]. rewrite Hfull.
        by apply (FW_advance_other (cv g) (ci g)); first [done | lia].
      * intros v s Hs Hl.
        clear - Hl Hn Hfull Hs Hi Hco. subst g1. coordsw.
  - left. destruct (caught_up_w g v' p' k' Hco Hfull Hn) as (E1 & E2 & E3).
    { intros Hok. apply E. by apply Hiff. }
    done.
Qed.

Lemma deq_result_more h d q n :
  deq_result h d q n -> deq_result h d q (S n).
Proof.
  intros (r & q' & g' & Hd & H). exists r, q', g'. split; [|done].
  intros fuel. specialize (Hd (S fuel)). by rewrite Nat.add_succ_r in Hd.
Qed.

(** A turn of [dequeue] on a drained block, followed by [n] more turns. *)
Lemma dequeue_advance_w g q n :
  RepW g q -> ck g = NE ->
  (forall v' p' k' q1,
     next_w (cv g) (ci g) v' p' k' ->
     let g1 := MkGhost (pv g) (pi g) (pk g) v' p' k' (hist g) in
     RepW g1 q1 -> delivered_w g1 = delivered_w g ->
     deq_result (hist g) (delivered_w g) q1 n) ->
  deq_result (hist g) (delivered_w g) q (S n).
Proof.
  intros Hrep Hfull Hnext.
  pose proof Hrep as (Hph & Hch & Hco & Hlen & Hblocks).
  pose proof (NE_pos Hv) as HNE.
  assert (0 <= ci g < NE) as Hci by apply Hco.
  destruct (Hblocks (ci g)) as (blk & Hb & _ & _ & Hr & _); [lia|].
  assert (index (resv blk) = NE) as Hidx.
  { rewrite Hr, <- Hfull. apply FW_index; [done|]. unfold coords_w in Hco. lia. }
  destruct (next_w_total (cv g) (ci g) Hci) as (v' & p' & k' & Hn).
  assert (forall fuel, dequeue (S fuel) q =
            match advance_chead (chead q) (version (resv blk)) q with
            | Done (true, q') => dequeue fuel q'
            | Done (false, q') => Done (None, q')
            | Undefined => Undefined
            | OutOfFuel => OutOfFuel
            end) as Hturn.
  { intros fuel. rewrite (dequeue_turn q fuel blk);
      rewrite ?Hch; cbn [index]; try first [done | lia].
    cbv zeta. rewrite Hidx. by destruct (Z.ltb_spec NE NE); [lia|]. }
  destruct (cadvance_step_w g q v' p' k' (version (resv blk)) Hrep Hfull Hn)
    as [(E1 & E2 & E3 & Heq)|(q1 & Heq & Hrep1)].
  - exists None, q, g.
    split; [intros fuel; cbn [Nat.add]; by rewrite Hturn, Heq|].
    split; [done|]. split; [done|]. split; [|done]. by apply empty_w.
  - destruct (Hnext v' p' k' q1 Hn Hrep1) as (r & q' & g' & Hd & H).
    { unfold delivered_w. cbn [cv ci ck]. by rewrite (lin_w_next _ _ _ _ _ Hn), Hfull. }
    exists r, q', g'. split; [|done].
    intros fuel. cbn [Nat.add]. by rewrite Hturn, Heq.
Qed.

(** A call of [dequeue] takes at most three turns of its loop. *)
Lemma dequeue_w g q :
  RepW g q -> deq_result (hist g) (delivered_w g) q 3.
Proof.
  intros Hrep. pose proof (NE_pos Hv) as HNE.
  pose proof Hrep as (_ & _ & Hco & _).
  destruct (Z.eq_dec (ck g) NE) as [Hfull|Hroom].
  - apply dequeue_advance_w; [done|done|]. intros v1 p1 k1 q1 Hn1 g1 Hrep1 Hd1.
    pose proof Hrep1 as (_ & _ & Hco1 & _).
    destruct (Z.eq_dec k1 NE) as [Hdead|Hlive].
    + rewrite <- Hd1. apply (dequeue_advance_w g1 q1 1 Hrep1); [done|].
      intros v2 p2 k2 q2 Hn2 g2 Hrep2 Hd2. pose proof Hrep2 as (_ & _ & Hco2 & _).
      rewrite <- Hd2. apply (consume_step_w g2 q2 Hrep2).
      assert (0 <= cv g) as Hcv0 by (unfold coords_w in Hco; lia).
      assert (v2 <= 1) as Hv2
        by (unfold coords_w in Hco2; subst g2; cbn [pv cv] in Hco2; lia).
      subst g1 g2. cbn [cv ci ck] in *.
      clear - Hcv0 Hv2 Hn1 Hn2 HNE Hdead. unfold next_w in *. lia.
    + apply deq_result_more. rewrite <- Hd1. apply (consume_step_w g1 q1 Hrep1).
      subst g1. cbn [ck]. clear - Hn1 Hlive HNE. unfold next_w in *. lia.
  - do 2 apply deq_result_more. apply consume_step_w; [done|].
    unfold coords_w in Hco. lia.
Qed.

Lemma RepW_new : RepW ghost_new Queue_new.
Proof.
  pose proof (NE_pos Hv) as HNE.
  assert (NE < 2 ^ INDEX_BITS) as Hidx by apply Hv.
  assert (0 < B) as HB by apply Hv.
  split; [done|]. split; [done|].
  split; [unfold coords_w; cbn [ghost_new pv pi pk cv ci ck]; lia|].
  split; [unfold lin_w; cbn [ghost_new pv pi pk cv ci ck hist length]; lia|].
  intros j Hj. unfold Queue_new. cbn [blocks].
  destruct (Z.to_nat B) as [|k] eqn:Ek; [lia|].
  assert (forall idx, idx = 0 \/ idx = NE ->
            (if j =? 0 then idx = 0 else idx = NE) ->
            block_rep_w ghost_new j (Block_init idx)) as Hinit.
  { intros idx Hidx0 Hcase. unfold block_rep_w, Block_init.
    cbn [alloc comm resv cons data]. rewrite length_replicate.
    rewrite Field_ctor_small by (rewrite ?two_pow_version; lia).
    unfold FW, gen. cbn [ghost_new pv pi pk cv ci ck].
    rewrite Z.eqb_refl.
    destruct (Z.ltb_spec j 0); [lia|].
    destruct (Z.eqb_spec j 0); subst; repeat split; try done.
    all: intros v s Hs Hl; exfalso;
      unfold live_w, live, lex_le, lex_lt, ghost_new in Hl;
      cbn [pv pi pk cv ci ck] in Hl; lia. }
  destruct (Z.to_nat j) as [|i] eqn:Ej.
  - exists (Block_init 0). split; [done|]. apply Hinit; [lia|].
    destruct (Z.eqb_spec j 0); [done|lia].
  - exists (Block_init NE). split.
    + cbn. apply lookup_replicate. split; [done|lia].
    + apply Hinit; [lia|]. destruct (Z.eqb_spec j 0); [lia|done].
Qed.

(** First in, first out, for every queue with more blocks than slots per
    block. *)
Lemma fifo_wide fuel ops es q :
  Z.of_nat (length ops) + 1 < 2 ^ VERSION_BITS ->
  run fuel ops Queue_new = Done (es, q) ->
  exists pending q',
    accepted es = delivered es ++ pending
    /\ (forall fuel',
         run (3 + fuel') (replicate (length pending) Deq) q
         = Done (map (fun x => DeqRet (Some x)) pending, q'))
    /\ (forall fuel', exists q'', dequeue (3 + fuel') q' = Done (None, q'')).
Proof.
  apply (generic_fifo Ghost RepW hist delivered_w (fun _ => 0) 3) with (g0 := ghost_new);
    try done.
  - intros g q0 t Hrep _. right.
    destruct (enqueue_w g q0 t Hrep) as (r & q' & g' & Hd & Hrep' & Hc & Hh).
    exists r, q', g'. do 3 (split; [done|]). split; [lia|done].
  - intros g q0 Hrep _.
    destruct (dequeue_w g q0 Hrep) as (r & q' & g' & Hd & Hrep' & Hh & Hr).
    exists r, q', g'. do 4 (split; [done|]).
    destruct r as [x|]; [done|]. by destruct Hr as [-> ->].
  - apply RepW_new.
Qed.

(** Every call completes, within three turns of its loop. *)
Lemma run_wide ops : forall g q,
  RepW g q ->
  exists es q' g',
    (forall fuel, run (3 + fuel) ops q = Done (es, q')) /\ RepW g' q'.
Proof.
  induction ops as [|o ops IH]; intros g q Hrep.
  - by exists [], q, g.
  - destruct o as [t|].
    + destruct (enqueue_w g q t Hrep) as (r & q1 & g1 & Hd & Hrep1 & _).
      destruct (IH g1 q1 Hrep1) as (es & q2 & g2 & Hrun & Hrep2).
      exists (EnqRet t r :: es), q2, g2. split; [|done].
      intros fuel. cbn [run call]. unfold bind, ret. by rewrite Hd, Hrun.
    + destruct (dequeue_w g q Hrep) as (r & q1 & g1 & Hd & Hrep1 & _).
      destruct (IH g1 q1 Hrep1) as (es & q2 & g2 & Hrun & Hrep2).
      exists (DeqRet r :: es), q2, g2. split; [|done].
      intros fuel. cbn [run call]. unfold bind, ret. by rewrite Hd, Hrun.
Qed.

(** Where an execution of complete calls leaves the queue. *)
Lemma reach_wide fuel ops es q :
  Z.of_nat (length ops) + 1 < 2 ^ VERSION_BITS ->
  run fuel ops Queue_new = Done (es, q) ->
  exists g,
    RepW g q /\ hist g = accepted es
    /\ length (delivered es) = delivered_w g
    /\ (delivered_w g <= length (hist g))%nat.
Proof.
  intros Hbound Hrun.
  destruct (generic_run Ghost RepW hist delivered_w (fun _ => 0) 3) with
    (ops := ops) (g := ghost_new) (q := Queue_new) (fuel := fuel) (es := es) (q' := q)
    as (g & Hi & Hc & Hl & Hh & Ht).
  { intros g q0 t Hrep _. right.
    destruct (enqueue_w g q0 t Hrep) as (r & q' & g' & Hd & Hrep' & Hc & Hh).
    exists r, q', g'. do 3 (split; [done|]). split; [lia|done]. }
  { intros g q0 Hrep _.
    destruct (dequeue_w g q0 Hrep) as (r & q' & g' & Hd & Hrep' & Hh & Hr).
    exists r, q', g'. do 4 (split; [done|]).
    destruct r as [x|]; [done|]. by destruct Hr as [-> ->]. }
  { apply RepW_new. }
  { unfold delivered_w, lin_w. cbn [ghost_new cv ci ck hist length]. lia. }
  { cbn beta. lia. }
  { done. }
  exists g. cbn [ghost_new hist app] in *. split; [done|]. split; [done|].
  split; [|done].
  rewrite take_nil in Ht. cbn [app] in Ht. rewrite <- Ht, length_take. lia.
Qed.

Lemma heads_wide g q :
  RepW g q ->
  0 <= index (phead q) < NE /\ 0 <= index (chead q) < NE.
Proof.
  intros (Hph & Hch & Hco & _). rewrite Hph, Hch. cbn [index].
  unfold coords_w in Hco. lia.
Qed.

Lemma occupancy_wide g q :
  RepW g q ->
  Z.of_nat (length (hist g)) - Z.of_nat (delivered_w g) <= NE * NE.
Proof.
  intros (_ & _ & Hco & Hlen & _). pose proof (NE_pos Hv) as HNE.
  assert (0 <= lin_w (cv g) (ci g) (ck g)) as Hc0.
  { unfold coords_w in Hco. apply lin_w_nonneg; lia. }
  unfold delivered_w. rewrite Z2Nat.id by done. rewrite Hlen.
  unfold lin_w, coords_w in *.
  destruct Hco as (Hpi & Hci & Hpk & Hck & Hcv & Hcp & Hpv & Hpd & Hcd & Hord).
  assert ((pi g - ci g) * NE <= (NE - 1) * NE)
    by (apply Z.mul_le_mono_nonneg_r; lia).
  destruct Hord as [(E & Hord)|(E & Hord)].
  - rewrite E. lia.
  - assert (cv g = 0) as Hcv0 by lia. assert (pv g = 1) as Hpv1 by lia.
    rewrite Hcv0, Hpv1.
    destruct Hord as [Hz|[Hbehind|[E1 E2]]].
    + rewrite Hz in *. specialize (Hpd Hpv1 eq_refl).
      assert (0 <= ci g * NE) by (apply Z.mul_nonneg_nonneg; lia). lia.
    + assert ((pi g - ci g) * NE <= (-1) * NE)
        by (apply Z.mul_le_mono_nonneg_r; lia). lia.
    + rewrite E1, E2. lia.
Qed.

Lemma lifetime_wide g q :
  RepW g q -> Z.of_nat (length (hist g)) <= (2 * NE - 1) * NE.
Proof.
  intros (_ & _ & Hco & Hlen & _). pose proof (NE_pos Hv) as HNE.
  rewrite Hlen. unfold lin_w, coords_w in *.
  destruct Hco as (Hpi & Hci & Hpk & Hck & Hcv & Hcp & Hpv & _).
  assert (pv g * (NE - 1) <= 1 * (NE - 1))
    by (apply Z.mul_le_mono_nonneg_r; lia).
  assert ((pv g * (NE - 1) + pi g) * NE <= (2 * NE - 2) * NE)
    by (apply Z.mul_le_mono_nonneg_r; lia).
  lia.
Qed.

End Wide.

(** ** What holds of every queue between two calls *)

(** X9. Between two complete calls both heads are inside the ring,
    whatever the valid [N] and [B]: each head index is below [B] and below
    [NE].  A head leaves the ring only inside the call that is undefined. *)
Theorem heads_in_ring (fuel : nat) (ops : list op) (es : list event) (q : Queue) :
  valid_params ->
  Z.of_nat (length ops) + 1 < 2 ^ VERSION_BITS ->
  run fuel ops Queue_new = Done (es, q) ->
  0 <= index (phead q) < Z.min B NE /\ 0 <= index (chead q) < Z.min B NE.
Proof.
  intros Hv Hbound Hrun.
  destruct (Z.lt_ge_cases NE B) as [Hlt|Hge].
  - destruct (reach_wide Hv Hlt fuel ops es q Hbound Hrun) as (g & Hrep & _).
    pose proof (heads_wide g q Hrep). lia.
  - destruct (reach_few Hv Hge fuel ops es q Hbound Hrun) as (g & Hrep & _).
    pose proof (heads_few g q Hrep). lia.
Qed.

(** X10. With at most as many slots per block as blocks ([NE <= B]) no
    call ever runs outside the ring and every call completes within three
    turns of its loop: every sequence of calls on a fresh queue runs to its
    end, and more turns change nothing. *)
Theorem calls_complete (ops : list op) :
  valid_params -> NE <= B ->
  Z.of_nat (length ops) + 1 < 2 ^ VERSION_BITS ->
  exists es q, forall fuel, run (3 + fuel) ops Queue_new = Done (es, q).
Proof.
  intros Hv Hle Hbound.
  destruct (Z.eq_dec NE B) as [Hsq|Hne].
  - destruct (reach_square Hv Hsq ops Hbound) as (es & q & g & Hrun & _).
    exists es, q. intros fuel. apply (Hrun (S fuel)).
  - destruct (run_wide Hv ltac:(lia) ops ghost_new Queue_new) as
      (es & q & g & Hrun & _); [apply RepW_new; first [done|lia]|].
    by exists es, q.
Qed.

(** X11. The queue is bounded: after any execution of complete calls the
    values accepted and not yet delivered are at most [N], and at most
    [NE * NE] when there are more blocks than slots per block. *)
Theorem occupancy_bound (fuel : nat) (ops : list op) (es : list event) (q : Queue) :
  valid_params ->
  Z.of_nat (length ops) + 1 < 2 ^ VERSION_BITS ->
  run fuel ops Queue_new = Done (es, q) ->
  (length (delivered es) <= length (accepted es))%nat
  /\ Z.of_nat (length (accepted es)) - Z.of_nat (length (delivered es)) <= N
  /\ (NE < B ->
      Z.of_nat (length (accepted es)) - Z.of_nat (length (delivered es))
      <= NE * NE).
Proof.
  intros Hv Hbound Hrun. pose proof (NE_pos Hv) as HNE.
  pose proof (N_blocks Hv) as HN.
  destruct (Z.lt_ge_cases NE B) as [Hlt|Hge].
  - destruct (reach_wide Hv Hlt fuel ops es q Hbound Hrun) as (g & Hrep & <- & -> & Hle).
    pose proof (occupancy_wide Hv g q Hrep) as Hocc.
    assert (NE * NE <= B * NE) by (apply Z.mul_le_mono_nonneg_r; lia).
    split; [done|]. split; [lia|done].
  - destruct (reach_few Hv Hge fuel ops es q Hbound Hrun)
      as (g & Hrep & <- & -> & Hle & _).
    pose proof (occupancy_few Hv g q Hrep) as Hocc.
    split; [done|]. split; [done|lia].
Qed.

(** X12. A queue whose number of blocks differs from its slots per block
    is no ring.  With more blocks than slots per block it accepts at most
    [(2 * NE - 1) * NE] values in its whole life, however many are
    delivered in between; with fewer blocks it accepts at most [N] in any
    execution of complete calls. *)
Theorem lifetime_capacity (fuel : nat) (ops : list op) (es : list event) (q : Queue) :
  valid_params ->
  Z.of_nat (length ops) + 1 < 2 ^ VERSION_BITS ->
  run fuel ops Queue_new = Done (es, q) ->
  (NE < B -> Z.of_nat (length (accepted es)) <= (2 * NE - 1) * NE)
  /\ (B < NE -> Z.of_nat (length (accepted es)) <= N).
Proof.
  intros Hv Hbound Hrun. split.
  - intros Hlt.
    destruct (reach_wide Hv Hlt fuel ops es q Hbound Hrun) as (g & Hrep & <- & _).
    by apply (lifetime_wide Hv g q).
  - intros Hgt.
    destruct (reach_few Hv ltac:(lia) fuel ops es q Hbound Hrun)
      as (g & Hrep & <- & _).
    apply (lifetime_few Hv ltac:(lia) g q Hrep). lia.
Qed.

(** X13. With at most as many blocks as slots per block ([B <= NE]) a
    call that returns [false] leaves the queue as it was: every cursor,
    both heads and every slot. *)
Theorem refused_call_changes_nothing
    (fuel : nat) (ops : list op) (es : list event) (q : Queue) :
  valid_params -> B <= NE ->
  Z.of_nat (length ops) + 1 < 2 ^ VERSION_BITS ->
  run fuel ops Queue_new = Done (es, q) ->
  (forall fuel' t q', enqueue fuel' t q = Done (false, q') -> q' = q)
  /\ (forall fuel' q', dequeue fuel' q = Done (None, q') -> q' = q).
Proof.
  intros Hv Hge Hbound Hrun.
  destruct (reach_few Hv Hge fuel ops es q Hbound Hrun)
    as (g & Hrep & _ & _ & _ & Hlap).
  by apply (refused_few Hv Hge g q).
Qed.

(** ** The driver *)

(** X15. [writer] alone on a fresh square queue ([N / B = B], as in the
    driver): asked for at most [N] values it returns after exactly that
    many calls of [enqueue], none of them refused, and the queue then holds
    that many copies of its argument; asked for more than [N] it never
    returns: the call after the [N]th is refused, changes nothing, and is
    repeated for ever. *)
Theorem writer_fills (n : nat) (x : T) :
  valid_params -> NE = B ->
  (Z.of_nat n <= N ->
     exists q q',
       (forall fuel, writer (2 + fuel) n x Queue_new = Done (tt, q))
       /\ (forall fuel,
            run (2 + fuel) (replicate n Deq) q
            = Done (replicate n (DeqRet (Some x)), q')))
  /\ (N < Z.of_nat n ->
      forall fuel, writer (2 + fuel) n x Queue_new = OutOfFuel).
Proof.
  intros Hv Hsq. pose proof (NE_pos Hv) as HNE. pose proof (N_blocks Hv) as HN.
  assert (0 < B) as HB by apply Hv.
  assert (forall k, Z.of_nat k <= N ->
            exists q g,
              (forall fuel, writer (2 + fuel) k x Queue_new = Done (tt, q))
              /\ Rep g q /\ cv g = 0 /\ ci g = 0 /\ ck g = 0
              /\ hist g = replicate k x) as Hfill.
  { intros k Hk.
    destruct (fill_spec Hv Hsq (replicate k x) ghost_new Queue_new (Rep_new Hv))
      as (q & g & Hrun & Hrep & Hcv & Hci & Hck & Hh); try done.
    { cbn [ghost_new hist length]. rewrite length_replicate. lia. }
    exists q, g. split; [|done].
    intros fuel. apply writer_run. pose proof (Hrun fuel) as Hf.
    by rewrite !map_replicate in Hf. }
  split.
  - intros Hn. destruct (Hfill n Hn) as (q & g & Hw & Hrep & Hcv & Hci & Hck & Hh).
    pose proof Hrep as [(_ & _ & Hco & _) _].
    assert (delivered_count g = 0%nat) as HD.
    { unfold delivered_count, lin. rewrite Hcv, Hci, Hck. lia. }
    destruct (drain_spec Hv Hsq n g q Hrep) as (q' & g' & Hrun & _).
    { unfold coords_ok in Hco. rewrite two_pow_version. lia. }
    { rewrite HD, Hh, length_replicate. lia. }
    exists q, q'. split; [done|]. intros fuel.
    pose proof (Hrun fuel) as Hf. cbn [Nat.add].
    rewrite Hf, HD, drop_0, Hh. by rewrite map_replicate.
  - intros Hn fuel.
    replace n with (Z.to_nat N + S (n - Z.to_nat N - 1))%nat by lia.
    rewrite writer_app.
    destruct (Hfill (Z.to_nat N)) as (q & g & Hw & Hrep & Hcv & Hci & Hck & Hh);
      [lia|].
    rewrite Hw. cbn [writer]. unfold bind.
    pose proof Hrep as [(_ & _ & Hco & Hhist & _) _].
    assert (pv g = 0) as Hpv by (unfold coords_ok in Hco; lia).
    assert (pi g = B - 1 /\ pk g = NE) as [Hpi Hpk].
    { rewrite Hh, length_replicate, Hpv in Hhist. unfold lin in Hhist.
      unfold coords_ok in Hco. nia. }
    destruct (enqueue_spec Hv g q x Hrep) as
      (r & q1 & g1 & Henq & Hrep1 & Gcv & Gci & Gck & _ & Htrue & Hfalse).
    { rewrite Hpv, two_pow_version. lia. }
    { lia. }
    { done. }
    destruct r.
    { exfalso. destruct Htrue as (_ & [(? & _)|(_ & Hnext & _)]); [done|lia|].
      destruct Hrep1 as [(_ & _ & Hco1 & _) _].
      unfold next_pos in Hnext. unfold coords_ok in Hco1. lia. }
    destruct Hfalse as (-> & _); [done|].
    by rewrite (spin_enqueue_stuck x q _ (Henq 0%nat)).
Qed.

(** X16. [reader] checks the order of what it takes out.  After any
    execution of complete calls, with [pending] the values accepted and not
    yet delivered, [reader] run for [n] iterations, [n] at most their
    number, never waits; it returns normally exactly when the first [n]
    pending values are [0], [1], ..., [n - 1] in this order, and calls
    [abort()] at the first one that is not. *)
Theorem reader_checks_order
    (T_differs : T -> Z -> bool) (fuel : nat) (ops : list op)
    (es : list event) (q : Queue) (pending : list T) (n : nat) :
  valid_params ->
  Z.of_nat (length ops) + 1 < 2 ^ VERSION_BITS ->
  run fuel ops Queue_new = Done (es, q) ->
  accepted es = delivered es ++ pending ->
  (n <= length pending)%nat ->
  exists q', forall fuel',
    reader T_differs (3 + fuel') n 0 q
    = Done (expects T_differs 0 (take n pending), q').
Proof.
  intros Hv Hbound Hrun Hpre Hn.
  assert (exists q0, forall fuel',
            run (3 + fuel') (replicate (length pending) Deq) q
            = Done (map (fun x => DeqRet (Some x)) pending, q0)) as (q0 & Hdrain).
  { destruct (Z.lt_ge_cases NE B) as [Hlt|Hge].
    - destruct (fifo_wide Hv Hlt fuel ops es q Hbound Hrun)
        as (pending0 & q0 & Hpre0 & Hdrain & _).
      rewrite Hpre in Hpre0. apply app_inv_head in Hpre0 as ->. by exists q0.
    - destruct (fifo_few Hv Hge fuel ops es q Hbound Hrun)
        as (pending0 & q0 & Hpre0 & Hdrain & _).
      rewrite Hpre in Hpre0. apply app_inv_head in Hpre0 as ->.
      exists q0. intros fuel'. apply (Hdrain (S fuel')). }
  by apply (reader_drain T_differs pending q q0).
Qed.

(** X17. A square queue accepts whenever one block's worth of room is
    left: after any execution of complete calls with at most [N - NE]
    values pending, [enqueue] returns [true], within two turns of its
    loop. *)
Theorem enqueue_accepts_when_room
    (fuel : nat) (ops : list op) (es : list event) (q : Queue) (t : T) :
  valid_params -> NE = B ->
  Z.of_nat (length ops) + 1 < 2 ^ VERSION_BITS ->
  run fuel ops Queue_new = Done (es, q) ->
  Z.of_nat (length (accepted es)) - Z.of_nat (length (delivered es)) <= N - NE ->
  exists q', forall fuel', enqueue (2 + fuel') t q = Done (true, q').
Proof.
  intros Hv Hsq Hbound Hrun Hroom. pose proof (NE_pos Hv) as HNE.
  pose proof (N_blocks Hv) as HN.
  destruct (reach_few Hv ltac:(lia) fuel ops es q Hbound Hrun)
    as (g & (Hrep & _) & Hh & Hd & Hle & Hlap).
  rewrite <- Hh, Hd in Hroom.
  destruct (enqueue_spec Hv g q t Hrep Hlap) as
    (r & q' & g' & Henq & _ & _ & _ & _ & _ & _ & Hfalse); [lia|done|].
  destruct r; [by exists q'|]. exfalso.
  destruct Hfalse as (_ & _ & Hfull & v' & p' & Hnext & Hnok); [done|].
  destruct Hrep as [(_ & _ & Hco & Hlen & _) _].
  assert (0 <= lin (cv g) (ci g) (ck g)) as Hc0.
  { unfold coords_ok in Hco. apply lin_nonneg; [done|lia..]. }
  unfold delivered_count in Hroom. rewrite Z2Nat.id in Hroom by done.
  rewrite Hlen, Hfull, HN in Hroom.
  unfold coords_ok in Hco.
  destruct Hco as (Hpi & Hci & Hpk & Hck & Hcv & Hord).
  assert (coords_ok (MkGhost v' p' 0 (cv g) (ci g) (ck g) (hist g))
          \/ B * NE - NE < lin (pv g) (pi g) NE - lin (cv g) (ci g) (ck g))
    as [Hok|Hmany]; [|done|lia].
  unfold coords_ok, next_pos, lin in *. cbn [pv pi pk cv ci ck hist].
  destruct Hord as [(Epv & Hord)|(Epv & Hord)]; rewrite Epv in *.
  - destruct Hnext as [(Hn & -> & ->)|(Hn & -> & ->)]; [left; lia|].
    destruct (Z.eq_dec (ci g) 0) as [Hz|Hnz]; [|left; lia].
    destruct (Z.eq_dec (ck g) NE) as [Hk|Hk]; [left; lia|].
    right. rewrite Hz. assert (pi g = B - 1) as -> by lia. lia.
  - destruct Hord as [Hbehind|[Epi Eck]].
    + destruct Hnext as [(Hn & -> & ->)|(Hn & -> & ->)]; [|lia].
      destruct (Z.eq_dec (ci g) (pi g + 1)) as [Hci1|Hci1]; [|left; lia].
      destruct (Z.eq_dec (ck g) NE) as [Hk|Hk]; [left; lia|].
      right. rewrite Hci1. lia.
    + right. rewrite Epi, Eck. lia.
Qed.

(** X18. In sequential execution nothing is ever in flight: between two
    complete calls every block has [alloc = comm] and [resv = cons], so
    neither the reserve step nor [advance_phead] ever answers
    [NOT_AVAILABLE]. *)
Theorem not_available_unreachable (q : Queue) :
  valid_params -> reachable q ->
  (forall i blk, blocks q !! i = Some blk ->
     comm blk = alloc blk /\ resv blk = cons blk)
  /\ (forall fuel b r q',
        reserve_entry fuel b q <> Done ((NOT_AVAILABLE, r), q'))
  /\ (forall ph q', advance_phead ph q <> Done (NOT_AVAILABLE, q')).
Proof.
  intros Hv Hreach. pose proof (reachable_inv q Hv Hreach) as Hq.
  pose proof (NE_pos Hv) as HNE. assert (NE <> 0) as HNE0 by lia.
  assert (0 < B) as HB by apply Hv.
  split; [|split].
  - intros i blk Hb. destruct (Hq i blk Hb) as (_ & _ & Hca & Hrc & _). done.
  - intros [|fuel] b r q'; [done|].
    destruct (blocks q !! Z.to_nat b) as [blk|] eqn:Hb.
    + destruct (Z.le_gt_cases 0 b) as [Hge|Hlt].
      * rewrite (reserve_entry_eq q _ b blk Hb Hge). cbv zeta.
        destruct (Hq _ blk Hb) as (_ & _ & Hca & _). rewrite Hca.
        destruct (_ <? _); [|done]. destruct (_ =? _); [done|].
        by rewrite Z.eqb_refl, andb_false_r.
      * cbn [reserve_entry]. rewrite bind_load_fail by (by right). done.
    + cbn [reserve_entry]. rewrite bind_load_fail by (by left). done.
  - intros ph q'.
    destruct (blocks q !! Z.to_nat ((index ph + 1) mod B)) as [nb|] eqn:Hnb.
    + rewrite (advance_phead_eq _ _ _ HNE0 HB Hnb).
      destruct (Hq _ nb Hnb) as (_ & _ & _ & Hrc & _). rewrite Hrc.
      destruct (_ || _); [|done]. by rewrite Z.eqb_refl.
    + by rewrite advance_phead_fail.
Qed.

(** ** First in, first out, for every queue *)

(** X20. For every valid [N] and [B], and every execution of a fresh queue
    in which each call of [enqueue] and [dequeue] completes (short of
    overflowing the 44-bit generation): the values delivered are, in order,
    the first of the values accepted; the accepted values not yet delivered are handed
    out, in order and one per call, by the following calls of [dequeue],
    which all complete; and the call after them finds the queue empty.  So
    every accepted value is delivered exactly once, none is lost and none
    comes twice.  Every execution is of this kind when [NE <= B]; with
    [B < NE] an execution stops being one at the call that takes the
    producer head out of the ring. *)
Theorem fifo_order (fuel : nat) (ops : list op) (es : list event) (q : Queue) :
  valid_params ->
  Z.of_nat (length ops) + 1 < 2 ^ VERSION_BITS ->
  run fuel ops Queue_new = Done (es, q) ->
  exists pending q',
    accepted es = delivered es ++ pending
    /\ (forall fuel',
         run (3 + fuel') (replicate (length pending) Deq) q
         = Done (map (fun x => DeqRet (Some x)) pending, q'))
    /\ (forall fuel', exists q'', dequeue (3 + fuel') q' = Done (None, q'')).
Proof.
  intros Hv Hbound Hrun.
  destruct (Z.lt_ge_cases NE B) as [Hlt|Hge].
  - by apply (fifo_wide Hv Hlt fuel ops).
  - destruct (fifo_few Hv Hge fuel ops es q Hbound Hrun)
      as (pending & q' & Hpre & Hdrain & Hempty).
    exists pending, q'. split; [done|].
    split; intros fuel'; [apply (Hdrain (S fuel'))|apply (Hempty (S fuel'))].
Qed.

(** X22. With at most as many slots per block as blocks ([NE <= B]) the
    queue is first in, first out in every execution: every sequence of
    calls of [enqueue] and [dequeue] on a fresh queue (short of overflowing
    the 44-bit generation) runs to completion, three turns per call being
    enough; the values it delivers are, in order, the first of the values
    it accepts; the others are handed out in order by the following calls
    of [dequeue], and the call after them finds the queue empty. *)
Theorem fifo_every_execution (ops : list op) :
  valid_params -> NE <= B ->
  Z.of_nat (length ops) + 1 < 2 ^ VERSION_BITS ->
  exists es q pending q',
    (forall fuel, run (3 + fuel) ops Queue_new = Done (es, q))
    /\ accepted es = delivered es ++ pending
    /\ (forall fuel,
         run (3 + fuel) (replicate (length pending) Deq) q
         = Done (map (fun x => DeqRet (Some x)) pending, q'))
    /\ (forall fuel, exists q'', dequeue (3 + fuel) q' = Done (None, q'')).
Proof.
  intros Hv Hle Hbound.
  assert (exists es q, forall fuel, run (3 + fuel) ops Queue_new = Done (es, q))
    as (es & q & Hrun).
  { destruct (Z.eq_dec NE B) as [Hsq|Hne].
    - destruct (reach_square Hv Hsq ops Hbound) as (es & q & g & Hrun & _).
      exists es, q. intros fuel. apply (Hrun (S fuel)).
    - destruct (run_wide Hv ltac:(lia) ops ghost_new Queue_new) as
        (es & q & g & Hrun & _); [apply RepW_new; first [done|lia]|].
      by exists es, q. }
  exists es, q. pose proof (Hrun 0%nat) as Hrun0.
  destruct (Z.lt_ge_cases NE B) as [Hlt|Hge].
  - destruct (fifo_wide Hv Hlt _ ops es q Hbound Hrun0)
      as (pending & q' & Hpre & Hdrain & Hempty).
    by exists pending, q'.
  - destruct (fifo_few Hv Hge _ ops es q Hbound Hrun0)
      as (pending & q' & Hpre & Hdrain & Hempty).
    exists pending, q'. do 2 (split; [done|]).
    split; intros fuel; [apply (Hdrain (S fuel))|apply (Hempty (S fuel))].
Qed.

End Queue.

Arguments MkBlock {T} alloc comm resv cons data.
Arguments MkQueue {T} blocks phead chead.
Arguments alloc {T} b.
Arguments comm {T} b.
Arguments resv {T} b.
Arguments cons {T} b.
Arguments data {T} b.
Arguments blocks {T} q.
Arguments phead {T} q.
Arguments chead {T} q.
Arguments Enq {T} t.
Arguments Deq {T}.
Arguments EnqRet {T} t ok.
Arguments DeqRet {T} r.
Arguments Str {T} s.
Arguments Num {T} n.
Arguments Val {T} t.
Arguments Endl {T}.

(** * Concrete queues *)

(** ** [Queue<uint64_t, 16, 4>], the queue of the driver *)

Lemma params_16_4 : valid_params 16 4.
Proof. repeat split. Qed.

(** The scenario of the specification: sixteen values go in, the
    seventeenth is refused, sixteen come out in order, and value 16 then
    lands in slot 0 of block 0 at generation 1. *)
Lemma scenario_16_4 :
  exists q blk d,
    run Z 0 16 4 2
      (map Enq (seqZ 0 16) ++ [Enq 99] ++ replicate 16 Deq ++ [Enq 16])
      (Queue_new Z 0 16 4)
    = Done (map (fun i => EnqRet i true) (seqZ 0 16) ++ [EnqRet 99 false]
            ++ map (fun i => DeqRet (Some i)) (seqZ 0 16) ++ [EnqRet 16 true],
            q)
    /\ phead q = MkField 1 0
    /\ blocks q !! 0%nat = Some blk
    /\ alloc blk = MkField 1 1 /\ comm blk = MkField 1 1
    /\ data blk = 16 :: d.
Proof. do 3 eexists. vm_compute. repeat split. Qed.

(** After five calls of [enqueue], block 1 is on generation 1 for the
    producer while the consumer cursors still carry generation 0 at
    position [NE]: positions of different generations are not ordered. *)
Lemma stale_positions_16_4 :
  exists blk,
    blocks (state_after Z 0 0 16 4 2 (map Enq (seqZ 0 5))) !! 1%nat = Some blk
    /\ comm blk = MkField 1 1 /\ cons blk = MkField 0 4.
Proof. eexists. vm_compute. repeat split. Qed.

(** ** Queues whose block count differs from their slots per block *)

(** [Queue<uint64_t, 2, 1>], calls enqueue(1), dequeue, enqueue(2),
    dequeue, enqueue(3): the first four calls complete and deliver 1 and 2,
    the fifth advances the producer head to index 1 of a ring of one block
    and indexes [blocks[1]]; its behaviour is undefined, so the value 3 is
    neither refused nor accepted. *)
Lemma undefined_call_2_1 :
  (exists q,
     run Z 0 2 1 2 [Enq 1; Deq; Enq 2; Deq] (Queue_new Z 0 2 1)
     = Done ([EnqRet 1 true; DeqRet (Some 1); EnqRet 2 true; DeqRet (Some 2)], q))
  /\ valid_params 2 1
  /\ forall fuel,
       run Z 0 2 1 (S (S fuel)) [Enq 1; Deq; Enq 2; Deq; Enq 3] (Queue_new Z 0 2 1)
       = Undefined.
Proof.
  split; [eexists; vm_compute; reflexivity|].
  split; [repeat split|]. intros fuel. reflexivity.
Qed.

(** C1. [Queue<uint64_t, 6, 2>], six calls of [enqueue], three of
    [dequeue], then [enqueue(6)].  The first nine calls complete: 0 to 5 are
    accepted, 0 to 2 delivered, and 3, 4, 5 are pending in block 1.  The
    tenth call finds block 1 full, advances the producer head to index 2 of
    a ring of two blocks and indexes [blocks[2]]: its behaviour is
    undefined with values pending, whatever number of turns it is given,
    and the execution has no outcome, hence no sequence of delivered
    values to compare with the accepted ones. *)
Theorem fifo_execution_undefined_6_2 :
  let ops := map Enq (seqZ 0 6) ++ replicate 3 Deq in
  valid_params 6 2
  /\ (exists q blk,
        run Z 0 6 2 2 ops (Queue_new Z 0 6 2)
        = Done (map (fun i => EnqRet i true) (seqZ 0 6)
                ++ map (fun i => DeqRet (Some i)) (seqZ 0 3), q)
        /\ phead q = MkField 0 1
        /\ blocks q !! 1%nat = Some blk /\ data blk = [3; 4; 5]
        /\ (exists q',
              advance_phead Z 6 2 (phead q) q = Done (SUCCESS, q')
              /\ phead q' = MkField 0 2
              /\ blocks q' !! Z.to_nat (index (phead q')) = None)
        /\ forall fuel, enqueue Z 6 2 (S (S fuel)) 6 q = Undefined)
  /\ (forall fuel,
        run Z 0 6 2 (S (S fuel)) (ops ++ [Enq 6]) (Queue_new Z 0 6 2) = Undefined)
  /\ (forall fuel es q,
        run Z 0 6 2 fuel (ops ++ [Enq 6]) (Queue_new Z 0 6 2) <> Done (es, q)).
Proof.
  intros ops. split; [repeat split|]. split.
  { do 2 eexists. split; [vm_compute; reflexivity|].
    split; [reflexivity|]. split; [reflexivity|]. split; [reflexivity|].
    split; [eexists; vm_compute; repeat split|].
    intros fuel. vm_compute. reflexivity. }
  split; [intros fuel; vm_compute; reflexivity|].
  intros [|[|fuel]] es q; vm_compute; discriminate.
Qed.

(** C5. [Queue<uint64_t, 8, 4>] after four calls of [enqueue], four of
    [dequeue] and [enqueue(4)]: the consumer head is [(0, 1)], and [nb],
    the block at [(1 + 1) mod 4 = 2], carries the version expected.
    [advance_chead] succeeds and raises [cons] and [resv] of block 2 to
    [(1, 0)], but the head it stores is [(1, 0)]: the consumer goes to
    block 0, not to the block it has just prepared.  The call of [dequeue]
    then has to advance once more and takes the value from block 1. *)
Theorem chead_leaves_prepared_block_8_4 :
  let q := state_after Z 0 0 8 4 3
             (map Enq (seqZ 0 4) ++ replicate 4 Deq ++ [Enq 4]) in
  valid_params 8 4
  /\ reachable Z 0 0 8 4 q
  /\ chead q = MkField 0 1
  /\ (index (chead q) + 1) mod 4 = 2
  /\ (exists q' nb nb',
        (forall vsn, advance_chead Z 8 4 (chead q) vsn q = Done (true, q'))
        /\ blocks q !! 2%nat = Some nb /\ blocks q' !! 2%nat = Some nb'
        /\ version (comm nb) = version (chead q) + 1
        /\ cons nb = MkField 0 2 /\ resv nb = MkField 0 2
        /\ cons nb' = MkField 1 0 /\ resv nb' = MkField 1 0
        /\ chead q' = MkField 1 0
        /\ index (chead q') <> (index (chead q) + 1) mod 4)
  /\ exists q'',
       dequeue Z 0 8 4 2 q = OutOfFuel
       /\ (forall fuel, dequeue Z 0 8 4 (S (S (S fuel))) q = Done (Some 4, q''))
       /\ chead q'' = MkField 1 1.
Proof.
  split; [repeat split|]. split.
  { exists 3%nat, (map Enq (seqZ 0 4) ++ replicate 4 Deq ++ [Enq 4]). eexists.
    vm_compute. reflexivity. }
  split; [reflexivity|]. split; [reflexivity|]. split.
  { do 3 eexists. split; [intros vsn; vm_compute; reflexivity|].
    vm_compute. repeat split; discriminate. }
  eexists. split; [reflexivity|].
  split; [intros fuel; vm_compute; reflexivity|reflexivity].
Qed.

(** C2. [Queue<uint64_t, 8, 4>]: of eight consecutive calls of [enqueue] on
    a fresh queue only the first four return [true]. *)
Theorem capacity_short_8_4 :
  valid_params 8 4
  /\ exists q, forall fuel,
       run Z 0 8 4 (S (S fuel)) (map Enq (seqZ 0 8)) (Queue_new Z 0 8 4)
       = Done (map (fun i => EnqRet i (i <? 4)) (seqZ 0 8), q).
Proof. split; [repeat split|]. eexists. intros fuel. vm_compute. reflexivity. Qed.

(** C3. [Queue<uint64_t, 2, 1>] after enqueue, dequeue, enqueue, dequeue:
    [advance_phead] succeeds and stores a producer head of index 1, which
    is not below [B = 1]; there is no block [blocks[1]], and the call of
    [enqueue] that advanced the head is undefined. *)
Theorem head_index_out_of_ring_2_1 :
  let q := state_after Z 0 0 2 1 2 [Enq 1; Deq; Enq 2; Deq] in
  valid_params 2 1
  /\ reachable Z 0 0 2 1 q
  /\ (exists q',
        advance_phead Z 2 1 (phead q) q = Done (SUCCESS, q')
        /\ index (phead q') = 1
        /\ blocks q' !! Z.to_nat (index (phead q')) = None)
  /\ forall fuel, enqueue Z 2 1 (S (S fuel)) 3 q = Undefined.
Proof.
  split; [repeat split|]. split.
  { exists 2%nat, [Enq 1; Deq; Enq 2; Deq]. eexists. vm_compute. reflexivity. }
  split; [eexists; vm_compute; repeat split|]. intros fuel. reflexivity.
Qed.

(** C9. [Queue<uint64_t, 2, 2>]: the second call of [enqueue] on a fresh
    queue returns [false] and yet moves the producer head and restamps
    block 1. *)
Theorem failed_enqueue_changes_state_2_2 :
  let q := state_after Z 0 0 2 2 2 [Enq 0] in
  valid_params 2 2
  /\ reachable Z 0 0 2 2 q
  /\ exists q' blk blk',
       (forall fuel, enqueue Z 2 2 (S (S fuel)) 1 q = Done (false, q'))
       /\ phead q = MkField 0 0 /\ phead q' = MkField 1 0
       /\ blocks q !! 1%nat = Some blk /\ blocks q' !! 1%nat = Some blk'
       /\ alloc blk = MkField 0 1 /\ alloc blk' = MkField 1 0.
Proof.
  split; [repeat split|]. split.
  { exists 2%nat, [Enq 0]. eexists. vm_compute. reflexivity. }
  do 3 eexists. split; [intros fuel; vm_compute; reflexivity|].
  vm_compute. repeat split.
Qed.

(** C10. [Queue<uint64_t, 8, 4>] after four calls of [enqueue] and four of
    [dequeue]: the next call of [enqueue] needs three turns of its loop; it
    advances the producer head twice before it finds a slot. *)
Theorem enqueue_three_turns_8_4 :
  let q := state_after Z 0 0 8 4 2 (map Enq (seqZ 0 4) ++ replicate 4 Deq) in
  valid_params 8 4
  /\ reachable Z 0 0 8 4 q
  /\ enqueue Z 8 4 2 4 q = OutOfFuel
  /\ exists q', forall fuel, enqueue Z 8 4 (S (S (S fuel))) 4 q = Done (true, q').
Proof.
  split; [repeat split|]. split.
  { exists 2%nat, (map Enq (seqZ 0 4) ++ replicate 4 Deq). eexists.
    vm_compute. reflexivity. }
  split; [reflexivity|]. eexists. intros fuel. vm_compute. reflexivity.
Qed.

(** ** The square statements on the queue of the driver *)

Lemma square_16_4 : NE 16 4 = 4.
Proof. reflexivity. Qed.

(** [Queue<uint64_t, 16, 4>] is first in, first out, loses nothing and
    delivers nothing twice. *)
Corollary fifo_16_4 (ops : list (op Z)) :
  Z.of_nat (length ops) + 1 < 2 ^ VERSION_BITS ->
  exists es q pending q',
    (forall fuel, run Z 0 16 4 (S (S fuel)) ops (Queue_new Z 0 16 4) = Done (es, q))
    /\ accepted Z es = delivered Z es ++ pending
    /\ (forall fuel,
         run Z 0 16 4 (S (S fuel)) (replicate (length pending) Deq) q
         = Done (map (fun x => DeqRet (Some x)) pending, q'))
    /\ (forall fuel, dequeue Z 0 16 4 (S (S fuel)) q' = Done (None, q')).
Proof. apply fifo_square; [exact params_16_4|exact square_16_4]. Qed.

(** ** The general statements at work on the queue of the driver *)

(** Two values in, one out: the second one is pending, the next call of
    [dequeue] hands it out and the one after finds the queue empty. *)
Lemma fifo_order_witness :
  let ops := [Enq 7; Enq 8; Deq] in
  let es := [EnqRet 7 true; EnqRet 8 true; DeqRet (Some 7)] in
  let q := state_after Z 0 0 16 4 2 ops in
  exists pending q',
    accepted Z es = delivered Z es ++ pending
    /\ (forall fuel',
         run Z 0 16 4 (3 + fuel') (replicate (length pending) Deq) q
         = Done (map (fun x => DeqRet (Some x)) pending, q'))
    /\ (forall fuel', exists q'',
         dequeue Z 0 16 4 (3 + fuel') q' = Done (None, q'')).
Proof.
  intros ops es q.
  apply (fifo_order Z 0 0 16 4 2 ops es q).
  - exact params_16_4.
  - vm_compute. reflexivity.
  - vm_compute. reflexivity.
Defined.

(** On a fresh queue the producer may enter block 1. *)
Lemma advance_phead_spec_witness :
  exists q',
    advance_phead Z 16 4 (MkField 0 0) (Queue_new Z 0 16 4) = Done (SUCCESS, q').
Proof.
  destruct (advance_phead_spec Z 16 4 (Queue_new Z 0 16 4) (MkField 0 0)
              (Block_init Z 0 16 4 4)) as [_ H].
  - exact params_16_4.
  - simpl. lia.
  - reflexivity.
  - reflexivity.
  - destruct H as (q' & nb' & H & _).
    + vm_compute. intros [H0|[_ H0]]; [discriminate H0|by apply H0].
    + exists q'. exact H.
Defined.

(** After five calls of [enqueue] and four of [dequeue] the consumer may
    enter block 1. *)
Lemma advance_chead_spec_witness :
  exists q',
    advance_chead Z 16 4 (MkField 0 0) 0
      (state_after Z 0 0 16 4 2 (map Enq (seqZ 0 5) ++ replicate 4 Deq))
    = Done (true, q').
Proof.
  destruct (advance_chead_spec Z 0 16 4
              (state_after Z 0 0 16 4 2 (map Enq (seqZ 0 5) ++ replicate 4 Deq))
              (MkField 0 0) 0
              (MkBlock (MkField 1 1) (MkField 1 1) (MkField 0 4) (MkField 0 4)
                       [4; 0; 0; 0])) as [H _].
  - exact params_16_4.
  - vm_compute. repeat split; discriminate.
  - reflexivity.
  - destruct H as (q' & nb' & H & _).
    + reflexivity.
    + exists q'. exact H.
Defined.

(** On a fresh queue the reserve step finds no entry. *)
Lemma reserve_entry_status_witness :
  exists st q',
    reserve_entry Z 16 4 1 0 (Queue_new Z 0 16 4)
    = Done ((st, MkField 0 0), q')
    /\ (st = NO_ENTRY <-> 0 = 0).
Proof.
  destruct (reserve_entry_status Z 0 16 4 (Queue_new Z 0 16 4) 0%nat 0
              (Block_init Z 0 16 4 0)) as (st & q' & H1 & H2 & _).
  - reflexivity.
  - lia.
  - reflexivity.
  - exists st, q'. split; [exact H1|exact H2].
Defined.

(** One value in, one value out: slot 0 of block 0 holds 0 afterwards. *)
Lemma dequeue_overwrites_slot_witness :
  exists blk',
    blocks (state_after Z 0 0 16 4 2 [Enq 5; Deq]) !! 0%nat = Some blk'
    /\ data blk' !! 0%nat = Some 0.
Proof.
  destruct (dequeue_overwrites_slot Z 0 16 4 2
              (state_after Z 0 0 16 4 2 [Enq 5])
              (state_after Z 0 0 16 4 2 [Enq 5; Deq]) 5)
    as (q1 & blk & _ & _ & _ & _ & _ & blk' & _).
  - exact params_16_4.
  - reflexivity.
  - exists (MkBlock (MkField 0 1) (MkField 0 1) (MkField 0 1) (MkField 0 1)
              [0; 0; 0; 0]).
    split; reflexivity.
Defined.

(** The cursors of block 1 after five calls of [enqueue]. *)
Lemma cursor_order_witness :
  let blk := MkBlock (MkField 1 1) (MkField 1 1) (MkField 0 4) (MkField 0 4)
               [4; 0; 0; 0] in
  Field_le (cons blk) (resv blk) /\ Field_le (resv blk) (comm blk)
  /\ Field_le (comm blk) (alloc blk).
Proof.
  intros blk.
  destruct (cursor_order Z 0 0 16 4
              (state_after Z 0 0 16 4 2 (map Enq (seqZ 0 5)))) as [H _].
  - exact params_16_4.
  - exists 2%nat, (map Enq (seqZ 0 5)). eexists. vm_compute. reflexivity.
  - destruct (H 1%nat blk) as (_ & _ & _ & _ & _ & H1 & H2 & H3 & _).
    + reflexivity.
    + repeat split; assumption.
Defined.

(** ** The further statements at work *)

Lemma params_8_4 : valid_params 8 4.
Proof. repeat split. Qed.

Lemma params_2_2 : valid_params 2 2.
Proof. repeat split. Qed.

(** An index at the top of its 20 bits wraps to 0 and leaves the version
    alone; a version of [2^44 + 5] is stored as 5. *)
Lemma Field_ops_spec_witness :
  Field_add (MkField 3 1048575) 1 = MkField 3 0
  /\ Field_add (Field_add (MkField 3 1048575) 1) 2
     = Field_add (MkField 3 1048575) (1 + 2)
  /\ version (Field_ctor (2 ^ 44 + 5) 3) = (2 ^ 44 + 5) mod 2 ^ VERSION_BITS.
Proof.
  destruct (Field_ops_spec (MkField 3 1048575) (2 ^ 44 + 5) 3 1 2)
    as (_ & H0 & _ & _ & _ & _ & _ & _ & _ & _ & H1 & H2).
  - vm_compute. repeat split; discriminate.
  - split; [apply H1; reflexivity|]. split; [exact H2|exact H0].
Defined.

(** One value through the fresh queue of the driver. *)
Lemma fresh_queue_round_trip_witness :
  exists q1 q2,
    enqueue Z 16 4 1 5 (Queue_new Z 0 16 4) = Done (true, q1)
    /\ dequeue Z 0 16 4 1 q1 = Done (Some 5, q2)
    /\ dequeue Z 0 16 4 1 q2 = Done (None, q2).
Proof.
  destruct (fresh_queue_round_trip Z 0 0 16 4 5 params_16_4)
    as (_ & _ & q1 & q2 & H1 & H2 & H3).
  exists q1, q2. split; [apply (H1 0%nat)|].
  split; [apply (H2 0%nat)|apply (H3 0%nat)].
Defined.

(** The first slot of a fresh queue is handed out. *)
Lemma allocate_entry_spec_witness :
  exists q',
    allocate_entry Z 16 4 0 (Queue_new Z 0 16 4) = Done ((SUCCESS, 0), q').
Proof.
  destruct (allocate_entry_spec Z 16 4 (Queue_new Z 0 16 4) 0
              (Block_init Z 0 16 4 0) params_16_4) as [_ H].
  - reflexivity.
  - lia.
  - vm_compute. discriminate.
  - destruct H as (q' & blk' & H & _); [vm_compute; reflexivity|].
    exists q'. exact H.
Defined.

(** A write into slot 2 of block 0, and a write at index [-1]. *)
Lemma commit_entry_spec_witness :
  (exists q', commit_entry Z 0 2 9 (Queue_new Z 0 16 4) = Done (tt, q'))
  /\ commit_entry Z 0 (-1) 9 (Queue_new Z 0 16 4) = Undefined.
Proof.
  destruct (commit_entry_spec Z (Queue_new Z 0 16 4) 0 2 9 (Block_init Z 0 16 4 0))
    as [H1 _]; [reflexivity|lia|].
  destruct (commit_entry_spec Z (Queue_new Z 0 16 4) 0 (-1) 9
              (Block_init Z 0 16 4 0)) as [_ H2]; [reflexivity|lia|].
  split.
  - destruct H1 as (q' & blk' & H & _); [vm_compute; split; [discriminate|reflexivity]|].
    exists q'. exact H.
  - apply H2. vm_compute. intros [H _]. by apply H.
Defined.

(** After one call of [enqueue] the reserve step succeeds. *)
Lemma reserve_entry_success_witness :
  exists q',
    reserve_entry Z 16 4 1 0 (state_after Z 0 0 16 4 2 [Enq 5])
    = Done ((SUCCESS, MkField 0 0), q').
Proof.
  destruct (reserve_entry_success Z 16 4 (state_after Z 0 0 16 4 2 [Enq 5]) 0%nat 0
              (MkBlock (MkField 0 1) (MkField 0 1) (MkField 0 0) (MkField 0 0)
                       [5; 0; 0; 0]) params_16_4) as (_ & H & _).
  - reflexivity.
  - lia.
  - vm_compute. repeat split; discriminate.
  - destruct H as (q' & blk' & H & _).
    + vm_compute. reflexivity.
    + vm_compute. discriminate.
    + right. reflexivity.
    + exists q'. exact H.
Defined.

(** The first call of [enqueue] on the queue of the driver. *)
Lemma enqueue_writes_slot_witness :
  exists q1 blk,
    blocks q1 !! Z.to_nat (index (phead q1)) = Some blk
    /\ 0 <= index (alloc blk) < NE 16 4
    /\ state_after Z 0 0 16 4 2 [Enq 5]
       = put_block Z (Z.to_nat (index (phead q1)))
           (MkBlock (Field_add (alloc blk) 1) (Field_add (comm blk) 1)
                    (resv blk) (cons blk)
                    (<[Z.to_nat (index (alloc blk)) := 5]> (data blk))) q1.
Proof.
  destruct (enqueue_writes_slot Z 16 4 1 5 (Queue_new Z 0 16 4)
              (state_after Z 0 0 16 4 2 [Enq 5]) params_16_4)
    as (q1 & blk & _ & _ & H1 & H2 & H3 & _).
  - reflexivity.
  - exists q1, blk. split; [exact H1|]. split; [exact H2|exact H3].
Defined.

(** The refused call of [Queue<uint64_t, 2, 2>] moves the producer head,
    and yet leaves the consumer head and every slot alone. *)
Lemma enqueue_frame_witness :
  let q := state_after Z 0 0 2 2 2 [Enq 0] in
  let q' := state_after Z 0 0 2 2 2 [Enq 0; Enq 1] in
  chead q' = chead q /\ map data (blocks q') = map data (blocks q).
Proof.
  intros q q'.
  destruct (enqueue_frame Z 2 2 2 1 q q' false params_2_2)
    as (H1 & _ & _ & _ & H5).
  - reflexivity.
  - split; [exact H1|]. apply H5. reflexivity.
Defined.

(** A call of [dequeue] that delivers leaves the producer side alone. *)
Lemma dequeue_frame_witness :
  let q := state_after Z 0 0 16 4 2 [Enq 5] in
  let q' := state_after Z 0 0 16 4 2 [Enq 5; Deq] in
  phead q' = phead q /\ map alloc (blocks q') = map alloc (blocks q).
Proof.
  intros q q'.
  destruct (dequeue_frame Z 0 16 4 1 q q' (Some 5) params_16_4)
    as (H1 & H2 & _).
  - reflexivity.
  - split; [exact H1|exact H2].
Defined.

(** Five calls of [enqueue] on [Queue<uint64_t, 8, 4>]. *)
Lemma heads_in_ring_witness :
  let q := state_after Z 0 0 8 4 3 (map Enq (seqZ 0 5)) in
  0 <= index (phead q) < Z.min 4 (NE 8 4)
  /\ 0 <= index (chead q) < Z.min 4 (NE 8 4).
Proof.
  intros q.
  apply (heads_in_ring Z 0 0 8 4 3 (map Enq (seqZ 0 5))
           (map (fun i => EnqRet i (i <? 4)) (seqZ 0 5)) q).
  - exact params_8_4.
  - vm_compute. reflexivity.
  - vm_compute. reflexivity.
Defined.

(** Eight calls of [enqueue] on [Queue<uint64_t, 8, 4>] all complete. *)
Lemma calls_complete_witness :
  exists es q,
    forall fuel,
      run Z 0 8 4 (3 + fuel) (map Enq (seqZ 0 8)) (Queue_new Z 0 8 4)
      = Done (es, q).
Proof.
  apply (calls_complete Z 0 0 8 4 (map Enq (seqZ 0 8))).
  - exact params_8_4.
  - vm_compute. discriminate.
  - vm_compute. reflexivity.
Defined.

(** Seventeen calls of [enqueue] on the queue of the driver. *)
Lemma occupancy_bound_witness :
  let es := map (fun i => EnqRet i (i <? 16)) (seqZ 0 17) in
  Z.of_nat (length (accepted Z es)) - Z.of_nat (length (delivered Z es)) <= 16.
Proof.
  intros es.
  destruct (occupancy_bound Z 0 0 16 4 2 (map Enq (seqZ 0 17)) es
              (state_after Z 0 0 16 4 2 (map Enq (seqZ 0 17))))
    as (_ & H & _).
  - exact params_16_4.
  - vm_compute. reflexivity.
  - vm_compute. reflexivity.
  - exact H.
Defined.

(** [Queue<uint64_t, 8, 4>] accepts at most six values in its life. *)
Lemma lifetime_capacity_witness :
  let es := map (fun i => EnqRet i (i <? 4)) (seqZ 0 8) in
  Z.of_nat (length (accepted Z es)) <= (2 * NE 8 4 - 1) * NE 8 4.
Proof.
  intros es.
  destruct (lifetime_capacity Z 0 0 8 4 2 (map Enq (seqZ 0 8)) es
              (state_after Z 0 0 8 4 2 (map Enq (seqZ 0 8))))
    as (H & _).
  - exact params_8_4.
  - vm_compute. reflexivity.
  - vm_compute. reflexivity.
  - apply H. vm_compute. reflexivity.
Defined.

(** The seventeenth call of [enqueue] on the queue of the driver. *)
Lemma refused_call_changes_nothing_witness :
  state_after Z 0 0 16 4 2 (map Enq (seqZ 0 16) ++ [Enq 99])
  = state_after Z 0 0 16 4 2 (map Enq (seqZ 0 16)).
Proof.
  destruct (refused_call_changes_nothing Z 0 0 16 4 2 (map Enq (seqZ 0 16))
              (map (fun i => EnqRet i true) (seqZ 0 16))
              (state_after Z 0 0 16 4 2 (map Enq (seqZ 0 16))))
    as (H & _).
  - exact params_16_4.
  - vm_compute. discriminate.
  - vm_compute. reflexivity.
  - vm_compute. reflexivity.
  - apply (H 2%nat 99). vm_compute. reflexivity.
Defined.

(** The fresh [Queue<uint64_t, 2, 2>] printed. *)
Lemma printData_spec_witness :
  printData Z 2 2 (Queue_new Z 0 2 2)
  = Done (concat (imap (shown Z) (blocks (Queue_new Z 0 2 2))), Queue_new Z 0 2 2).
Proof.
  apply (printData_spec Z 2 2 (Queue_new Z 0 2 2)).
  - reflexivity.
  - intros [|[|i]] blk H; vm_compute in H; [| |discriminate H];
      injection H as <-; reflexivity.
Defined.

(** The writer of the driver: two values into [Queue<uint64_t, 16, 4>]. *)
Lemma writer_fills_witness :
  exists q q',
    (forall fuel, writer Z 16 4 (2 + fuel) 2 1 (Queue_new Z 0 16 4) = Done (tt, q))
    /\ (forall fuel,
         run Z 0 16 4 (2 + fuel) (replicate 2 Deq) q
         = Done (replicate 2 (DeqRet (Some 1)), q')).
Proof.
  destruct (writer_fills Z 0 0 16 4 2 1 params_16_4 square_16_4) as [H _].
  apply H. vm_compute. discriminate.
Defined.

(** The reader of the driver on the values 0, 1, 5: it aborts at the
    third. *)
Lemma reader_checks_order_witness :
  exists q',
    forall fuel',
      reader Z 0 16 4 (fun buf i => negb (buf =? i)) (3 + fuel') 3 0
        (state_after Z 0 0 16 4 2 [Enq 0; Enq 1; Enq 5])
      = Done (false, q').
Proof.
  apply (reader_checks_order Z 0 0 16 4 (fun buf i => negb (buf =? i)) 2
           [Enq 0; Enq 1; Enq 5]
           [EnqRet 0 true; EnqRet 1 true; EnqRet 5 true]
           (state_after Z 0 0 16 4 2 [Enq 0; Enq 1; Enq 5]) [0; 1; 5] 3).
  - exact params_16_4.
  - vm_compute. reflexivity.
  - vm_compute. reflexivity.
  - reflexivity.
  - vm_compute. lia.
Defined.

(** Twelve values pending in the queue of the driver: the next is taken. *)
Lemma enqueue_accepts_when_room_witness :
  exists q',
    forall fuel',
      enqueue Z 16 4 (2 + fuel') 12
        (state_after Z 0 0 16 4 2 (map Enq (seqZ 0 12))) = Done (true, q').
Proof.
  apply (enqueue_accepts_when_room Z 0 0 16 4 2 (map Enq (seqZ 0 12))
           (map (fun i => EnqRet i true) (seqZ 0 12))
           (state_after Z 0 0 16 4 2 (map Enq (seqZ 0 12))) 12).
  - exact params_16_4.
  - exact square_16_4.
  - vm_compute. reflexivity.
  - vm_compute. reflexivity.
  - vm_compute. discriminate.
Defined.

(** After five calls of [enqueue] nothing is in flight in block 1. *)
Lemma not_available_unreachable_witness :
  let blk := MkBlock (MkField 1 1) (MkField 1 1) (MkField 0 4) (MkField 0 4)
               [4; 0; 0; 0] in
  comm blk = alloc blk /\ resv blk = cons blk.
Proof.
  intros blk.
  destruct (not_available_unreachable Z 0 0 16 4
              (state_after Z 0 0 16 4 2 (map Enq (seqZ 0 5)))) as (H & _).
  - exact params_16_4.
  - exists 2%nat, (map Enq (seqZ 0 5)). eexists. vm_compute. reflexivity.
  - apply (H 1%nat blk). reflexivity.
Defined.

(** [Queue<uint64_t, 0, 4>]. *)
Lemma zero_capacity_undefined_witness :
  enqueue Z 0 4 1 7 (Queue_new Z 0 0 4) = Undefined.
Proof.
  destruct (zero_capacity_undefined Z 0 0 0 4 7 0%nat) as (_ & _ & H).
  - reflexivity.
  - lia.
  - exact H.
Defined.

(** Every execution of [Queue<uint64_t, 8, 4>] completes and is first in,
    first out, although the queue is no ring. *)
Lemma fifo_every_execution_witness :
  exists es q pending q',
    (forall fuel,
       run Z 0 8 4 (3 + fuel) [Enq 7; Enq 8; Deq] (Queue_new Z 0 8 4)
       = Done (es, q))
    /\ accepted Z es = delivered Z es ++ pending
    /\ (forall fuel,
         run Z 0 8 4 (3 + fuel) (replicate (length pending) Deq) q
         = Done (map (fun x => DeqRet (Some x)) pending, q'))
    /\ (forall fuel, exists q'', dequeue Z 0 8 4 (3 + fuel) q' = Done (None, q'')).
Proof.
  apply (fifo_every_execution Z 0 0 8 4 [Enq 7; Enq 8; Deq]).
  - exact params_8_4.
  - vm_compute. discriminate.
  - vm_compute. reflexivity.
Defined.
